(** * Etre: schema manager, entity store and auth manager

    A shallow embedding of the parts of Etre that the specification makes
    claims about:

    - [Schema]: the schema manager (package [schema]): index validation and
      naming, index reconciliation against the database, and the translation
      of a declared schema into a JSON-schema validator.  The MongoDB driver
      is an interface ([Driver]); every call made through it is recorded.
    - [Regex]: regular expressions with a derivative matcher, used to give
      the validator patterns a meaning.
    - [Entity]: the entity store operations Insert and DeleteLabel.
    - [Auth]: the trace header handling of the auth manager.
    - [Server]: the retries of the schema reconciliation at start.
    - [Client]: the entity client of package [etre], over an interface for
      the HTTP client and one for the JSON encoding.
*)

From Stdlib Require Import ZArith List String Ascii Bool Lia DecimalString.
From stdpp Require Import base option gmap strings list.

Open Scope Z_scope.
Open Scope string_scope.

(** ** Go strings *)

Module GoString.

(** [strings.Join]. *)
Definition Join (elems : list string) (sep : string) : string :=
  String.concat sep elems.

(** [strings.HasPrefix]. *)
Definition HasPrefix (s prefix : string) : bool := String.prefix prefix s.

(** [strings.Contains]: [substr] occurs somewhere in [s]. *)
Fixpoint Contains (s substr : string) : bool :=
  String.prefix substr s ||
  match s with
  | EmptyString => false
  | String _ rest => Contains rest substr
  end.

(** [strconv.Itoa] on a Go [int]. *)
Definition Itoa (i : Z) : string := NilZero.string_of_int (Z.to_int i).

Definition dquote : string := String (ascii_of_nat 34) EmptyString.
Definition backslash : ascii := ascii_of_nat 92.

(** The digits of [strconv]'s escapes. *)
Definition lowerhex (n : nat) : ascii :=
  nth n (list_ascii_of_string "0123456789abcdef") "0"%char.

(** One character as [strconv.Quote] writes it.  The double quote and the
    backslash are backslashed; the control characters have their escapes,
    by letter where Go has one and as [\x] with two digits otherwise; the
    printable ASCII characters are copied.  A byte above 0x7f is copied,
    which is what Go does with the bytes of a printable character in
    UTF-8. *)
Definition quoteChar (c : ascii) : string :=
  let n := nat_of_ascii c in
  let escaped (l : ascii) := String backslash (String l EmptyString) in
  if (n =? 34)%nat || (n =? 92)%nat then escaped c
  else if (n =? 7)%nat then escaped "a"%char
  else if (n =? 8)%nat then escaped "b"%char
  else if (n =? 12)%nat then escaped "f"%char
  else if (n =? 10)%nat then escaped "n"%char
  else if (n =? 13)%nat then escaped "r"%char
  else if (n =? 9)%nat then escaped "t"%char
  else if (n =? 11)%nat then escaped "v"%char
  else if (n <? 32)%nat || (n =? 127)%nat
  then String backslash
         (String "x"%char
            (String (lowerhex (Nat.div n 16))
               (String (lowerhex (Nat.modulo n 16)) EmptyString)))
  else String c EmptyString.

(** [strconv.Quote], as used by the [%q] verb. *)
Fixpoint quoteBody (s : string) : string :=
  match s with
  | EmptyString => EmptyString
  | String c rest => quoteChar c ++ quoteBody rest
  end.

Definition Quote (s : string) : string := dquote ++ quoteBody s ++ dquote.

(** The [%v] verb on a [bool], a [[]string] and a [[]int]. *)
Definition fmtBool (b : bool) : string := if b then "true" else "false".
Definition fmtStrings (l : list string) : string := "[" ++ Join l " " ++ "]".
Definition fmtInts (l : list Z) : string := "[" ++ Join (map Itoa l) " " ++ "]".

End GoString.

(** ** Go errors ([github.com/pkg/errors]) *)

Module GoError.

(** An error is a root carrying its message ([errors.New], [fmt.Errorf],
    or an error handed back by the database driver), or a wrapper around a
    cause ([errors.Wrap], [errors.Wrapf]). *)
Inductive error : Type :=
| New (msg : string)
| Wrap (cause : error) (msg : string).

(** [errors.Cause]: the innermost error. *)
Fixpoint Cause (e : error) : error :=
  match e with
  | New _ => e
  | Wrap c _ => Cause c
  end.

(** The [Error()] method: a wrapper prints its message, a colon and the
    message of its cause. *)
Fixpoint Error (e : error) : string :=
  match e with
  | New msg => msg
  | Wrap c msg => msg ++ ": " ++ Error c
  end.

Definition is_Some_bool {A} (o : option A) : bool :=
  match o with
  | Some _ => true
  | None => false
  end.

(** [errors.Wrapf(err, ...)] is nil when [err] is nil. *)
Definition WrapNilable (err : option error) (msg : string) : option error :=
  match err with
  | None => None
  | Some e => Some (Wrap e msg)
  end.

End GoError.

(** ** The schema manager (package [schema]) *)

Module Schema.
Import GoString GoError.

(** *** Configuration (config.go) *)

Record Case : Type := {
  Strict : bool;
  CaseType : string
}.

Record Field : Type := {
  Name : string;
  FieldType : string;
  Required : bool;
  Pattern : string;
  FieldCase : option Case;          (* *Case: nil or a case rule *)
  Enum : option (list string);      (* []string: nil or a (maybe empty) list *)
  Dependents : list string;
  Description : string
}.

Record Index : Type := {
  Keys : list string;
  Unique : bool;
  Direction : list Z;
  Sparse : bool
}.

Record SchemaT : Type := {
  Fields : list Field;
  AdditionalProperties : bool;
  Indexes : list Index;
  ValidationLevel : string
}.

Record EntitySchema : Type := {
  SchemaOf : option SchemaT         (* *Schema: nil or a schema *)
}.

Record Global : Type := {
  SchemaValidationConfigCase : Case
}.

Record Config : Type := {
  Entities : gmap string EntitySchema;
  GlobalCfg : Global
}.

(** [Index.String]. *)
Definition IndexString (i : Index) : string :=
  "Index{Keys: " ++ fmtStrings (Keys i) ++ ", Unique: " ++ fmtBool (Unique i)
    ++ ", Direction: " ++ fmtInts (Direction i) ++ "}".

(** *** Constants and error values *)

Definition defaultJSONSchemaValidationLevel : string := "moderate".
Definition defaultIndexDirection : Z := 1.

Definition regexLowerCase : string := "^[a-z0-9\W_]+$".
Definition regexRFC3339 : string :=
  "^\d{4}-\d{2}-\d{2}T\d{2}:\d{2}:\d{2}(\.\d+)?([+-]\d{2}:\d{2}|Z)$".
Definition regexInt64 : string :=
  "^(-?(0|[1-9]\d{0,18})|922337203685477580[0-7]|-9223372036854775808)$".

Definition errNoKeysForIndex : error := New "no keys defined for index".
Definition errTooManyKeysForIndex : error :=
  New "too many keys defined for index; max is 30".
Definition errKeysAndDirectionsDoNotMatch : error :=
  New "number of keys and directions do not match for index".
Definition errInvalidIndexDirection : error :=
  New "invalid direction for key(s) in index; must be 1 or -1".
Definition errIndexSparseAndUnique : error :=
  New "index cannot be both sparse and unique".
Definition errInvalidFieldType : error :=
  New "unsupported field type; only string, int, bool, object are supported".
Definition errEnumNotString : error :=
  New "enums are only supported for string types".
Definition errFieldNameEmpty : error := New "field name cannot be empty".

Definition errBuildInProgress : string :=
  "Existing index build in progress on the same collection".

(** *** Index names and index documents *)

(** The local variable [indexNamePrefix] of [indexName]. *)
Definition indexNamePrefix (index : Index) : string :=
  if Unique index then "IL"
  else if Sparse index then "SPARSE"
  else "SL".

Definition intSliceToString (slice : list Z) : list string := map Itoa slice.

Definition indexName (index : Index) : string :=
  if (length (Keys index) =? 0)%nat then ""
  else if (length (Direction index) =? 0)%nat then
    indexNamePrefix index ++ "_" ++ Join (Keys index) "_"
  else
    indexNamePrefix index ++ "_" ++ Join (Keys index) "_" ++ "_"
      ++ Join (intSliceToString (Direction index)) "_".

(** [index.Direction[i]]; the index is in range wherever [toBSONIndex] is
    reached from [createIndex].  [None] stands for the run-time panic. *)
Fixpoint zipDirections (keys : list string) (dirs : list Z)
  : option (list (string * Z)) :=
  match keys, dirs with
  | [], _ => Some []
  | _ :: _, [] => None
  | k :: keys', d :: dirs' =>
      match zipDirections keys' dirs' with
      | Some rest => Some ((k, d) :: rest)
      | None => None
      end
  end.

Definition toBSONIndex (index : Index) : option (list (string * Z)) :=
  if (length (Direction index) =? 0)%nat
  then Some (map (fun key => (key, defaultIndexDirection)) (Keys index))
  else zipDirections (Keys index) (Direction index).

(** *** The database driver *)

(** [mongo.IndexModel] as [createIndex] builds it. *)
Record IndexModel : Type := {
  ModelKeys : list (string * Z);
  OptUnique : bool;
  OptSparse : bool;
  OptName : string
}.

(** The values stored under the keys of a field schema and of the
    [$jsonSchema] document. *)
Inductive fieldValue : Type :=
| FString (s : string)
| FStrings (l : list string).

Inductive jsonValue : Type :=
| JString (s : string)
| JBool (b : bool)
| JStrings (l : list string)
| JProperties (m : gmap string (gmap string fieldValue))
| JDependents (m : gmap string (list string)).

(** The [collMod] command: [validator] is [None] for the empty document. *)
Record Command : Type := {
  collMod : string;
  validator : option (gmap string (gmap string jsonValue));
  validationLevel : string
}.

(** A document read from the index cursor: it decodes, and then has a
    string under "name" or not, and the verb [%+v] prints it as [shown];
    or it fails to decode. *)
Inductive IndexDoc : Type :=
| Decoded (name : option string) (shown : string)
| Undecodable (err : error).

(** The name of the index that a document of the cursor describes. *)
Definition docName (doc : IndexDoc) : option string :=
  match doc with
  | Decoded name _ => name
  | Undecodable _ => None
  end.

Inductive ListResult : Type :=
| ListFailed (err : error)
| Cursor (docs : list IndexDoc) (cursorErr : option error).

(** The operations of the driver the schema manager uses, on a database
    state [DB]; the second argument of the index operations is the name of
    the collection. *)
Class Driver (DB : Type) : Type := {
  RunCommand : DB -> Command -> DB * option error;
  CreateOne : DB -> string -> IndexModel -> DB * option error;
  ListIndexes : DB -> string -> DB * ListResult;
  DropOne : DB -> string -> string -> DB * option error
}.

(** The calls made through the driver, in order. *)
Inductive Call : Type :=
| CallRunCommand (cmd : Command)
| CallCreateOne (coll : string) (model : IndexModel)
| CallList (coll : string)
| CallDropOne (coll : string) (name : string).

Record World (DB : Type) : Type := mkWorld {
  db : DB;
  calls : list Call
}.
Arguments mkWorld {DB} _ _.
Arguments db {DB} _.
Arguments calls {DB} _.

(** Computations that thread the database and the record of calls. *)
Definition M (DB A : Type) : Type := World DB -> A * World DB.

Definition ret {DB A} (a : A) : M DB A := fun w => (a, w).
Definition bind {DB A B} (m : M DB A) (f : A -> M DB B) : M DB B :=
  fun w => let (a, w') := m w in f a w'.

Notation "x <- m ;; k" := (bind m (fun x => k))
  (at level 100, m at next level, right associativity).

Section WithDriver.
Context {DB : Type} `{Driver DB}.

(** Each driver operation, recorded. *)
Definition runCommand (cmd : Command) : M DB (option error) :=
  fun w =>
    let (d, err) := RunCommand (db w) cmd in
    (err, mkWorld d (calls w ++ [CallRunCommand cmd])).

Definition indexesCreateOne (coll : string) (model : IndexModel)
  : M DB (option error) :=
  fun w =>
    let (d, err) := CreateOne (db w) coll model in
    (err, mkWorld d (calls w ++ [CallCreateOne coll model])).

Definition indexesList (coll : string) : M DB ListResult :=
  fun w =>
    let (d, r) := ListIndexes (db w) coll in
    (r, mkWorld d (calls w ++ [CallList coll])).

Definition indexesDropOne (coll name : string) : M DB (option error) :=
  fun w =>
    let (d, err) := DropOne (db w) coll name in
    (err, mkWorld d (calls w ++ [CallDropOne coll name])).

Definition disableMongoJSONValidation (entity : string)
  : M DB (option error) :=
  err <- runCommand {| collMod := entity; validator := None;
                       validationLevel := "off" |} ;;
  ret (WrapNilable err
         ("failed to remove JSON schema validation for entity " ++ entity)).

(** The five configuration checks of [createIndex], in the order of the
    source; [None] when the index passes all of them. *)
Definition checkIndex (index : Index) : option error :=
  if (length (Keys index) =? 0)%nat then Some errNoKeysForIndex
  else if (30 <? length (Keys index))%nat then Some errTooManyKeysForIndex
  else if (0 <? length (Direction index))%nat
          && negb (length (Keys index) =? length (Direction index))%nat
  then Some errKeysAndDirectionsDoNotMatch
  else if Sparse index && Unique index then Some errIndexSparseAndUnique
  else if existsb (fun direction =>
                     negb (direction =? 1)%Z && negb (direction =? -1)%Z)
            (Direction index)
  then Some errInvalidIndexDirection
  else None.

Definition panicIndexOutOfRange : error :=
  New "runtime error: index out of range".

Definition createIndex (coll : string) (index : Index)
  : M DB (string * option error) :=
  match checkIndex index with
  | Some e => ret ("", Some (Wrap e ("index: " ++ IndexString index)))
  | None =>
      let name := indexName index in
      match toBSONIndex index with
      | None => ret ("", Some panicIndexOutOfRange)
      | Some bsonIndex =>
          let model := {| ModelKeys := bsonIndex;
                          OptUnique := Unique index;
                          OptSparse := Sparse index;
                          OptName := name |} in
          err <- indexesCreateOne coll model ;;
          match err with
          | Some e =>
              ret ("", Some (Wrap e ("failed to create index "
                                       ++ IndexString index
                                       ++ " with name " ++ name)))
          | None => ret (name, None)
          end
      end
  end.

(** The creation loop of [updateMongoIndexes]: [inl] when the function
    returns the error, [inr] with the set [createdIndexes] when the loop
    ends, by exhaustion or by [break]. *)
Fixpoint createLoop (coll : string) (indexes : list Index)
    (createdIndexes : gset string) : M DB (error + gset string) :=
  match indexes with
  | [] => ret (inr createdIndexes)
  | index :: rest =>
      r <- createIndex coll index ;;
      match r with
      | (_, Some err) =>
          if Contains (Error (Cause err)) errBuildInProgress
          then ret (inr createdIndexes)
          else ret (inl err)
      | (idxName, None) =>
          createLoop coll rest ({[ idxName ]} ∪ createdIndexes)
      end
  end.

(** The cursor loop of [existingIndexes]. *)
Fixpoint decodeNames (coll : string) (docs : list IndexDoc)
    (acc : list string) : error + list string :=
  match docs with
  | [] => inr acc
  | Undecodable e :: _ => inl (Wrap e "Failed to decode index description")
  | Decoded None shown :: _ =>
      inl (New ("Failed to get index name for index from entity "
                  ++ coll ++ ": " ++ shown))
  | Decoded (Some name) _ :: rest => decodeNames coll rest (acc ++ [name])
  end.

Definition existingIndexes (coll : string) : M DB (error + list string) :=
  r <- indexesList coll ;;
  match r with
  | ListFailed e => ret (inl (Wrap e "Failed to list indexes"))
  | Cursor docs cursorErr =>
      match decodeNames coll docs [] with
      | inl e => ret (inl e)
      | inr names =>
          match cursorErr with
          | Some e =>
              ret (inl (Wrap e "Mongo cursor error when inspecting indexes"))
          | None => ret (inr names)
          end
      end
  end.

(** The drop loop of [updateMongoIndexes]. *)
Fixpoint dropLoop (coll : string) (existing : list string)
    (createdIndexes : gset string) : M DB (option error) :=
  match existing with
  | [] => ret None
  | idx :: rest =>
      if negb (bool_decide (idx ∈ createdIndexes)) && negb (HasPrefix idx "_")
      then
        err <- indexesDropOne coll idx ;;
        match err with
        | Some e =>
            if Contains (Error e) "index not found"
            then dropLoop coll rest createdIndexes
            else ret (Some (Wrap e ("failed to drop index " ++ idx
                                      ++ " for " ++ coll)))
        | None => dropLoop coll rest createdIndexes
        end
      else dropLoop coll rest createdIndexes
  end.

Definition updateMongoIndexes (entity : string) (indexes : list Index)
  : M DB (option error) :=
  if (length indexes =? 0)%nat then
    ret (Some (New ("no indexes defined for " ++ entity
                      ++ "; at least one index should be defined for any entity")))
  else
    let coll := entity in
    r <- createLoop coll indexes ∅ ;;
    match r with
    | inl err => ret (Some err)
    | inr createdIndexes =>
        r <- existingIndexes coll ;;
        match r with
        | inl err =>
            ret (Some (Wrap err ("failed to get existing indexes for " ++ coll)))
        | inr existing => dropLoop coll existing createdIndexes
        end
    end.

End WithDriver.

(** *** The JSON-schema validator *)

(** The switch on [field.Type] of [BSONSchemaValidator]: the BSON type, or
    [None] in the default case. *)
Definition bsonTypeOf (fieldType : string) : option string :=
  if (fieldType =? "string") || (fieldType =? "bool") || (fieldType =? "object")
  then Some fieldType
  else if fieldType =? "int" then Some "long"
  else if (fieldType =? "datetime") || (fieldType =? "int-str")
          || (fieldType =? "bool-str")
  then Some "string"
  else None.

Definition effectiveCaseOf (field : Field) (globalCase : Case) : Case :=
  match FieldCase field with
  | Some c => c
  | None => globalCase
  end.

(** The switch "Apply pattern or casing rule" of [BSONSchemaValidator],
    acting on the field schema built so far. *)
Definition applyConstraint (field : Field) (bsonType : string)
    (globalCase : Case) (fieldSchema : gmap string fieldValue)
  : gmap string fieldValue :=
  let effectiveCase := effectiveCaseOf field globalCase in
  if negb (Pattern field =? "") then
    <["pattern" := FString (Pattern field)]> fieldSchema
  else
    match Enum field with
    | Some ((_ :: _) as enum) => <["enum" := FStrings enum]> fieldSchema
    | _ =>
        if FieldType field =? "datetime" then
          <["pattern" := FString regexRFC3339]> fieldSchema
        else if FieldType field =? "int-str" then
          <["pattern" := FString regexInt64]> fieldSchema
        else if FieldType field =? "bool-str" then
          <["enum" := FStrings ["true"; "false"]]> fieldSchema
        else if Strict effectiveCase && (bsonType =? "string") then
          if CaseType effectiveCase =? "lower"
          then <["pattern" := FString regexLowerCase]> fieldSchema
          else fieldSchema
        else fieldSchema
    end.

(** The loop over [schema.Fields]: [inl] when the function returns an
    error, [inr] with the three accumulators when the loop ends. *)
Fixpoint fieldsLoop (fields : list Field) (globalCase : Case)
    (requiredFields : list string) (dependents : gmap string (list string))
    (properties : gmap string (gmap string fieldValue))
  : error + (list string * gmap string (list string)
             * gmap string (gmap string fieldValue)) :=
  match fields with
  | [] => inr (requiredFields, dependents, properties)
  | field :: rest =>
      if Name field =? "" then
        inl (Wrap errFieldNameEmpty
               ("field of type " ++ FieldType field ++ " has an empty name"))
      else
        match bsonTypeOf (FieldType field) with
        | None =>
            inl (Wrap errInvalidFieldType
                   ("field " ++ Name field ++ " is of type "
                      ++ Quote (FieldType field)))
        | Some bsonType =>
            if negb (FieldType field =? "string") && is_Some_bool (Enum field)
            then
              inl (Wrap errEnumNotString
                     ("field " ++ Name field ++ " is of type "
                        ++ Quote (FieldType field)))
            else
              let fieldSchema :=
                applyConstraint field bsonType globalCase
                  {[ "bsonType" := FString bsonType ]} in
              let properties := <[Name field := fieldSchema]> properties in
              let requiredFields :=
                if Required field then (requiredFields ++ [Name field])%list
                else requiredFields in
              let dependents :=
                if (0 <? length (Dependents field))%nat
                then <[Name field := Dependents field]> dependents
                else dependents in
              fieldsLoop rest globalCase requiredFields dependents properties
        end
  end.

Definition BSONSchemaValidator (schema : SchemaT) (globalCase : Case)
  : error + gmap string (gmap string jsonValue) :=
  match fieldsLoop (Fields schema) globalCase [] ∅ ∅ with
  | inl err => inl err
  | inr (requiredFields, dependents, properties) =>
      let jsonSchema : gmap string jsonValue :=
        {[ "bsonType" := JString "object";
           "properties" := JProperties properties;
           "required" := JStrings requiredFields;
           "additionalProperties" := JBool (AdditionalProperties schema) ]} in
      let jsonSchema :=
        if (0 <? size dependents)%nat
        then <["dependencies" := JDependents dependents]> jsonSchema
        else jsonSchema in
      inr {[ "$jsonSchema" := jsonSchema ]}
  end.

(** *** Reconciliation *)

Section Reconcile.
Context {DB : Type} `{Driver DB}.

Definition updateMongoJSONValidation (entity : string) (schema : SchemaT)
    (global : Global) : M DB (option error) :=
  if (length (Fields schema) =? 0)%nat then
    disableMongoJSONValidation entity
  else
    match BSONSchemaValidator schema (SchemaValidationConfigCase global) with
    | inl err =>
        ret (Some (Wrap err ("failed to create schema validator for " ++ entity)))
    | inr validatorDoc =>
        let update (level : string) : M DB (option error) :=
          err <- runCommand {| collMod := entity;
                               validator := Some validatorDoc;
                               validationLevel := level |} ;;
          ret (WrapNilable err
                 ("failed to update validator for entity " ++ entity)) in
        let level := ValidationLevel schema in
        if level =? "" then update defaultJSONSchemaValidationLevel
        else if (level =? "moderate") || (level =? "strict") then update level
        else ret (Some (New ("invalid validation level " ++ level
                               ++ " for entity " ++ entity)))
    end.

(** The body of the loop of [CreateOrUpdateMongoSchema] over the entries
    of [config.Entities], taken in the order [entries]. *)
Fixpoint walkEntities (entries : list (string * EntitySchema))
    (global : Global) : M DB (option error) :=
  match entries with
  | [] => ret None
  | (entity, validations) :: rest =>
      match SchemaOf validations with
      | None =>
          err <- disableMongoJSONValidation entity ;;
          match err with
          | Some e => ret (Some e)
          | None => walkEntities rest global
          end
      | Some schema =>
          err <- updateMongoIndexes entity (Indexes schema) ;;
          match err with
          | Some e =>
              ret (Some (Wrap e ("failed to ensure index creation for "
                                   ++ entity)))
          | None =>
              err <- updateMongoJSONValidation entity schema global ;;
              match err with
              | Some e => ret (Some e)
              | None => walkEntities rest global
              end
          end
      end
  end.

(** Go ranges over the map [config.Entities] in an unspecified order;
    [order] is the order of one run, an enumeration of the map. *)
Definition CreateOrUpdateMongoSchema (order : list (string * EntitySchema))
    (config : Config) : M DB (option error) :=
  walkEntities order (GlobalCfg config).

End Reconcile.

End Schema.

(** ** The entity store (package [entity]) *)

Module Entity.
Import GoString.

(** A label value.  [_id] holds an object id, written by its hex form. *)
Inductive Value : Type :=
| VString (s : string)
| VInt (i : Z)
| VBool (b : bool)
| VObjectID (hex : string).

#[global] Instance Value_eq_dec : EqDecision Value.
Proof. solve_decision. Defined.

(** An entity maps label names to values. *)
Abbreviation EntityT := (gmap string Value).

Record CDCEvent : Type := {
  Id : string;
  Ts : Z;
  EntityId : string;
  EntityType : string;
  EntityRev : Z;
  Caller : string;
  Op : string;
  Old : option EntityT;
  New : option EntityT;
  SetId : string;
  SetOp : string;
  SetSize : Z
}.

Record WriteOp : Type := {
  WoEntityType : string;
  WoEntityId : string;
  WoCaller : string;
  WoSetId : string;
  WoSetOp : string;
  WoSetSize : Z
}.

(** The error value of the store, identified by its type. *)
Record DbError : Type := { ErrorType : string }.

Definition errNoContent : DbError := {| ErrorType := "no-content" |}.
Definition errInvalidParam : DbError := {| ErrorType := "invalid-param" |}.
Definition errDuplicateEntity : DbError := {| ErrorType := "duplicate-entity" |}.
Definition errEntityNotFound : DbError := {| ErrorType := "entity-not-found" |}.
Definition errInternal : DbError := {| ErrorType := "internal-error" |}.

(** *** The database behind the store *)

Inductive InsertResult : Type :=
| Inserted
| DupKey
| InsertFailed.

Inductive FindResult : Type :=
| Found (prior : EntityT)
| NotFound
| FindFailed.

(** The two write operations the store needs from its database.
    [InsertOne b type doc] inserts one document, or refuses it on a
    duplicate key.  [FindOneAndUnset b type id label] looks the entity of
    that id up, removes the label from it, increments its [_rev], and hands
    back the document as it was before the update, whole. *)
Class Backend (B : Type) : Type := {
  InsertOne : B -> string -> EntityT -> B * InsertResult;
  FindOneAndUnset : B -> string -> string -> string -> B * FindResult
}.

(** The store: its database, the CDC events written so far (oldest
    first), the supplies of object ids and event ids, and the clock. *)
Record Store (B : Type) : Type := mkStore {
  backend : B;
  cdc : list CDCEvent;
  nextObjectId : nat;
  nextEventId : nat;
  now : Z
}.
Arguments mkStore {B} _ _ _ _ _.
Arguments backend {B} _.
Arguments cdc {B} _.
Arguments nextObjectId {B} _.
Arguments nextEventId {B} _.
Arguments now {B} _.

Definition objectIdHex (n : nat) : string := "oid" ++ Itoa (Z.of_nat n).
Definition eventIdOf (n : nat) : string := "evt" ++ Itoa (Z.of_nat n).

Definition isMetaLabel (label : string) : bool :=
  (label =? "_id") || (label =? "_type") || (label =? "_rev").

Definition revOf (e : EntityT) : option Z :=
  match e !! "_rev" with
  | Some (VInt r) => Some r
  | _ => None
  end.

(** The projection of a document on the meta-labels and one label. *)
Definition project (label : string) (d : EntityT) : EntityT :=
  filter (fun kv => isMetaLabel kv.1 = true ∨ kv.1 = label) d.

(** The entity as Insert stores it: with the fresh [_id], the type of the
    write operation and [_rev = 0]. *)
Definition newEntity (type id : string) (e : EntityT) : EntityT :=
  <["_rev" := VInt 0]>
    (<["_type" := VString type]> (<["_id" := VObjectID id]> e)).

Section WithBackend.
Context {B : Type} `{Backend B}.

(** Write one CDC event: the event gets the next event id and the time
    of the clock, and the set tags of the write operation. *)
Definition cdcWrite (wo : WriteOp) (op id : string) (rev : Z)
    (old new : option EntityT) (s : Store B) : Store B :=
  let event := {| Id := eventIdOf (nextEventId s);
                  Ts := now s;
                  EntityId := id;
                  EntityType := WoEntityType wo;
                  EntityRev := rev;
                  Caller := WoCaller wo;
                  Op := op;
                  Old := old;
                  New := new;
                  SetId := WoSetId wo;
                  SetOp := WoSetOp wo;
                  SetSize := WoSetSize wo |} in
  mkStore (backend s) (cdc s ++ [event]) (nextObjectId s)
    (S (nextEventId s)) (now s + 1).

(** Modelled from the spec: the check of the Insert operation on the
    labels a caller may not supply (entity/store.go and the API layer are
    not among the sources): [_id] and [_rev] must be absent, and [_type],
    if present, must be the type of the write operation. *)
Definition metaLabelsOk (wo : WriteOp) (e : EntityT) : bool :=
  match e !! "_id", e !! "_rev", e !! "_type" with
  | None, None, None => true
  | None, None, Some (VString t) => t =? WoEntityType wo
  | _, _, _ => false
  end.

(** Modelled from the spec: the loop of the Insert operation over the
    batch (entity/store.go is not among the sources).  For each entity in
    batch order: assign a fresh [_id], set [_type] and [_rev = 0], attempt
    the insert; on success write a CDC event with [Op = "i"] and go on;
    on a duplicate key stop and return [duplicate-entity] with the ids
    inserted so far; on any other failure stop with a database error and
    the ids so far. *)
Fixpoint insertLoop (wo : WriteOp) (entities : list EntityT)
    (ids : list string) (s : Store B)
  : list string * option DbError * Store B :=
  match entities with
  | [] => (ids, None, s)
  | e :: rest =>
      let id := objectIdHex (nextObjectId s) in
      let doc := newEntity (WoEntityType wo) id e in
      let (b', r) := InsertOne (backend s) (WoEntityType wo) doc in
      let s' := mkStore b' (cdc s) (S (nextObjectId s)) (nextEventId s)
                  (now s) in
      match r with
      | Inserted =>
          insertLoop wo rest (ids ++ [id])
            (cdcWrite wo "i" id 0 None (Some doc) s')
      | DupKey => (ids, Some errDuplicateEntity, s')
      | InsertFailed => (ids, Some errInternal, s')
      end
  end.

(** Modelled from the spec: the Insert operation of the store
    (entity/store.go is not among the sources): empty batches are
    rejected with [no-content], caller-supplied meta-labels with
    [invalid-param]; then the batch is inserted in order. *)
Definition Insert (wo : WriteOp) (entities : list EntityT) (s : Store B)
  : list string * option DbError * Store B :=
  if (length entities =? 0)%nat then ([], Some errNoContent, s)
  else if negb (forallb (metaLabelsOk wo) entities)
  then ([], Some errInvalidParam, s)
  else insertLoop wo entities [] s.

(** [allInserted wo entities ids s ids' s']: starting in [s] with the ids
    [ids], the database accepts every entity of [entities] in turn, as the
    loop of Insert presents them; this leaves the ids [ids'] and the store
    [s']. *)
Inductive allInserted (wo : WriteOp)
  : list EntityT -> list string -> Store B -> list string -> Store B -> Prop :=
| allInserted_nil ids s : allInserted wo [] ids s ids s
| allInserted_cons e rest ids s b' ids' s' :
    InsertOne (backend s) (WoEntityType wo)
      (newEntity (WoEntityType wo) (objectIdHex (nextObjectId s)) e)
    = (b', Inserted) ->
    allInserted wo rest (ids ++ [objectIdHex (nextObjectId s)])
      (cdcWrite wo "i" (objectIdHex (nextObjectId s)) 0 None
         (Some (newEntity (WoEntityType wo) (objectIdHex (nextObjectId s)) e))
         (mkStore b' (cdc s) (S (nextObjectId s)) (nextEventId s) (now s)))
      ids' s' ->
    allInserted wo (e :: rest) ids s ids' s'.

(** Modelled from the spec: the DeleteLabel operation of the store
    (entity/store.go is not among the sources).  The steps are those of
    the specification: meta-labels are refused with [invalid-param]; the
    entity is looked up by the id of the write operation, the label
    removed and [_rev] incremented; a missing entity is
    [entity-not-found]; one CDC event with [Op = "u"] is written and the
    prior entity returned.  On one point the specification is not
    followed, the contents of [Old] and [New]: it gives them as the label
    with its prior value alone and as the empty map, while TestDeleteLabel
    in entity/store_test.go, which is among the sources, requires of the
    store that the prior entity returned, which is also [Old], holds the
    meta-labels besides the label, and that [New] holds the meta-labels with
    the new revision.  The model follows the test: the prior entity is the
    document of the database projected on [_id], [_type], [_rev] and the
    label, [New] is a copy of it without the label and with [_rev]
    incremented, and the revision of the event is the new one. *)
Definition DeleteLabel (wo : WriteOp) (label : string) (s : Store B)
  : option EntityT * option DbError * Store B :=
  if isMetaLabel label then (None, Some errInvalidParam, s)
  else
    let (b', r) :=
      FindOneAndUnset (backend s) (WoEntityType wo) (WoEntityId wo) label in
    let s' := mkStore b' (cdc s) (nextObjectId s) (nextEventId s) (now s) in
    match r with
    | NotFound => (None, Some errEntityNotFound, s')
    | FindFailed => (None, Some errInternal, s')
    | Found prior =>
        let old := project label prior in
        match revOf old with
        | None => (Some old, Some errInternal, s')
        | Some rev =>
            let new : EntityT :=
              <["_rev" := VInt (rev + 1)]> (delete label old) in
            (Some old, None,
             cdcWrite wo "u" (WoEntityId wo) (rev + 1) (Some old)
               (Some new) s')
        end
    end.

End WithBackend.

(** *** An in-memory database

    A collection holds its documents in insertion order and the labels
    that carry a unique index. *)
Record MemColl : Type := {
  docs : list EntityT;
  uniqueLabels : list string
}.

Definition conflicts (uniq : list string) (e d : EntityT) : bool :=
  existsb (fun l => match e !! l, d !! l with
                    | Some v, Some v' => bool_decide (v = v')
                    | _, _ => false
                    end) uniq.

Definition memInsertOne (b : gmap string MemColl) (type : string)
    (e : EntityT) : gmap string MemColl * InsertResult :=
  match b !! type with
  | None => (b, InsertFailed)
  | Some c =>
      if existsb (conflicts (uniqueLabels c) e) (docs c) then (b, DupKey)
      else (<[type := {| docs := docs c ++ [e];
                         uniqueLabels := uniqueLabels c |}]> b, Inserted)
  end.

Definition hasId (id : string) (d : EntityT) : bool :=
  bool_decide (d !! "_id" = Some (VObjectID id)).

(** The update of a document by DeleteLabel: the label is removed and
    [_rev] incremented. *)
Definition unsetLabel (label : string) (d : EntityT) : EntityT :=
  match revOf d with
  | Some r => <["_rev" := VInt (r + 1)]> (delete label d)
  | None => delete label d
  end.

(** The first document with the id is updated; the result is that
    document as it was, and the documents after the update. *)
Fixpoint unsetFirst (id label : string) (ds : list EntityT)
  : option (EntityT * list EntityT) :=
  match ds with
  | [] => None
  | d :: rest =>
      if hasId id d then Some (d, unsetLabel label d :: rest)
      else match unsetFirst id label rest with
           | Some (old, rest') => Some (old, d :: rest')
           | None => None
           end
  end.

Definition memFindOneAndUnset (b : gmap string MemColl) (type id label : string)
  : gmap string MemColl * FindResult :=
  match b !! type with
  | None => (b, FindFailed)
  | Some c =>
      match unsetFirst id label (docs c) with
      | None => (b, NotFound)
      | Some (old, ds) =>
          (<[type := {| docs := ds; uniqueLabels := uniqueLabels c |}]> b,
           Found old)
      end
  end.

#[global] Instance MemBackend : Backend (gmap string MemColl) := {
  InsertOne := memInsertOne;
  FindOneAndUnset := memFindOneAndUnset
}.

(** The number of events with the operation [op]. *)
Definition countOp (op : string) (events : list CDCEvent) : nat :=
  length (filter (fun ev => Op ev = op) events).

(** The data of the store tests: the collection [nodes] with a unique
    index on [x] and the three test nodes. *)
Definition testNode (id : string) (labels : list (string * Value)) : EntityT :=
  <["_id" := VObjectID id]>
    (<["_type" := VString "nodes"]>
       (<["_rev" := VInt 0]> (list_to_map labels))).

Definition testNodes : list EntityT :=
  [ testNode "a0" [("x", VInt 2); ("y", VString "a"); ("z", VInt 9);
                   ("foo", VString "")];
    testNode "a1" [("x", VInt 4); ("y", VString "b"); ("bar", VString "")];
    testNode "a2" [("x", VInt 6); ("y", VString "b"); ("bar", VString "")] ].

Definition testStore : Store (gmap string MemColl) :=
  mkStore {[ "nodes" := {| docs := testNodes; uniqueLabels := ["x"] |} ]}
    [] 0 0 1000.

Definition testWriteOp (id : string) : WriteOp :=
  {| WoEntityType := "nodes"; WoEntityId := id; WoCaller := "test_user";
     WoSetId := ""; WoSetOp := ""; WoSetSize := 0 |}.

End Entity.

(** ** The auth manager (package [auth]) *)

Module Auth.

Definition TRACE_HEADER : string := "X-Etre-Trace".

(** A request, as far as the manager reads it: its headers.  A header
    that is not set reads as the empty string. *)
Record Request : Type := {
  Header : gmap string string
}.

Definition HeaderGet (req : Request) (key : string) : string :=
  default "" (Header req !! key).

(** The caller; [Trace] is a Go map, nil or allocated. *)
Record Caller : Type := {
  Name : string;
  Roles : list string;
  MetricGroups : list string;
  Trace : option (gmap string string)
}.

Definition setTrace (c : Caller) (t : option (gmap string string)) : Caller :=
  {| Name := Name c; Roles := Roles c; MetricGroups := MetricGroups c;
     Trace := t |}.

(** [strings.Split(s, sep)] for a one-character separator: the pieces
    between the separators, of which there is always at least one. *)
Fixpoint splitOn (sep : ascii) (s : string) : list string :=
  match s with
  | EmptyString => [EmptyString]
  | String c rest =>
      if Ascii.eqb c sep then EmptyString :: splitOn sep rest
      else match splitOn sep rest with
           | [] => [String c EmptyString]
           | piece :: pieces => String c piece :: pieces
           end
  end.

(** Cut a pair at its first "=": the key and the value, or [None] when
    the pair has no "=". *)
Fixpoint cutPair (kv : string) : option (string * string) :=
  match kv with
  | EmptyString => None
  | String c rest =>
      if Ascii.eqb c "="%char then Some (EmptyString, rest)
      else match cutPair rest with
           | Some (k, v) => Some (String c k, v)
           | None => None
           end
  end.

(** Modelled from the spec: how the pairs of the trace header are added to
    the trace of the caller (auth/manager.go is not among the sources).  A
    pair without "=" is dropped; a key the trace already has keeps its
    value; the map is allocated when the first pair is stored. *)
Fixpoint addTracePairs (pairs : list string)
    (trace : option (gmap string string)) : option (gmap string string) :=
  match pairs with
  | [] => trace
  | kv :: rest =>
      match cutPair kv with
      | None => addTracePairs rest trace
      | Some (k, v) =>
          let m := default ∅ trace in
          match m !! k with
          | Some _ => addTracePairs rest trace
          | None => addTracePairs rest (Some (<[k := v]> m))
          end
      end
  end.

(** Modelled from the spec: the Authenticate operation of the manager
    (auth/manager.go is not among the sources), as far as the trace header
    goes: the plugin authenticates the request; if it fails, its caller and
    error are returned; otherwise the pairs of the [X-Etre-Trace] header,
    separated by commas, are added to the caller's trace.  An empty header
    leaves the caller as the plugin returned it. *)
Definition Authenticate (plugin : Request -> Caller * option string)
    (req : Request) : Caller * option string :=
  let (caller, err) := plugin req in
  match err with
  | Some e => (caller, Some e)
  | None =>
      let trace := HeaderGet req TRACE_HEADER in
      if trace =? "" then (caller, None)
      else (setTrace caller (addTracePairs (splitOn ","%char trace)
                               (Trace caller)), None)
  end.

(** The plugin that allows everything ([auth.NewAllowAll]), as
    TestAllowAll shows it. *)
Definition AllowAll (req : Request) : Caller * option string :=
  ({| Name := ""; Roles := []; MetricGroups := ["etre"]; Trace := None |},
   None).

(** The value of a trace key of a caller, if the caller has a trace and
    the trace has the key. *)
Definition lookupTrace (c : Caller) (k : string) : option string :=
  match Trace c with
  | Some m => m !! k
  | None => None
  end.

(** Does the character occur in the string? *)
Fixpoint hasChar (c : ascii) (s : string) : bool :=
  match s with
  | EmptyString => false
  | String c' rest => Ascii.eqb c' c || hasChar c rest
  end.

(** The value of the first pair [k=v] among [pairs] whose key is [k]. *)
Fixpoint firstValue (k : string) (pairs : list string) : option string :=
  match pairs with
  | [] => None
  | p :: rest =>
      match cutPair p with
      | Some (k', v) => if k' =? k then Some v else firstValue k rest
      | None => firstValue k rest
      end
  end.

(** The request of the trace tests, with its trace header. *)
Definition traceRequest (value : string) : Request :=
  {| Header := {[ TRACE_HEADER := value ]} |}.

End Auth.

(** ** Regular expressions

    The validator constrains string fields by patterns.  The patterns the
    schema manager emits are anchored at both ends ([^...$]); this module
    reads such a pattern and decides whether a whole string matches it.
    [$] stands for the end of the text. *)

Module Regex.

Inductive classItem : Type :=
| CRange (lo hi : ascii)      (* a-z, or a single character *)
| CDigit                      (* \d *)
| CNotWord.                   (* \W *)

Inductive re : Type :=
| Void
| Eps
| Chars (items : list classItem)
| Seq (r1 r2 : re)
| Alt (r1 r2 : re)
| Star (r : re).

Definition between (lo hi c : ascii) : bool :=
  (nat_of_ascii lo <=? nat_of_ascii c)%nat
  && (nat_of_ascii c <=? nat_of_ascii hi)%nat.

Definition isDigit (c : ascii) : bool := between "0" "9" c.

Definition isWord (c : ascii) : bool :=
  isDigit c || between "a" "z" c || between "A" "Z" c || Ascii.eqb c "_".

Definition matchItem (c : ascii) (item : classItem) : bool :=
  match item with
  | CRange lo hi => between lo hi c
  | CDigit => isDigit c
  | CNotWord => negb (isWord c)
  end.

(** Derived forms: [r?], [r{n}], [r{0,n}], [r{min,max}], [r+]. *)
Definition Opt (r : re) : re := Alt r Eps.

Fixpoint power (n : nat) (r : re) : re :=
  match n with
  | O => Eps
  | S n' => Seq r (power n' r)
  end.

Fixpoint upTo (n : nat) (r : re) : re :=
  match n with
  | O => Eps
  | S n' => Opt (Seq r (upTo n' r))
  end.

Definition Repeat (r : re) (min max : nat) : re :=
  Seq (power min r) (upTo (max - min) r).

Definition Plus (r : re) : re := Seq r (Star r).

(** *** Matching by derivatives *)

Fixpoint nullable (r : re) : bool :=
  match r with
  | Void => false
  | Eps => true
  | Chars _ => false
  | Seq r1 r2 => nullable r1 && nullable r2
  | Alt r1 r2 => nullable r1 || nullable r2
  | Star _ => true
  end.

Fixpoint deriv (c : ascii) (r : re) : re :=
  match r with
  | Void => Void
  | Eps => Void
  | Chars items => if existsb (matchItem c) items then Eps else Void
  | Seq r1 r2 =>
      if nullable r1 then Alt (Seq (deriv c r1) r2) (deriv c r2)
      else Seq (deriv c r1) r2
  | Alt r1 r2 => Alt (deriv c r1) (deriv c r2)
  | Star r' => Seq (deriv c r') (Star r')
  end.

Fixpoint matchList (r : re) (s : list ascii) : bool :=
  match s with
  | [] => nullable r
  | c :: s' => matchList (deriv c r) s'
  end.

(** *** Reading a pattern *)

Definition digitValue (c : ascii) : nat := nat_of_ascii c - 48.

(** A decimal number at the head of the input. *)
Fixpoint parseNat (acc : nat) (seen : bool) (s : list ascii)
  : option (nat * list ascii) :=
  match s with
  | c :: rest =>
      if isDigit c then parseNat (10 * acc + digitValue c) true rest
      else if seen then Some (acc, s) else None
  | [] => if seen then Some (acc, s) else None
  end.

(** The items of a character class, after the opening bracket. *)
Fixpoint parseClass (fuel : nat) (s : list ascii)
  : option (list classItem * list ascii) :=
  match fuel with
  | O => None
  | S fuel' =>
      let continue (item : classItem) (rest : list ascii) :=
        match parseClass fuel' rest with
        | Some (items, rest') => Some (item :: items, rest')
        | None => None
        end in
      match s with
      | [] => None
      | "]"%char :: rest => Some ([], rest)
      | "\"%char :: "d"%char :: rest => continue CDigit rest
      | "\"%char :: "W"%char :: rest => continue CNotWord rest
      | "\"%char :: c :: rest => continue (CRange c c) rest
      | c :: "-"%char :: "]"%char :: rest =>
          continue (CRange c c) ("-"%char :: "]"%char :: rest)
      | c :: "-"%char :: d :: rest => continue (CRange c d) rest
      | c :: rest => continue (CRange c c) rest
      end
  end.

Definition isSpecial (c : ascii) : bool :=
  existsb (Ascii.eqb c)
    ["|"; "("; ")"; "["; "]"; "{"; "}"; "*"; "+"; "?"; "^"; "$"; "."; "\"]%char.

(** One atom: a group, a class, an escape or a literal character.  [alt]
    reads the inside of a group. *)
Definition parseAtom (alt : list ascii -> option (re * list ascii))
    (s : list ascii) : option (re * list ascii) :=
  match s with
  | "("%char :: rest =>
      match alt rest with
      | Some (r, ")"%char :: rest') => Some (r, rest')
      | _ => None
      end
  | "["%char :: rest =>
      match parseClass (S (length rest)) rest with
      | Some (items, rest') => Some (Chars items, rest')
      | None => None
      end
  | "\"%char :: "d"%char :: rest => Some (Chars [CDigit], rest)
  | "\"%char :: "W"%char :: rest => Some (Chars [CNotWord], rest)
  | "\"%char :: c :: rest =>
      if isWord c then None else Some (Chars [CRange c c], rest)
  | c :: rest =>
      if isSpecial c then None else Some (Chars [CRange c c], rest)
  | [] => None
  end.

(** The quantifier that may follow an atom. *)
Definition parseQuantifier (r : re) (s : list ascii) : option (re * list ascii) :=
  match s with
  | "?"%char :: rest => Some (Opt r, rest)
  | "*"%char :: rest => Some (Star r, rest)
  | "+"%char :: rest => Some (Plus r, rest)
  | "{"%char :: rest =>
      match parseNat 0 false rest with
      | Some (n, "}"%char :: rest') => Some (power n r, rest')
      | Some (n, ","%char :: rest') =>
          match parseNat 0 false rest' with
          | Some (m, "}"%char :: rest'') =>
              if (n <=? m)%nat then Some (Repeat r n m, rest'') else None
          | _ => None
          end
      | _ => None
      end
  | _ => Some (r, s)
  end.

(** A sequence of quantified atoms, up to a bar, a closing parenthesis, a
    dollar or the end. *)
Fixpoint parseSeq (alt : list ascii -> option (re * list ascii))
    (fuel : nat) (s : list ascii) : option (re * list ascii) :=
  match fuel with
  | O => None
  | S fuel' =>
      match s with
      | [] => Some (Eps, s)
      | "|"%char :: _ => Some (Eps, s)
      | ")"%char :: _ => Some (Eps, s)
      | "$"%char :: _ => Some (Eps, s)
      | _ =>
          match parseAtom alt s with
          | Some (a, rest) =>
              match parseQuantifier a rest with
              | Some (q, rest') =>
                  match parseSeq alt fuel' rest' with
                  | Some (Eps, rest'') => Some (q, rest'')
                  | Some (r, rest'') => Some (Seq q r, rest'')
                  | None => None
                  end
              | None => None
              end
          | None => None
          end
      end
  end.

(** Alternatives separated by bars. *)
Fixpoint parseAlt (fuel : nat) (s : list ascii) : option (re * list ascii) :=
  match fuel with
  | O => None
  | S fuel' =>
      match parseSeq (parseAlt fuel') fuel' s with
      | Some (r1, "|"%char :: rest) =>
          match parseAlt fuel' rest with
          | Some (r2, rest') => Some (Alt r1 r2, rest')
          | None => None
          end
      | other => other
      end
  end.

(** A pattern anchored at both ends: [^], a sequence, [$]. *)
Definition parsePattern (pattern : string) : option re :=
  match list_ascii_of_string pattern with
  | "^"%char :: body =>
      let fuel := S (S (length body)) in
      match parseSeq (parseAlt fuel) fuel body with
      | Some (r, ["$"%char]) => Some r
      | _ => None
      end
  | _ => None
  end.

(** Does the whole of [s] match the pattern?  [None] when the pattern is
    not of the anchored form read here. *)
Definition matchPattern (pattern s : string) : option bool :=
  match parsePattern pattern with
  | Some r => Some (matchList r (list_ascii_of_string s))
  | None => None
  end.

(** *** The strings a regular expression denotes *)

Inductive Matches : re -> list ascii -> Prop :=
| MEps : Matches Eps []
| MChars items c :
    existsb (matchItem c) items = true -> Matches (Chars items) [c]
| MSeq r1 r2 s1 s2 :
    Matches r1 s1 -> Matches r2 s2 -> Matches (Seq r1 r2) (s1 ++ s2)
| MAltL r1 r2 s : Matches r1 s -> Matches (Alt r1 r2) s
| MAltR r1 r2 s : Matches r2 s -> Matches (Alt r1 r2) s
| MStarNil r : Matches (Star r) []
| MStarApp r s1 s2 :
    Matches r s1 -> Matches (Star r) s2 -> Matches (Star r) (s1 ++ s2).

(** A literal character, and a run of literal characters before [last]. *)
Definition lit (c : ascii) : re := Chars [CRange c c].

Definition chainTo (cs : string) (last : re) : re :=
  fold_right (fun c r => Seq (lit c) r) last (list_ascii_of_string cs).

End Regex.

(** ** An in-memory database for the schema manager

    A collection holds the names of its indexes, its validator and
    validation level, and [building]: for how many more index operations
    an index build started elsewhere goes on running on it.  While it
    runs, creating or dropping an index fails. *)

Module MemMongo.
Import GoString GoError Schema.

Record Coll : Type := {
  indexNames : list string;
  building : nat;
  collValidator : option (gmap string (gmap string jsonValue));
  collLevel : string
}.

Definition buildInProgress : error :=
  New ("(IndexBuildInProgress) " ++ errBuildInProgress
         ++ ". Collection is limited to a single index build at a time.").

Definition withIndexes (c : Coll) (names : list string) : Coll :=
  {| indexNames := names; building := building c;
     collValidator := collValidator c; collLevel := collLevel c |}.

Definition tick (c : Coll) : Coll :=
  {| indexNames := indexNames c; building := pred (building c);
     collValidator := collValidator c; collLevel := collLevel c |}.

Definition memRunCommand (d : gmap string Coll) (cmd : Command)
  : gmap string Coll * option error :=
  match d !! collMod cmd with
  | None => (d, Some (New "(NamespaceNotFound) ns does not exist"))
  | Some c =>
      (<[collMod cmd := {| indexNames := indexNames c;
                           building := building c;
                           collValidator := validator cmd;
                           collLevel := validationLevel cmd |}]> d, None)
  end.

Definition memCreateOne (d : gmap string Coll) (coll : string)
    (model : IndexModel) : gmap string Coll * option error :=
  match d !! coll with
  | None =>
      (<[coll := {| indexNames := ["_id_"; OptName model];
                    building := 0;
                    collValidator := None;
                    collLevel := "off" |}]> d, None)
  | Some c =>
      if (0 <? building c)%nat then (<[coll := tick c]> d, Some buildInProgress)
      else if bool_decide (OptName model ∈ indexNames c) then (d, None)
      else (<[coll := withIndexes c (indexNames c ++ [OptName model])]> d, None)
  end.

(** The description of an index: this database keeps its name only. *)
Definition describeIndex (name : string) : IndexDoc :=
  Decoded (Some name) ("map[name:" ++ name ++ "]").

Definition memListIndexes (d : gmap string Coll) (coll : string)
  : gmap string Coll * ListResult :=
  match d !! coll with
  | None => (d, Cursor [] None)
  | Some c => (d, Cursor (map describeIndex (indexNames c)) None)
  end.

Definition memDropOne (d : gmap string Coll) (coll name : string)
  : gmap string Coll * option error :=
  match d !! coll with
  | None => (d, Some (New "(NamespaceNotFound) ns not found"))
  | Some c =>
      if (0 <? building c)%nat then (<[coll := tick c]> d, Some buildInProgress)
      else if bool_decide (name ∈ indexNames c) then
        (<[coll := withIndexes c
                     (filter (fun n => n ≠ name) (indexNames c))]> d, None)
      else (d, Some (New ("index not found with name [" ++ name ++ "]")))
  end.

#[global] Instance MemDriver : Driver (gmap string Coll) := {
  RunCommand := memRunCommand;
  CreateOne := memCreateOne;
  ListIndexes := memListIndexes;
  DropOne := memDropOne
}.

Definition start (d : gmap string Coll) : World (gmap string Coll) :=
  mkWorld d [].

End MemMongo.

(** ** The server (package [server]) *)

Module Server.
Import GoString GoError Schema.

Section WithDriver.
Context {DB : Type} `{Driver DB}.

(** The loop of [runSchemaDDL], with [remaining] tries left after [try]
    tries were made and [err] the error of the last one.  Go walks the map
    of the entities in an order of its own at every try: [orders try] is the
    order of try number [try].  The sleep between two tries does not touch
    the database. *)
Fixpoint retryLoop (remaining try : nat)
    (orders : nat -> list (string * EntitySchema)) (config : Config)
    (err : option error) : M DB (option error) :=
  match remaining with
  | O =>
      ret (WrapNilable err
             ("failed to run DDL after " ++ Itoa (Z.of_nat try) ++ " tries"))
  | S remaining' =>
      e <- CreateOrUpdateMongoSchema (orders try) config ;;
      match e with
      | None => ret None
      | Some e' => retryLoop remaining' (S try) orders config (Some e')
      end
  end.

Definition runSchemaDDL (orders : nat -> list (string * EntitySchema))
    (config : Config) : M DB (option error) :=
  retryLoop 5 0 orders config None.

End WithDriver.

End Server.

(** ** The entity client (package [etre], entity_client.go) *)

Module Client.
Import GoString GoError.

(** Modelled from the spec: the root of the API and the names of the
    meta-labels of the id and of the type, which the client uses by name
    (they are declared in etre.go, which is not among the sources); the
    values are those of the HTTP surface and of the meta-labels of the
    specification. *)
Definition API_ROOT : string := "/api/v1".
Definition META_LABEL_ID : string := "_id".
Definition META_LABEL_TYPE : string := "_type".

(** The errors the client returns: the error values of package etre that
    it names, which Go tells apart by identity; the errors it makes with
    [fmt.Errorf]; and the errors of net/http and encoding/json that it
    hands on as they are. *)
Inductive ClientError : Type :=
| ErrNoQuery
| ErrNoEntity
| ErrIdSet
| ErrIdNotSet
| ErrTypeMismatch
| ErrNoLabel
| Errorf (msg : string)
| Foreign (err : error).

(** The [Type] and [Message] of the error object of the API. *)
Record ErrorResp : Type := { ErrMessage : string; ErrType : string }.

Record Request : Type := {
  Method : string;
  URL : string;
  Payload : option string;
  ContentType : string
}.

(** The answer to a request: the status code, and the body or the error
    of reading it. *)
Record Response : Type := {
  StatusCode : Z;
  Body : error + string
}.

(** The HTTP client: [NewRequestError method url] is the error of
    [http.NewRequest], if any, and [Do] sends a request. *)
Class Transport (T : Type) : Type := {
  NewRequestError : string -> string -> option error;
  Do : T -> Request -> T * (error + Response)
}.

(** encoding/json on the types of the client.  [UnmarshalError] is what
    [json.Unmarshal] leaves in an error object that was zero, whether it
    fails or not. *)
Class Codec (WriteResult : Type) : Type := {
  zeroWriteResult : WriteResult;
  MarshalEntities : list Entity.EntityT -> error + string;
  UnmarshalEntities : string -> error + list Entity.EntityT;
  UnmarshalWriteResults : string -> error + list WriteResult;
  UnmarshalLabels : string -> error + list string;
  UnmarshalError : string -> ErrorResp
}.

(** The network as the client sees it: the HTTP client and the requests
    sent so far, oldest first. *)
Record Net (T : Type) : Type := mkNet {
  net : T;
  sent : list Request
}.
Arguments mkNet {T} _ _.
Arguments net {T} _.
Arguments sent {T} _.

Definition N (T A : Type) : Type := Net T -> A * Net T.

Definition retN {T A : Type} (a : A) : N T A := fun n => (a, n).

Definition bindN {T A C : Type} (m : N T A) (k : A -> N T C) : N T C :=
  fun n => let (a, n') := m n in k a n'.

(** What a function that may panic does: it returns, or it panics. *)
Inductive Outcome (A : Type) : Type :=
| Returned (a : A) (err : option ClientError)
| Panicked.
Arguments Returned {A} _ _.
Arguments Panicked {A}.

(** *** [url.QueryEscape] *)

Definition upperhex (n : nat) : ascii :=
  nth n (list_ascii_of_string "0123456789ABCDEF") "0"%char.

(** The characters [url.QueryEscape] copies: letters, digits and the four
    marks. *)
Definition unreserved (c : ascii) : bool :=
  Regex.between "a" "z" c || Regex.between "A" "Z" c || Regex.between "0" "9" c
  || Ascii.eqb c "-" || Ascii.eqb c "_" || Ascii.eqb c "." || Ascii.eqb c "~".

Definition escapeByte (c : ascii) : list ascii :=
  if unreserved c then [c]
  else if Ascii.eqb c " " then ["+"%char]
  else ["%"%char; upperhex (Nat.div (nat_of_ascii c) 16);
        upperhex (Nat.modulo (nat_of_ascii c) 16)].

Definition QueryEscape (s : string) : string :=
  string_of_list_ascii (flat_map escapeByte (list_ascii_of_string s)).

(** *** The client *)

Record entityClient : Type := {
  entityType : string;
  addr : string
}.

Definition NewEntityClient (entityType addr : string) : entityClient :=
  {| entityType := entityType; addr := addr |}.

Definition EntityType (c : entityClient) : string := entityType c.

Definition url (c : entityClient) (endpoint : string) : string :=
  addr c ++ API_ROOT ++ endpoint.

(** The request [do] makes: every request says that it carries JSON. *)
Definition requestOf (c : entityClient) (method endpoint : string)
    (payload : option string) : Request :=
  {| Method := method; URL := url c endpoint; Payload := payload;
     ContentType := "application/json" |}.

Section WithTransport.
Context {T WriteResult : Type} `{Transport T} `{Codec WriteResult}.

Definition apiError (status : Z) (bytes : string) : ClientError :=
  let errResp :=
    if (0 <? String.length bytes)%nat then UnmarshalError bytes
    else {| ErrMessage := ""; ErrType := "" |} in
  if ErrType errResp =? "" then
    Errorf ("API error: code " ++ Itoa status
              ++ " (no error response object); check API logs for errors")
  else
    Errorf ("API error: " ++ ErrMessage errResp ++ " (type: " ++ ErrType errResp
              ++ " code: " ++ Itoa status ++ ")").

(** [do]: the status code and the body of the answer, or the error.  When
    the request cannot be made nothing is sent. *)
Definition do (c : entityClient) (method endpoint : string)
    (payload : option string) : N T (ClientError + Z * string) :=
  fun n =>
    match NewRequestError method (url c endpoint) with
    | Some err => (inl (Foreign err), n)
    | None =>
        let req := requestOf c method endpoint payload in
        let (t, r) := Do (net n) req in
        let n' := mkNet t (sent n ++ [req]) in
        match r with
        | inl err => (inl (Errorf ("http.Client.Do: " ++ Error err)), n')
        | inr resp =>
            match Body resp with
            | inl err => (inl (Errorf ("ioutil.ReadAll: " ++ Error err)), n')
            | inr body => (inr (StatusCode resp, body), n')
            end
        end
    end.

(** The payload of a write: the entities in JSON when there are some, and
    none otherwise. *)
Definition marshalled (entities : list Entity.EntityT) : error + option string :=
  if (0 <? length entities)%nat then
    match MarshalEntities entities with
    | inl err => inl err
    | inr bytes => inr (Some bytes)
    end
  else inr None.

Definition write (c : entityClient) (entities : list Entity.EntityT)
    (method endpoint : string) : N T (list WriteResult * option ClientError) :=
  match marshalled entities with
  | inl err => retN ([], Some (Foreign err))
  | inr bytes =>
      bindN (do c method endpoint bytes) (fun r =>
      match r with
      | inl err => retN ([], Some err)
      | inr (status, body) =>
          if negb (status =? 200)%Z && negb (status =? 201)%Z
          then retN ([], Some (apiError status body))
          else match UnmarshalWriteResults body with
               | inl err => retN ([], Some (Foreign err))
               | inr wr => retN (wr, None)
               end
      end)
  end.

Definition Query (c : entityClient) (query : string)
  : N T (list Entity.EntityT * option ClientError) :=
  if query =? "" then retN ([], Some ErrNoQuery)
  else
    bindN (if (String.length query <? 2000)%nat
           then do c "GET" ("/entities/" ++ entityType c ++ "?"
                              ++ QueryEscape query) None
           else do c "POST" ("/query/" ++ entityType c) (Some query))
      (fun r =>
       match r with
       | inl err => retN ([], Some err)
       | inr (status, body) =>
           if negb (status =? 200)%Z then retN ([], Some (apiError status body))
           else match UnmarshalEntities body with
                | inl err => retN ([], Some (Foreign err))
                | inr entities => retN (entities, None)
                end
       end).

(** The type label of an entity differs from the type of the client: it
    is not a string, or another string. *)
Definition typeMismatch (c : entityClient) (e : Entity.EntityT) : bool :=
  match e !! META_LABEL_TYPE with
  | Some v => negb (bool_decide (v = Entity.VString (entityType c)))
  | None => false
  end.

Fixpoint checkInsert (c : entityClient) (entities : list Entity.EntityT)
  : option ClientError :=
  match entities with
  | [] => None
  | e :: rest =>
      if is_Some_bool (e !! META_LABEL_ID) then Some ErrIdSet
      else if typeMismatch c e then Some ErrTypeMismatch
      else checkInsert c rest
  end.

Definition Insert (c : entityClient) (entities : list Entity.EntityT)
  : N T (list WriteResult * option ClientError) :=
  if (length entities =? 0)%nat then retN ([], Some ErrNoEntity)
  else
    match checkInsert c entities with
    | Some err => retN ([], Some err)
    | None => write c entities "POST" ("/entities/" ++ entityType c)
    end.

Fixpoint checkUpdate (c : entityClient) (patch : list Entity.EntityT)
  : option ClientError :=
  match patch with
  | [] => None
  | e :: rest =>
      if negb (is_Some_bool (e !! META_LABEL_ID)) then Some ErrIdNotSet
      else if typeMismatch c e then Some ErrTypeMismatch
      else checkUpdate c rest
  end.

Definition Update (c : entityClient) (query : string)
    (patch : list Entity.EntityT)
  : N T (list WriteResult * option ClientError) :=
  if query =? "" then retN ([], Some ErrNoQuery)
  else
    let query := QueryEscape query in
    if (length patch =? 0)%nat then retN ([], Some ErrNoEntity)
    else
      match checkUpdate c patch with
      | Some err => retN ([], Some err)
      | None =>
          write c patch "PUT" ("/entities/" ++ entityType c ++ "?" ++ query)
      end.

(** [wr[0]] after a write without error: the first result, and a panic
    when there is none. *)
Definition firstResult (r : list WriteResult * option ClientError)
  : Outcome WriteResult :=
  match snd r with
  | Some err => Returned zeroWriteResult (Some err)
  | None =>
      match fst r with
      | [] => Panicked
      | wr :: _ => Returned wr None
      end
  end.

Definition UpdateOne (c : entityClient) (id : string) (patch : Entity.EntityT)
  : N T (Outcome WriteResult) :=
  if id =? "" then retN (Returned zeroWriteResult (Some ErrIdNotSet))
  else bindN (Update c ("_id=" ++ id) [patch]) (fun r => retN (firstResult r)).

Definition Delete (c : entityClient) (query : string)
  : N T (list WriteResult * option ClientError) :=
  if query =? "" then retN ([], Some ErrNoQuery)
  else
    let query := QueryEscape query in
    write c [] "DELETE" ("/entities/" ++ entityType c ++ "?" ++ query).

Definition DeleteOne (c : entityClient) (id : string)
  : N T (Outcome WriteResult) :=
  if id =? "" then retN (Returned zeroWriteResult (Some ErrIdNotSet))
  else bindN (Delete c ("_id=" ++ id)) (fun r => retN (firstResult r)).

Definition Labels (c : entityClient) (id : string)
  : N T (list string * option ClientError) :=
  if id =? "" then retN ([], Some ErrIdNotSet)
  else
    bindN (do c "GET" ("/entity/" ++ entityType c ++ "/" ++ id ++ "/labels") None)
      (fun r =>
       match r with
       | inl err => retN ([], Some err)
       | inr (status, body) =>
           if negb (status =? 200)%Z then retN ([], Some (apiError status body))
           else match UnmarshalLabels body with
                | inl err => retN ([], Some (Foreign err))
                | inr labels => retN (labels, None)
                end
       end).

Definition DeleteLabel (c : entityClient) (id label : string)
  : N T (Outcome WriteResult) :=
  if id =? "" then retN (Returned zeroWriteResult (Some ErrIdNotSet))
  else if label =? "" then retN (Returned zeroWriteResult (Some ErrNoLabel))
  else
    bindN (write c [] "DELETE"
             ("/entity/" ++ entityType c ++ "/" ++ id ++ "/labels/" ++ label))
      (fun r => retN (firstResult r)).

End WithTransport.

(** *** A network for the tests: the answers are queued, and any request
    can be made. *)
Definition cannedDo (t : list (error + Response)) (req : Request)
  : list (error + Response) * (error + Response) :=
  match t with
  | [] => ([], inl (New "connection refused"))
  | r :: rest => (rest, r)
  end.

#[global] Instance CannedTransport : Transport (list (error + Response)) := {
  NewRequestError := fun _ _ => None;
  Do := cannedDo
}.

End Client.

(** ** The conditions of the specification

    The specification's own wording of what makes an index definition or a
    field invalid, and of the order in which the constraints of a field are
    chosen; the properties below compare the code with them. *)

Module Specified.
Import GoString GoError Schema.

(** An index definition is invalid when it has no key, more than 30 keys,
    a non-empty direction list whose length differs from the number of
    keys, a direction other than 1 and -1, or is both unique and sparse. *)
Definition invalidIndex (index : Index) : Prop :=
  Keys index = []
  \/ (30 < length (Keys index))%nat
  \/ (Direction index <> [] /\ length (Keys index) <> length (Direction index))
  \/ (exists d, In d (Direction index) /\ d <> 1 /\ d <> -1)
  \/ (Unique index = true /\ Sparse index = true).

(** The error values of the configuration checks of an index. *)
Definition indexErrors : list error :=
  [errNoKeysForIndex; errTooManyKeysForIndex; errKeysAndDirectionsDoNotMatch;
   errInvalidIndexDirection; errIndexSparseAndUnique].

Definition supportedTypes : list string :=
  ["string"; "int"; "bool"; "object"; "datetime"; "int-str"; "bool-str"].

(** A field is rejected when its name is empty, its type is not
    supported, or it has a non-nil enum without being of type string. *)
Definition rejectedField (f : Field) : Prop :=
  Name f = ""
  \/ ~ In (FieldType f) supportedTypes
  \/ (Enum f <> None /\ FieldType f <> "string").

(** The value constraint of a field, by priority: an explicit pattern,
    then a (non-empty) enum, then the constraint of the types datetime,
    int-str and bool-str, then the case rule, which applies when the BSON
    type is string and the effective case (that of the field if it has one,
    else the global one) is strict and lower. *)
Definition specConstraint (f : Field) (bsonType : string) (globalCase : Case)
  : option (string * fieldValue) :=
  let effective := match FieldCase f with Some c => c | None => globalCase end in
  if negb (Pattern f =? "") then Some ("pattern", FString (Pattern f))
  else match Enum f with
       | Some (v :: vs) => Some ("enum", FStrings (v :: vs))
       | _ =>
           if FieldType f =? "datetime" then Some ("pattern", FString regexRFC3339)
           else if FieldType f =? "int-str" then Some ("pattern", FString regexInt64)
           else if FieldType f =? "bool-str"
           then Some ("enum", FStrings ["true"; "false"])
           else if (bsonType =? "string") && Strict effective
                   && (CaseType effective =? "lower")
           then Some ("pattern", FString regexLowerCase)
           else None
       end.

(** The field schema with that constraint, or with none. *)
Definition specFieldSchema (f : Field) (bsonType : string) (globalCase : Case)
  : gmap string fieldValue :=
  match specConstraint f bsonType globalCase with
  | Some (key, value) => <[key := value]> {[ "bsonType" := FString bsonType ]}
  | None => {[ "bsonType" := FString bsonType ]}
  end.

(** The error values of the checks of a field. *)
Definition fieldErrors : list error :=
  [errFieldNameEmpty; errInvalidFieldType; errEnumNotString].

(** What the validator [v] built from [schema] holds for the fields: under
    [$jsonSchema], [properties] maps the name of every field (where a name
    is declared twice, of the last field of that name) to a field schema
    that has the BSON type of the field and the one constraint that
    [specConstraint] chooses, or none: besides [bsonType] it has at most
    one key, [pattern] or [enum]; and a field whose BSON type is not string
    and that has no explicit pattern gets no constraint, whatever the case
    rules say. *)
Definition constraintsByPriority (schema : SchemaT) (globalCase : Case)
    (v : gmap string (gmap string jsonValue)) : Prop :=
  exists jsonSchema properties,
    v !! "$jsonSchema" = Some jsonSchema
    /\ jsonSchema !! "properties" = Some (JProperties properties)
    /\ forall pre f post,
        Fields schema = (pre ++ f :: post)%list ->
        ~ In (Name f) (map Name post) ->
        exists bsonType fieldSchema,
          bsonTypeOf (FieldType f) = Some bsonType
          /\ properties !! Name f = Some fieldSchema
          /\ fieldSchema = specFieldSchema f bsonType globalCase
          /\ fieldSchema !! "bsonType" = Some (FString bsonType)
          /\ (forall key, is_Some (fieldSchema !! key) ->
                key = "bsonType" \/ key = "pattern" \/ key = "enum")
          /\ ~ (is_Some (fieldSchema !! "pattern")
                /\ is_Some (fieldSchema !! "enum"))
          /\ (bsonType <> "string" -> Pattern f = "" ->
              fieldSchema = {[ "bsonType" := FString bsonType ]}).

(** The collection a driver call is about. *)
Definition callColl (c : Call) : string :=
  match c with
  | CallRunCommand cmd => collMod cmd
  | CallCreateOne coll _ => coll
  | CallList coll => coll
  | CallDropOne coll _ => coll
  end.

(** [w'] extends the calls of [w] by calls that are all about [coll]. *)
Definition extendsOn {DB : Type} (coll : string) (w w' : World DB) : Prop :=
  exists new, calls w' = (calls w ++ new)%list
              /\ Forall (fun c => callColl c = coll) new.

(** The command that turns the validation of a collection off. *)
Definition validationOff (entity : string) : Command :=
  {| collMod := entity; validator := None; validationLevel := "off" |}.

(** [allCreated coll indexes acc w acc' w']: starting in [w] with the set
    [acc], [createIndex] succeeds on every index of [indexes] in turn,
    which leaves the names added to [acc] in [acc'] and the world [w']. *)
Inductive allCreated {DB : Type} `{Driver DB} (coll : string)
  : list Index -> gset string -> World DB -> gset string -> World DB -> Prop :=
| allCreated_nil acc w : allCreated coll [] acc w acc w
| allCreated_cons index rest acc w name w1 acc' w' :
    createIndex coll index w = (name, None, w1) ->
    allCreated coll rest ({[ name ]} ∪ acc) w1 acc' w' ->
    allCreated coll (index :: rest) acc w acc' w'.

(** The pattern [regexInt64], read: an optional minus before a zero or a
    digit from 1 to 9 with up to 18 digits after it; or one of the eight
    numbers 9223372036854775800 to 9223372036854775807; or
    -9223372036854775808. *)
Definition int64Pattern : Regex.re :=
  Regex.Alt
    (Regex.Seq (Regex.Opt (Regex.lit "-"))
       (Regex.Alt (Regex.lit "0")
          (Regex.Seq (Regex.Chars [Regex.CRange "1" "9"])
             (Regex.Repeat (Regex.Chars [Regex.CDigit]) 0 18))))
    (Regex.Alt
       (Regex.chainTo "922337203685477580" (Regex.Chars [Regex.CRange "0" "7"]))
       (Regex.chainTo "-922337203685477580" (Regex.lit "8"))).

(** A decimal string: its sign and its digits. *)
Definition splitSign (s : list ascii) : bool * list ascii :=
  match s with
  | "-"%char :: ds => (true, ds)
  | _ => (false, s)
  end.

Definition digitsValue (ds : list ascii) : Z :=
  fold_left (fun acc c => 10 * acc + Z.of_nat (Regex.digitValue c)) ds 0.

Definition decimalValue (s : list ascii) : Z :=
  let (negative, ds) := splitSign s in
  if negative then - digitsValue ds else digitsValue ds.

(** The strings of the form [-?\d{1,19}]. *)
Definition isDecimal (s : list ascii) : bool :=
  let (_, ds) := splitSign s in
  (1 <=? length ds)%nat && (length ds <=? 19)%nat && forallb Regex.isDigit ds.

Definition inInt64 (z : Z) : bool :=
  (-9223372036854775808 <=? z)%Z && (z <=? 9223372036854775807)%Z.

(** The language the specification gives the pattern of an int-str field:
    the strings of the form [-?\d{1,19}] whose value is a signed 64-bit
    integer. *)
Definition specInt64String (s : string) : bool :=
  isDecimal (list_ascii_of_string s)
  && inInt64 (decimalValue (list_ascii_of_string s)).

(** No zero before other digits. *)
Definition noLeadingZero (s : list ascii) : bool :=
  match snd (splitSign s) with
  | c :: _ :: _ => negb (Ascii.eqb c "0")
  | _ => true
  end.

(** One turn of the loop of [CreateOrUpdateMongoSchema], for one entry of
    the map of the entities. *)
Definition turn {DB : Type} `{Driver DB} (entity : string)
    (validations : EntitySchema) (global : Global) : M DB (option error) :=
  match SchemaOf validations with
  | None => disableMongoJSONValidation entity
  | Some schema =>
      err <- updateMongoIndexes entity (Indexes schema) ;;
      match err with
      | Some e =>
          ret (Some (Wrap e ("failed to ensure index creation for " ++ entity)))
      | None => updateMongoJSONValidation entity schema global
      end
  end.

(** The world after the first [k] tries of [runSchemaDDL], and the answer
    of try number [k]. *)
Fixpoint worldAfter {DB : Type} `{Driver DB}
    (orders : nat -> list (string * EntitySchema)) (config : Config)
    (k : nat) (w : World DB) : World DB :=
  match k with
  | O => w
  | S k' =>
      snd (CreateOrUpdateMongoSchema (orders k') config
             (worldAfter orders config k' w))
  end.

Definition answerOf {DB : Type} `{Driver DB}
    (orders : nat -> list (string * EntitySchema)) (config : Config)
    (k : nat) (w : World DB) : option error :=
  fst (CreateOrUpdateMongoSchema (orders k) config
         (worldAfter orders config k w)).

(** The validation levels a schema may declare. *)
Definition validationLevels : list string := [""; "moderate"; "strict"].

(** The non-empty strings without an upper case letter A to Z. *)
Definition noUpperCase (s : string) : bool :=
  let cs := list_ascii_of_string s in
  (0 <? length cs)%nat
  && forallb (fun c => negb (Regex.between "A" "Z" c)) cs.

(** The error values of package etre that the client names. *)
Definition isSentinel (err : Client.ClientError) : bool :=
  match err with
  | Client.Errorf _ | Client.Foreign _ => false
  | _ => true
  end.

(** An entity the client accepts in an insert: no id, and no type or the
    type of the client. *)
Definition insertable (c : Client.entityClient) (e : Entity.EntityT) : Prop :=
  e !! Client.META_LABEL_ID = None
  /\ (e !! Client.META_LABEL_TYPE = None
      \/ e !! Client.META_LABEL_TYPE
         = Some (Entity.VString (Client.entityType c))).

(** An entity the client accepts in a patch: an id, and no type or the
    type of the client. *)
Definition patchable (c : Client.entityClient) (e : Entity.EntityT) : Prop :=
  is_Some (e !! Client.META_LABEL_ID)
  /\ (e !! Client.META_LABEL_TYPE = None
      \/ e !! Client.META_LABEL_TYPE
         = Some (Entity.VString (Client.entityType c))).

(** The reading of an escaped query: a hexadecimal digit, and the text
    with the plus sign read as a space and a percent sign with two digits
    as the byte they write. *)
Definition hexValue (c : ascii) : option nat :=
  if Regex.between "0" "9" c then Some (nat_of_ascii c - 48)%nat
  else if Regex.between "A" "F" c then Some (nat_of_ascii c - 55)%nat
  else if Regex.between "a" "f" c then Some (nat_of_ascii c - 87)%nat
  else None.

Fixpoint unescapeList (s : list ascii) : option (list ascii) :=
  match s with
  | [] => Some []
  | "%"%char :: h :: l :: rest =>
      match hexValue h, hexValue l, unescapeList rest with
      | Some hi, Some lo, Some rest' =>
          Some (ascii_of_nat (16 * hi + lo) :: rest')
      | _, _, _ => None
      end
  | "%"%char :: _ => None
  | "+"%char :: rest => option_map (cons " "%char) (unescapeList rest)
  | c :: rest => option_map (cons c) (unescapeList rest)
  end.

Definition unescapeQuery (s : string) : option string :=
  option_map string_of_list_ascii (unescapeList (list_ascii_of_string s)).

End Specified.

(** ** Test data

    The indexes, schemas and databases of the test suites, used below to
    run the definitions. *)

Module Fixtures.
Import GoString GoError Schema.

Definition uniqueX : Index :=
  {| Keys := ["x"]; Unique := true; Direction := []; Sparse := false |}.

Definition compoundWithDirection : Index :=
  {| Keys := ["app"; "region"; "env"]; Unique := false;
     Direction := [1; -1; 1]; Sparse := false |}.

Definition invalidDirection : Index :=
  {| Keys := ["field1"; "field2"]; Unique := false;
     Direction := [1; 2]; Sparse := false |}.

Definition field (name type : string) : Field :=
  {| Name := name; FieldType := type; Required := false; Pattern := "";
     FieldCase := None; Enum := None; Dependents := []; Description := "" |}.

Definition lower : Case := {| Strict := true; CaseType := "lower" |}.
Definition upper : Case := {| Strict := true; CaseType := "upper" |}.

(** "custom patterns and enums". *)
Definition patternsAndEnums : SchemaT :=
  {| Fields :=
       [ {| Name := "replication_group_arn"; FieldType := "string";
            Required := false;
            Pattern := "^arn:aws:elasticache:[a-z]{2}(-[a-z]{1,3}){3}:[0-9]{12}:replicationgroup:[a-zA-Z0-9-]+$";
            FieldCase := None; Enum := None; Dependents := [];
            Description := "" |};
         {| Name := "region"; FieldType := "string"; Required := false;
            Pattern := ""; FieldCase := None;
            Enum := Some ["us-east-1"; "us-west-2"]; Dependents := [];
            Description := "" |} ];
     AdditionalProperties := false;
     Indexes := [];
     ValidationLevel := "" |}.

(** "non-string enum". *)
Definition nonStringEnum : SchemaT :=
  {| Fields :=
       [ {| Name := "status"; FieldType := "int"; Required := false;
            Pattern := ""; FieldCase := None;
            Enum := Some ["active"; "inactive"; "unknown"]; Dependents := [];
            Description := "" |} ];
     AdditionalProperties := true;
     Indexes := [];
     ValidationLevel := "" |}.

(** A collection [nodes] with an index that no schema declares, on which an
    index build started elsewhere runs for one more index operation. *)
Definition busyNodes : gmap string MemMongo.Coll :=
  {[ "nodes" := {| MemMongo.indexNames := ["_id_"; "SL_old"];
                   MemMongo.building := 1;
                   MemMongo.collValidator := None;
                   MemMongo.collLevel := "off" |} ]}.

(** The same collection at rest, and a second one. *)
Definition quietNodes : gmap string MemMongo.Coll :=
  {[ "nodes" := {| MemMongo.indexNames := ["_id_"; "SL_old"];
                   MemMongo.building := 0;
                   MemMongo.collValidator := None;
                   MemMongo.collLevel := "off" |};
     "hosts" := {| MemMongo.indexNames := ["_id_"];
                   MemMongo.building := 0;
                   MemMongo.collValidator := None;
                   MemMongo.collLevel := "off" |} ]}.

(** A schema for [nodes] with the unique index on [x] and no fields. *)
Definition nodesSchema : SchemaT :=
  {| Fields := []; AdditionalProperties := true; Indexes := [uniqueX];
     ValidationLevel := "" |}.

(** A configuration: [nodes] with that schema, [hosts] with a nil schema. *)
Definition twoEntities : Config :=
  {| Entities := {[ "nodes" := {| SchemaOf := Some nodesSchema |};
                    "hosts" := {| SchemaOf := None |} ]};
     GlobalCfg := {| SchemaValidationConfigCase := lower |} |}.

(** A schema with required fields and dependents. *)
Definition withDependents : SchemaT :=
  {| Fields :=
       [ {| Name := "app"; FieldType := "string"; Required := true;
            Pattern := ""; FieldCase := None; Enum := None;
            Dependents := ["env"; "region"]; Description := "" |};
         {| Name := "env"; FieldType := "string"; Required := false;
            Pattern := ""; FieldCase := None; Enum := None;
            Dependents := []; Description := "" |};
         {| Name := "region"; FieldType := "string"; Required := true;
            Pattern := ""; FieldCase := None; Enum := None;
            Dependents := []; Description := "" |} ];
     AdditionalProperties := true;
     Indexes := [uniqueX];
     ValidationLevel := "strict" |}.

(** A configuration whose only entity has a nil schema. *)
Definition onlyHosts : Config :=
  {| Entities := {[ "hosts" := {| SchemaOf := None |} ]};
     GlobalCfg := {| SchemaValidationConfigCase := lower |} |}.

(** A stand-in for encoding/json in the runs below: write results and
    labels are strings, a body is the list of its one string, and the
    body of two brackets is the empty list. *)
#[global] Instance stubCodec : Client.Codec string := {
  Client.zeroWriteResult := "";
  Client.MarshalEntities := fun entities => inr "[...]";
  Client.UnmarshalEntities := fun _ => inr [];
  Client.UnmarshalWriteResults :=
    fun body => if body =? "[]" then inr [] else inr [body];
  Client.UnmarshalLabels :=
    fun body => if body =? "[]" then inr [] else inr [body];
  Client.UnmarshalError :=
    fun body => {| Client.ErrMessage := body; Client.ErrType := "" |}
}.

Definition testClient : Client.entityClient :=
  Client.NewEntityClient "nodes" "http://etre.local".

Definition answer (status : Z) (body : string) : error + Client.Response :=
  inr {| Client.StatusCode := status; Client.Body := inr body |}.

End Fixtures.

(** * Properties *)

Import GoString GoError.

(** ** Index definitions: validation and naming *)

Section IndexProperties.
Import Schema.

Lemma length_zero_nil {A} (l : list A) : (length l =? 0)%nat = true <-> l = [].
Proof.
  destruct l; simpl; split; intro Hl; try reflexivity; discriminate.
Qed.

Lemma append_empty_r (s : string) : s ++ "" = s.
Proof.
  induction s as [|c s IH]; [reflexivity|].
  change (String c (s ++ "") = String c s). now rewrite IH.
Qed.

(** C7.  For an index with at least one key, [indexName] is the prefix
    of the kind (IL when unique, otherwise SPARSE when sparse, otherwise
    SL), an underscore and the keys joined by underscores, followed,
    exactly when the direction list is not empty, by an underscore and the
    decimal directions joined by underscores; and two indexes with the
    same keys, the same kind and the same directions have the same name. *)
Theorem indexName_format (index : Index) :
  Keys index <> [] ->
  indexName index =
    (if Unique index then "IL" else if Sparse index then "SPARSE" else "SL")
      ++ "_" ++ Join (Keys index) "_"
      ++ (match Direction index with
          | [] => ""
          | _ :: _ => "_" ++ Join (map Itoa (Direction index)) "_"
          end)
  /\ forall index' : Index,
      Keys index' = Keys index ->
      indexNamePrefix index' = indexNamePrefix index ->
      Direction index' = Direction index ->
      indexName index' = indexName index.
Proof.
  intros Hkeys. split.
  - unfold indexName, indexNamePrefix, intSliceToString.
    destruct (Keys index) as [|k ks] eqn:Ek; [congruence|].
    cbn [length Nat.eqb].
    destruct (Direction index) as [|d ds]; cbn [length Nat.eqb].
    + now rewrite append_empty_r.
    + reflexivity.
  - intros index' HK HP HD. unfold indexName. now rewrite HK, HP, HD.
Qed.

Lemma indexName_format_witness :
  indexName {| Keys := ["app"; "region"; "env"]; Unique := false;
               Direction := [1; -1; 1]; Sparse := false |}
  = "SL_app_region_env_1_-1_1".
Proof.
  pose proof (indexName_format
                {| Keys := ["app"; "region"; "env"]; Unique := false;
                   Direction := [1; -1; 1]; Sparse := false |}) as Hf.
  simpl in Hf. destruct Hf as [Hname _]; [discriminate|].
  rewrite Hname. reflexivity.
Defined.

End IndexProperties.

(** ** Index definitions: the checks of [createIndex] *)

Section CreateIndexProperties.
Import Schema Specified.
Context {DB : Type} `{Driver DB}.

Lemma bad_direction_exists (dirs : list Z) :
  existsb (fun d => negb (d =? 1)%Z && negb (d =? -1)%Z) dirs = true
  <-> exists d, In d dirs /\ d <> 1 /\ d <> -1.
Proof.
  rewrite existsb_exists. split; intros [d [Hin Hd]]; exists d; split; trivial.
  - apply andb_true_iff in Hd as [H1 H2].
    apply negb_true_iff in H1, H2. apply Z.eqb_neq in H1, H2. now split.
  - destruct Hd as [H1 H2]. apply Z.eqb_neq in H1, H2. now rewrite H1, H2.
Qed.

Lemma zipDirections_same_length (keys : list string) (dirs : list Z) :
  length keys = length dirs -> zipDirections keys dirs <> None.
Proof.
  revert dirs. induction keys as [|k keys IH]; intros [|d dirs] Hlen;
    simpl in *; try discriminate.
  specialize (IH dirs ltac:(lia)).
  destruct (zipDirections keys dirs); [discriminate | congruence].
Qed.

(** What [checkIndex] answers, check by check. *)
Lemma checkIndex_cases (index : Index) :
  (Keys index = [] /\ checkIndex index = Some errNoKeysForIndex)
  \/ ((30 < length (Keys index))%nat
      /\ checkIndex index = Some errTooManyKeysForIndex)
  \/ (Keys index <> [] /\ (length (Keys index) <= 30)%nat
      /\ Direction index <> []
      /\ length (Keys index) <> length (Direction index)
      /\ checkIndex index = Some errKeysAndDirectionsDoNotMatch)
  \/ (Keys index <> [] /\ (length (Keys index) <= 30)%nat
      /\ (Direction index = [] \/ length (Keys index) = length (Direction index))
      /\ Unique index = true /\ Sparse index = true
      /\ checkIndex index = Some errIndexSparseAndUnique)
  \/ (Keys index <> [] /\ (length (Keys index) <= 30)%nat
      /\ (Direction index = [] \/ length (Keys index) = length (Direction index))
      /\ ~ (Unique index = true /\ Sparse index = true)
      /\ (exists d, In d (Direction index) /\ d <> 1 /\ d <> -1)
      /\ checkIndex index = Some errInvalidIndexDirection)
  \/ (~ invalidIndex index /\ checkIndex index = None
      /\ toBSONIndex index <> None).
Proof.
  unfold checkIndex, toBSONIndex.
  destruct (length (Keys index) =? 0)%nat eqn:E0.
  { left. apply length_zero_nil in E0. now split. }
  assert (Hk : Keys index <> []).
  { intros Hnil. rewrite Hnil in E0. discriminate. }
  destruct (30 <? length (Keys index))%nat eqn:E30.
  { right; left. apply Nat.ltb_lt in E30. now split. }
  apply Nat.ltb_ge in E30.
  destruct (0 <? length (Direction index))%nat eqn:Ed;
    [apply Nat.ltb_lt in Ed | apply Nat.ltb_ge in Ed].
  - assert (Hd : Direction index <> []).
    { intros Hnil. rewrite Hnil in Ed. simpl in Ed. lia. }
    assert (Hd0 : (length (Direction index) =? 0)%nat = false).
    { apply Nat.eqb_neq. lia. }
    rewrite Hd0.
    destruct (length (Keys index) =? length (Direction index))%nat eqn:El;
      [apply Nat.eqb_eq in El | apply Nat.eqb_neq in El]; simpl.
    + destruct (Sparse index) eqn:Es, (Unique index) eqn:Eu; simpl;
        try (right; right; right; left; now auto 10).
      all: destruct (existsb _ (Direction index)) eqn:Ex;
        [ apply bad_direction_exists in Ex;
          right; right; right; right; left;
          repeat split; auto; intros [? ?]; congruence
        | right; right; right; right; right;
          repeat split; auto using zipDirections_same_length;
          unfold invalidIndex; rewrite Es, Eu;
          intros [? | [? | [[_ ?] | [Hb | [? ?]]]]]; try congruence; try lia;
          apply bad_direction_exists in Hb; congruence ].
    + right; right; left. now auto 10.
  - assert (Hd : Direction index = []).
    { destruct (Direction index); [reflexivity | simpl in Ed; lia]. }
    rewrite Hd. simpl.
    destruct (Sparse index) eqn:Es, (Unique index) eqn:Eu; simpl;
      try (right; right; right; left; now auto 10).
    all: right; right; right; right; right;
      repeat split; try discriminate;
      unfold invalidIndex; rewrite Es, Eu, Hd;
      intros [? | [? | [[? _] | [[d [[] _]] | [? ?]]]]]; try congruence; lia.
Qed.

Lemma app_singleton_neq {A} (l : list A) (x : A) : (l ++ [x])%list <> l.
Proof.
  intros Heq. apply (f_equal (@length A)) in Heq.
  rewrite length_app in Heq. simpl in Heq. lia.
Qed.

Lemma indexErrors_NoDup : NoDup indexErrors.
Proof.
  unfold indexErrors.
  repeat (apply NoDup_cons_2;
          [ intros Hin;
            repeat (apply elem_of_cons in Hin as [Hin|Hin]; [discriminate|]);
            now apply elem_of_nil in Hin | ]).
  apply NoDup_nil_2.
Qed.

(** C6, as amended.  [createIndex] returns one of the five configuration
    errors, without calling the driver, exactly when the index definition
    is invalid, and then the error of the first check that fails, the
    checks being: no key, more than 30 keys, directions that do not match
    the keys in number, unique and sparse, a direction other than 1 and -1.
    The five errors are distinct.  A valid definition is handed to the
    driver, once, under its name, and [createIndex] then fails exactly when
    the driver does. *)
Theorem createIndex_validation (coll : string) (index : Index) (w : World DB) :
  let rejected (e : error) :=
    createIndex coll index w
    = ("", Some (Wrap e ("index: " ++ IndexString index)), w) in
  (invalidIndex index <-> exists e, In e indexErrors /\ rejected e)
  /\ (Keys index = [] -> rejected errNoKeysForIndex)
  /\ ((30 < length (Keys index))%nat -> rejected errTooManyKeysForIndex)
  /\ (Keys index <> [] -> (length (Keys index) <= 30)%nat ->
      Direction index <> [] ->
      length (Keys index) <> length (Direction index) ->
      rejected errKeysAndDirectionsDoNotMatch)
  /\ (Keys index <> [] -> (length (Keys index) <= 30)%nat ->
      (Direction index = [] \/ length (Keys index) = length (Direction index)) ->
      Unique index = true -> Sparse index = true ->
      rejected errIndexSparseAndUnique)
  /\ (Keys index <> [] -> (length (Keys index) <= 30)%nat ->
      (Direction index = [] \/ length (Keys index) = length (Direction index)) ->
      ~ (Unique index = true /\ Sparse index = true) ->
      (exists d, In d (Direction index) /\ d <> 1 /\ d <> -1) ->
      rejected errInvalidIndexDirection)
  /\ (~ invalidIndex index ->
      exists model,
        OptName model = indexName index
        /\ toBSONIndex index = Some (ModelKeys model)
        /\ OptUnique model = Unique index /\ OptSparse model = Sparse index
        /\ createIndex coll index w
           = (let (err, w') := indexesCreateOne coll model w in
              match err with
              | Some e =>
                  ("", Some (Wrap e ("failed to create index "
                                       ++ IndexString index ++ " with name "
                                       ++ indexName index)), w')
              | None => (indexName index, None, w')
              end))
  /\ NoDup indexErrors.
Proof.
  cbv zeta.
  assert (Hrej : forall e, checkIndex index = Some e ->
            createIndex coll index w
            = ("", Some (Wrap e ("index: " ++ IndexString index)), w)).
  { intros e He. unfold createIndex. now rewrite He. }
  assert (Hvalid : checkIndex index = None -> toBSONIndex index <> None ->
            exists model,
              OptName model = indexName index
              /\ toBSONIndex index = Some (ModelKeys model)
              /\ OptUnique model = Unique index /\ OptSparse model = Sparse index
              /\ createIndex coll index w
                 = (let (err, w') := indexesCreateOne coll model w in
                    match err with
                    | Some e =>
                        ("", Some (Wrap e ("failed to create index "
                                             ++ IndexString index ++ " with name "
                                             ++ indexName index)), w')
                    | None => (indexName index, None, w')
                    end)).
  { intros Hc Hb. unfold createIndex. rewrite Hc.
    destruct (toBSONIndex index) as [keys|]; [|congruence].
    eexists {| ModelKeys := keys; OptUnique := Unique index;
               OptSparse := Sparse index; OptName := indexName index |}.
    repeat split. unfold bind, ret.
    destruct (indexesCreateOne coll _ w) as [[e|] w']; reflexivity. }
  assert (Hcalls : forall model r,
            indexesCreateOne coll model w = (r, w) -> False).
  { intros model r. unfold indexesCreateOne.
    destruct (CreateOne (db w) coll model) as [d err]. intros Heq.
    apply (f_equal (fun p => calls (snd p))) in Heq. simpl in Heq.
    now apply app_singleton_neq in Heq. }
  pose proof (checkIndex_cases index) as Hcases.
  assert (Hinv : invalidIndex index <-> checkIndex index <> None).
  { unfold invalidIndex.
    destruct Hcases as [[? Hc] | [[? Hc] | [(? & ? & ? & ? & Hc)
      | [(? & ? & ? & ? & ? & Hc) | [(? & ? & ? & ? & ? & Hc) | (Hn & Hc & _)]]]]];
      rewrite Hc; split; try discriminate; try tauto; auto 10. }
  split; [| repeat split ].
  - split.
    + intros Hi. apply Hinv in Hi.
      destruct Hcases as [[? Hc] | [[? Hc] | [(? & ? & ? & ? & Hc)
        | [(? & ? & ? & ? & ? & Hc) | [(? & ? & ? & ? & ? & Hc) | (Hn & Hc & _)]]]]];
        try congruence;
        eexists; (split; [| apply Hrej; exact Hc]); unfold indexErrors; simpl;
        auto 10.
    + intros (e & _ & He). apply Hinv. intros Hc.
      destruct Hcases as [[? Hc'] | [[? Hc'] | [(? & ? & ? & ? & Hc')
        | [(? & ? & ? & ? & ? & Hc') | [(? & ? & ? & ? & ? & Hc') | (Hn & _ & Hb)]]]]];
        try congruence.
      destruct (Hvalid Hc Hb) as (model & _ & _ & _ & _ & Hrun).
      rewrite Hrun in He.
      destruct (indexesCreateOne coll model w) as [[e'|] w'] eqn:Erun.
      * inversion He; subst; try (eapply Hcalls; eauto).
      * inversion He.
  - intros Hk. apply Hrej.
    destruct Hcases as [[? Hc] | [[? Hc] | [(? & ? & ? & ? & Hc)
      | [(? & ? & ? & ? & ? & Hc) | [(? & ? & ? & ? & ? & Hc) | (Hn & Hc & _)]]]]];
      try congruence; try (rewrite Hk in *; simpl in *; lia).
    exfalso. apply Hn. now left.
  - intros Hk. apply Hrej.
    destruct Hcases as [[Hnil Hc] | [[? Hc] | [(? & ? & ? & ? & Hc)
      | [(? & ? & ? & ? & ? & Hc) | [(? & ? & ? & ? & ? & Hc) | (Hn & Hc & _)]]]]];
      try congruence; try lia.
    + rewrite Hnil in Hk. simpl in Hk. lia.
    + exfalso. apply Hn. right. now left.
  - intros Hk H30 Hd Hl. apply Hrej.
    destruct Hcases as [[Hnil Hc] | [[? Hc] | [(? & ? & ? & ? & Hc)
      | [(? & ? & [?|?] & ? & ? & Hc) | [(? & ? & [?|?] & ? & ? & Hc) | (Hn & Hc & _)]]]]];
      try congruence; try lia.
    exfalso. apply Hn. right; right; left. now split.
  - intros Hk H30 Hd Hu Hs. apply Hrej.
    destruct Hcases as [[Hnil Hc] | [[? Hc] | [(? & ? & ? & ? & Hc)
      | [(? & ? & ? & ? & ? & Hc) | [(? & ? & ? & Hus & ? & Hc) | (Hn & Hc & _)]]]]];
      try congruence; try lia.
    + destruct Hd as [Hd|Hd]; congruence.
    + exfalso. apply Hus. now split.
    + exfalso. apply Hn. right; right; right; right. now split.
  - intros Hk H30 Hd Hus Hb. apply Hrej.
    destruct Hcases as [[Hnil Hc] | [[? Hc] | [(? & ? & ? & ? & Hc)
      | [(? & ? & ? & ? & ? & Hc) | [(? & ? & ? & ? & ? & Hc) | (Hn & Hc & _)]]]]];
      try congruence; try lia.
    + destruct Hd as [Hd|Hd]; congruence.
    + exfalso. apply Hus. now split.
    + exfalso. apply Hn. right; right; right; left. exact Hb.
  - intros Hn.
    destruct Hcases as [[? Hc] | [[? Hc] | [(? & ? & ? & ? & Hc)
      | [(? & ? & ? & ? & ? & Hc) | [(? & ? & ? & ? & ? & Hc) | (_ & Hc & Hb)]]]]];
      try (exfalso; apply Hn; apply Hinv; congruence).
    exact (Hvalid Hc Hb).
  - apply indexErrors_NoDup.
Qed.

End CreateIndexProperties.

(** The negative tests of [createIndex], and the name of a valid index. *)
Example checkIndex_invalid_direction :
  Schema.checkIndex Fixtures.invalidDirection
  = Some Schema.errInvalidIndexDirection.
Proof. reflexivity. Qed.

(** C6, counterexample.  The unique index on [x] is a valid definition,
    yet [createIndex] returns an error for it, and creates nothing, when the
    driver reports an index build in progress: errors are not returned
    exactly for the invalid definitions. *)
Lemma createIndex_valid_definition_fails :
  Schema.checkIndex Fixtures.uniqueX = None
  /\ (Specified.invalidIndex Fixtures.uniqueX -> False)
  /\ fst (Schema.createIndex "nodes" Fixtures.uniqueX
            (MemMongo.start Fixtures.busyNodes))
     = ("", Some (Wrap MemMongo.buildInProgress
                    "failed to create index Index{Keys: [x], Unique: true, Direction: []} with name IL_x"))
  /\ MemMongo.indexNames
       <$> Schema.db (snd (Schema.createIndex "nodes" Fixtures.uniqueX
                             (MemMongo.start Fixtures.busyNodes))) !! "nodes"
     = Some ["_id_"; "SL_old"].
Proof.
  split; [reflexivity|]. split; [|split; vm_compute; reflexivity].
  unfold Specified.invalidIndex. simpl.
  intros [Hk | [Hl | [[Hd _] | [[d [[] _]] | [_ Hs]]]]];
    try discriminate; try congruence; lia.
Qed.

(** ** The JSON-schema validator *)

Section ValidatorProperties.
Import Schema Specified.

Lemma bsonTypeOf_None (t : string) :
  bsonTypeOf t = None <-> ~ In t supportedTypes.
Proof.
  unfold bsonTypeOf, supportedTypes. simpl In.
  repeat match goal with
         | |- context [String.eqb t ?s] =>
             destruct (String.eqb_spec t s);
             [ subst; simpl; split;
               [ discriminate | intros Hn; exfalso; apply Hn; auto 10 ] | ]
         end.
  simpl. split; [| reflexivity].
  intros _ [?|[?|[?|[?|[?|[?|[?|[]]]]]]]]; congruence.
Qed.

Lemma is_Some_bool_true {A} (o : option A) : is_Some_bool o = true <-> o <> None.
Proof. destruct o; simpl; split; congruence. Qed.

(** The three checks of the loop body, as one decision. *)
Lemma field_checks (f : Field) :
  (rejectedField f /\
   forall rest gc r d p, exists e,
     fieldsLoop (f :: rest) gc r d p = inl e /\ In (Cause e) fieldErrors)
  \/ (~ rejectedField f /\ Name f <> ""
      /\ (FieldType f = "string" \/ Enum f = None)
      /\ exists bsonType,
          bsonTypeOf (FieldType f) = Some bsonType
          /\ forall rest gc r d p,
              fieldsLoop (f :: rest) gc r d p
              = fieldsLoop rest gc
                  (if Required f then (r ++ [Name f])%list else r)
                  (if (0 <? length (Dependents f))%nat
                   then <[Name f := Dependents f]> d else d)
                  (<[Name f := applyConstraint f bsonType gc
                                 {[ "bsonType" := FString bsonType ]}]> p)).
Proof.
  unfold rejectedField, fieldErrors. simpl fieldsLoop.
  destruct (String.eqb_spec (Name f) "") as [En|En].
  { left. split; [now left|]. intros. eexists. split; [reflexivity|].
    simpl. auto. }
  destruct (bsonTypeOf (FieldType f)) as [bt|] eqn:Ebt.
  2:{ left. apply bsonTypeOf_None in Ebt. split; [now right; left|].
      intros. eexists. split; [reflexivity|]. simpl. auto. }
  assert (Hsup : In (FieldType f) supportedTypes).
  { destruct (in_dec string_dec (FieldType f) supportedTypes) as [Hi|Hn];
      [exact Hi|]. apply bsonTypeOf_None in Hn. congruence. }
  destruct (String.eqb_spec (FieldType f) "string") as [Es|Es]; simpl.
  - right. repeat split; auto.
    + intros [?|[?|[_ ?]]]; try congruence; contradiction.
    + exists bt. split; [reflexivity|]. reflexivity.
  - destruct (Enum f) as [en|] eqn:Een; simpl.
    + left. split; [right; right; split; congruence|].
      intros. eexists. split; [reflexivity|]. simpl. auto.
    + right. repeat split; auto.
      * intros [?|[?|[? _]]]; try congruence; contradiction.
      * exists bt. split; reflexivity.
Qed.

Lemma fieldsLoop_error_iff (fields : list Field) (gc : Case) :
  forall r d p,
    ((exists e, fieldsLoop fields gc r d p = inl e)
     <-> exists f, In f fields /\ rejectedField f)
    /\ (forall e, fieldsLoop fields gc r d p = inl e -> In (Cause e) fieldErrors).
Proof.
  induction fields as [|f rest IH]; intros r d p.
  - simpl. split; [split|]; [intros [e He] | intros (f & [] & _) | intros e He];
      discriminate.
  - destruct (field_checks f) as [[Hrej Hrun] | (Hok & _ & _ & bt & _ & Hrun)].
    + destruct (Hrun rest gc r d p) as (e & He & Hc). split; [split|].
      * intros _. exists f. split; [now left | exact Hrej].
      * intros _. now exists e.
      * intros e' He'. congruence.
    + rewrite Hrun. destruct (IH
        (if Required f then (r ++ [Name f])%list else r)
        (if (0 <? length (Dependents f))%nat
         then <[Name f := Dependents f]> d else d)
        (<[Name f := applyConstraint f bt gc
                       {[ "bsonType" := FString bt ]}]> p)) as [Hiff Hcause].
      split; [|exact Hcause]. rewrite Hiff. split.
      * intros (g & Hin & Hg). exists g. split; [now right | exact Hg].
      * intros (g & [Heq|Hin] & Hg); [subst g; contradiction|].
        exists g. now split.
Qed.

(** C10.  [BSONSchemaValidator] returns an error, and no validator,
    exactly when some field has an empty name, a type that is not one of
    string, int, bool, object, datetime, int-str and bool-str, or a non-nil
    enum while its type is not string; otherwise it returns a validator and
    no error.  The error is one of the three error values of these
    checks. *)
Theorem BSONSchemaValidator_error_iff (schema : SchemaT) (globalCase : Case) :
  ((exists err, BSONSchemaValidator schema globalCase = inl err)
   <-> exists f, In f (Fields schema) /\ rejectedField f)
  /\ ((exists v, BSONSchemaValidator schema globalCase = inr v)
      <-> ~ exists f, In f (Fields schema) /\ rejectedField f)
  /\ (forall err, BSONSchemaValidator schema globalCase = inl err ->
        In (Cause err) fieldErrors).
Proof.
  unfold BSONSchemaValidator.
  destruct (fieldsLoop_error_iff (Fields schema) globalCase [] ∅ ∅)
    as [Hiff Hcause].
  destruct (fieldsLoop (Fields schema) globalCase [] ∅ ∅)
    as [e | [[r d] p]] eqn:Eloop.
  - assert (Hbad : exists f, In f (Fields schema) /\ rejectedField f).
    { apply Hiff. now exists e. }
    split; [|split].
    + split; [intros _; exact Hbad | intros _; now exists e].
    + split; [intros [v Hv]; discriminate | intros Hn; contradiction].
    + intros err Herr. inversion Herr; subst. now apply Hcause.
  - assert (Hgood : ~ exists f, In f (Fields schema) /\ rejectedField f).
    { intros Hbad. apply Hiff in Hbad as [e He]. discriminate. }
    split; [|split].
    + split; [intros [err Herr]; discriminate | intros Hbad; contradiction].
    + split; [intros _; exact Hgood | intros _; eexists; reflexivity].
    + intros err Herr. discriminate.
Qed.

Lemma applyConstraint_spec (f : Field) (bt : string) (gc : Case) :
  applyConstraint f bt gc {[ "bsonType" := FString bt ]}
  = specFieldSchema f bt gc.
Proof.
  unfold applyConstraint, specFieldSchema, specConstraint, effectiveCaseOf.
  destruct (Pattern f =? ""); simpl; [|reflexivity].
  destruct (Enum f) as [[|v vs]|]; try reflexivity.
  all: destruct (FieldType f =? "datetime"); [reflexivity|];
    destruct (FieldType f =? "int-str"); [reflexivity|];
    destruct (FieldType f =? "bool-str"); [reflexivity|];
    destruct (FieldCase f) as [c|];
    [ destruct (Strict c), (bt =? "string"), (CaseType c =? "lower")
    | destruct (Strict gc), (bt =? "string"), (CaseType gc =? "lower") ];
    reflexivity.
Qed.

Lemma specConstraint_key (f : Field) (bt : string) (gc : Case) key value :
  specConstraint f bt gc = Some (key, value) -> key = "pattern" \/ key = "enum".
Proof.
  unfold specConstraint.
  repeat match goal with
         | |- context [if ?b then _ else _] => destruct b
         | |- context [match ?o with Some _ => _ | None => _ end] => destruct o
         | |- context [match ?l with [] => _ | _ :: _ => _ end] => destruct l
         end;
    intros Heq; inversion Heq; auto.
Qed.

Lemma specFieldSchema_shape (f : Field) (bt : string) (gc : Case) :
  specFieldSchema f bt gc !! "bsonType" = Some (FString bt)
  /\ (forall key, is_Some (specFieldSchema f bt gc !! key) ->
        key = "bsonType" \/ key = "pattern" \/ key = "enum")
  /\ ~ (is_Some (specFieldSchema f bt gc !! "pattern")
        /\ is_Some (specFieldSchema f bt gc !! "enum")).
Proof.
  unfold specFieldSchema.
  destruct (specConstraint f bt gc) as [[k v]|] eqn:Ec.
  - apply specConstraint_key in Ec. split; [|split].
    + rewrite lookup_insert_ne by (destruct Ec; subst; discriminate).
      apply lookup_singleton_eq.
    + intros key [x Hx]. destruct (decide (k = key)) as [->|Hne]; [tauto|].
      rewrite lookup_insert_ne in Hx by exact Hne.
      apply lookup_singleton_Some in Hx as [<- _]. now left.
    + intros [[x Hp] [y He]]. destruct Ec; subst k.
      * rewrite lookup_insert_ne in He by discriminate.
        apply lookup_singleton_Some in He as [? _]. discriminate.
      * rewrite lookup_insert_ne in Hp by discriminate.
        apply lookup_singleton_Some in Hp as [? _]. discriminate.
  - split; [apply lookup_singleton_eq | split].
    + intros key [x Hx]. apply lookup_singleton_Some in Hx as [<- _]. now left.
    + intros [[x Hp] _]. apply lookup_singleton_Some in Hp as [? _].
      discriminate.
Qed.

Lemma specFieldSchema_not_string (f : Field) (bt : string) (gc : Case) :
  bsonTypeOf (FieldType f) = Some bt ->
  FieldType f = "string" \/ Enum f = None ->
  bt <> "string" -> Pattern f = "" ->
  specFieldSchema f bt gc = {[ "bsonType" := FString bt ]}.
Proof.
  intros Hbt Henum Hns Hp. unfold specFieldSchema, specConstraint.
  rewrite Hp. simpl.
  assert (He : Enum f = None).
  { destruct Henum as [Hs|He]; [|exact He].
    rewrite Hs in Hbt. inversion Hbt. congruence. }
  rewrite He. revert Hbt. unfold bsonTypeOf.
  destruct (String.eqb_spec (FieldType f) "string") as [->|_];
    [simpl; intros Hbt; inversion Hbt; congruence|].
  destruct (String.eqb_spec (FieldType f) "datetime") as [->|_];
    [simpl; intros Hbt; inversion Hbt; congruence|].
  destruct (String.eqb_spec (FieldType f) "int-str") as [->|_];
    [simpl; intros Hbt; inversion Hbt; congruence|].
  destruct (String.eqb_spec (FieldType f) "bool-str") as [->|_];
    [simpl; intros Hbt; inversion Hbt; congruence|].
  intros _. destruct (String.eqb_spec bt "string"); [contradiction|].
  reflexivity.
Qed.

Lemma fieldsLoop_frame (fields : list Field) (gc : Case) (n : string) :
  forall r d p r' d' p',
    fieldsLoop fields gc r d p = inr (r', d', p') ->
    ~ In n (map Name fields) ->
    p' !! n = p !! n.
Proof.
  induction fields as [|f rest IH]; intros r d p r' d' p' Hrun Hn.
  - simpl in Hrun. now inversion Hrun.
  - destruct (field_checks f) as [[_ Hbad] | (_ & _ & _ & bt & _ & Hstep)].
    + destruct (Hbad rest gc r d p) as (e & He & _). congruence.
    + rewrite Hstep in Hrun. apply IH in Hrun.
      * rewrite Hrun. apply lookup_insert_ne. intros Heq. apply Hn. now left.
      * intros Hin. apply Hn. now right.
Qed.

Lemma fieldsLoop_properties (fields : list Field) (gc : Case) :
  forall r d p r' d' p' pre f post,
    fieldsLoop fields gc r d p = inr (r', d', p') ->
    fields = (pre ++ f :: post)%list ->
    ~ In (Name f) (map Name post) ->
    exists bt,
      bsonTypeOf (FieldType f) = Some bt
      /\ (FieldType f = "string" \/ Enum f = None)
      /\ p' !! Name f = Some (specFieldSchema f bt gc).
Proof.
  induction fields as [|g rest IH]; intros r d p r' d' p' pre f post Hrun Hf Hlast.
  - destruct pre; discriminate.
  - destruct (field_checks g) as [[_ Hbad] | (_ & _ & Henum & bt & Hbt & Hstep)].
    + destruct (Hbad rest gc r d p) as (e & He & _). congruence.
    + rewrite Hstep in Hrun. destruct pre as [|g' pre]; simpl in Hf.
      * inversion Hf; subst g rest. exists bt. repeat split; auto.
        rewrite (fieldsLoop_frame _ _ _ _ _ _ _ _ _ Hrun Hlast).
        rewrite lookup_insert_eq. now rewrite applyConstraint_spec.
      * inversion Hf; subst g' rest. eapply IH; eauto.
Qed.

(** C5.  In the validator that [BSONSchemaValidator] returns, every field
    has its BSON type and at most one value constraint, chosen by priority:
    an explicit pattern, else a non-empty enum, else the constraint of the
    type (datetime, int-str, bool-str), else the case rule, which applies
    only when the BSON type is string and the effective case (the field's
    own if it has one, else the global one) is strict and lower; a field
    whose BSON type is not string gets no constraint from a case rule, and
    no error. *)
Theorem BSONSchemaValidator_constraint_priority
    (schema : SchemaT) (globalCase : Case)
    (v : gmap string (gmap string jsonValue)) :
  BSONSchemaValidator schema globalCase = inr v ->
  constraintsByPriority schema globalCase v.
Proof.
  unfold BSONSchemaValidator, constraintsByPriority.
  destruct (fieldsLoop (Fields schema) globalCase [] ∅ ∅)
    as [e | [[r d] p]] eqn:Eloop; [discriminate|].
  intros Hv. inversion Hv; subst v; clear Hv.
  eexists _, p. split; [apply lookup_singleton_eq|]. split.
  - destruct (0 <? size d)%nat; now simplify_map_eq.
  - intros pre f post Hf Hlast.
    destruct (fieldsLoop_properties _ _ _ _ _ _ _ _ _ _ _ Eloop Hf Hlast)
      as (bt & Hbt & Henum & Hp).
    destruct (specFieldSchema_shape f bt globalCase) as (Htype & Hkeys & Hone).
    exists bt, (specFieldSchema f bt globalCase).
    split; [exact Hbt|]. split; [exact Hp|]. split; [reflexivity|].
    split; [exact Htype|]. split; [exact Hkeys|]. split; [exact Hone|].
    intros Hns Hpat. now apply specFieldSchema_not_string.
Qed.

End ValidatorProperties.

Lemma BSONSchemaValidator_constraint_priority_witness :
  exists v,
    Schema.BSONSchemaValidator Fixtures.patternsAndEnums Fixtures.lower = inr v
    /\ Specified.constraintsByPriority Fixtures.patternsAndEnums
         Fixtures.lower v.
Proof.
  eexists. split; [vm_compute; reflexivity|].
  apply BSONSchemaValidator_constraint_priority. vm_compute. reflexivity.
Defined.

(** The negative test "non-string enum". *)
Example BSONSchemaValidator_non_string_enum :
  exists msg,
    Schema.BSONSchemaValidator Fixtures.nonStringEnum Fixtures.lower
    = inl (Wrap Schema.errEnumNotString msg).
Proof. eexists. vm_compute. reflexivity. Qed.

(** ** Reconciliation of the indexes *)

Section ReconcileProperties.
Import Schema Specified.
Context {DB : Type} `{Driver DB}.

Lemma extendsOn_refl coll (w : World DB) : extendsOn coll w w.
Proof. exists []. split; [now rewrite app_nil_r | constructor]. Qed.

Lemma extendsOn_trans coll (w1 w2 w3 : World DB) :
  extendsOn coll w1 w2 -> extendsOn coll w2 w3 -> extendsOn coll w1 w3.
Proof.
  intros (l1 & H1 & F1) (l2 & H2 & F2). exists (l1 ++ l2)%list. split.
  - now rewrite H2, H1, app_assoc.
  - apply Forall_app. now split.
Qed.

Lemma runCommand_extends cmd w :
  extendsOn (collMod cmd) w (snd (runCommand cmd w)).
Proof.
  unfold runCommand. destruct (RunCommand (db w) cmd) as [d err]. simpl.
  exists [CallRunCommand cmd]. split; [reflexivity|]. now repeat constructor.
Qed.

Lemma createOne_extends coll model w :
  extendsOn coll w (snd (indexesCreateOne coll model w)).
Proof.
  unfold indexesCreateOne. destruct (CreateOne (db w) coll model) as [d err].
  simpl. exists [CallCreateOne coll model]. split; [reflexivity|].
  now repeat constructor.
Qed.

Lemma disable_extends entity w :
  extendsOn entity w (snd (disableMongoJSONValidation entity w)).
Proof.
  unfold disableMongoJSONValidation, bind, ret.
  pose proof (runCommand_extends
                {| collMod := entity; validator := None;
                   validationLevel := "off" |} w) as Hx.
  destruct (runCommand _ w) as [err w']. exact Hx.
Qed.

Lemma createIndex_extends coll index w :
  extendsOn coll w (snd (createIndex coll index w)).
Proof.
  unfold createIndex, bind, ret.
  destruct (checkIndex index); [apply extendsOn_refl|].
  destruct (toBSONIndex index) as [keys|]; [|apply extendsOn_refl].
  match goal with
  | |- context [indexesCreateOne coll ?m w] =>
      pose proof (createOne_extends coll m w) as Hx;
      destruct (indexesCreateOne coll m w) as [[e|] w']
  end; exact Hx.
Qed.

Lemma createLoop_extends coll indexes :
  forall created w, extendsOn coll w (snd (createLoop coll indexes created w)).
Proof.
  induction indexes as [|index rest IH]; intros created w.
  - apply extendsOn_refl.
  - simpl. unfold bind.
    pose proof (createIndex_extends coll index w) as Hx.
    destruct (createIndex coll index w) as [[name [e|]] w1]; simpl in Hx.
    + destruct (Contains _ _); exact Hx.
    + eapply extendsOn_trans; [exact Hx | apply IH].
Qed.

(** [existingIndexes] makes one call, the listing. *)
Lemma existingIndexes_calls coll w :
  calls (snd (existingIndexes coll w)) = (calls w ++ [CallList coll])%list.
Proof.
  unfold existingIndexes, bind, ret, indexesList.
  destruct (ListIndexes (db w) coll) as [d [e | docs [e|]]]; simpl;
    try reflexivity; destruct (decodeNames coll docs []); reflexivity.
Qed.

(** [dropLoop] makes drop calls only, for names that are listed, were not
    created in this run and do not begin with an underscore; and when it
    returns no error it has made the call for every such name. *)
Lemma dropLoop_calls coll existing created :
  forall w, exists dropped,
    calls (snd (dropLoop coll existing created w))
    = (calls w ++ map (CallDropOne coll) dropped)%list
    /\ Forall (fun name => In name existing /\ (name ∉ created)
                           /\ HasPrefix name "_" = false) dropped
    /\ (fst (dropLoop coll existing created w) = None ->
        forall name, In name existing -> name ∉ created ->
                     HasPrefix name "_" = false -> In name dropped).
Proof.
  induction existing as [|idx rest IH]; intros w.
  - exists []. simpl. split; [now rewrite app_nil_r|].
    split; [constructor | intros _ name []].
  - simpl.
    assert (Hwiden : forall dr,
              Forall (fun name => In name rest /\ (name ∉ created)
                                  /\ HasPrefix name "_" = false) dr ->
              Forall (fun name => In name (idx :: rest) /\ (name ∉ created)
                                  /\ HasPrefix name "_" = false) dr).
    { intros dr Hf. eapply Forall_impl; [exact Hf|].
      simpl. intros a (? & ? & ?). auto. }
    assert (Hskip : (idx ∈ created \/ HasPrefix idx "_" = true) ->
              exists dropped,
                calls (snd (dropLoop coll rest created w))
                = (calls w ++ map (CallDropOne coll) dropped)%list
                /\ Forall (fun name => In name (idx :: rest) /\ (name ∉ created)
                                       /\ HasPrefix name "_" = false) dropped
                /\ (fst (dropLoop coll rest created w) = None ->
                    forall name, In name (idx :: rest) -> name ∉ created ->
                                 HasPrefix name "_" = false -> In name dropped)).
    { intros Hwhy. destruct (IH w) as (dr & Hc & Hf & Hall). exists dr.
      split; [exact Hc|]. split; [now apply Hwiden|].
      intros Hnone name [<-|Hin] Hn Hp; [|now apply Hall].
      destruct Hwhy as [Hin|Hpre]; [contradiction | congruence]. }
    destruct (bool_decide (idx ∈ created)) eqn:Ein; simpl.
    { apply Hskip. left. now apply bool_decide_eq_true in Ein. }
    destruct (HasPrefix idx "_") eqn:Epre; simpl.
    { apply Hskip. now right. }
    apply bool_decide_eq_false in Ein.
    unfold bind, indexesDropOne.
    destruct (DropOne (db w) coll idx) as [d err].
    set (w1 := {| db := d; calls := calls w ++ [CallDropOne coll idx] |}).
    assert (Hgo : exists dropped,
              calls (snd (dropLoop coll rest created w1))
              = (calls w ++ map (CallDropOne coll) dropped)%list
              /\ Forall (fun name => In name (idx :: rest) /\ (name ∉ created)
                                     /\ HasPrefix name "_" = false) dropped
              /\ (fst (dropLoop coll rest created w1) = None ->
                  forall name, In name (idx :: rest) -> name ∉ created ->
                               HasPrefix name "_" = false -> In name dropped)).
    { destruct (IH w1) as (dr & Hc & Hf & Hall). exists (idx :: dr).
      split; [rewrite Hc; unfold w1; simpl; now rewrite <- app_assoc|].
      split; [constructor; [simpl; auto | now apply Hwiden]|].
      intros Hnone name [<-|Hin] Hn Hp; [now left | right; now apply Hall]. }
    destruct err as [e|]; [|exact Hgo].
    destruct (Contains (Error e) "index not found"); [exact Hgo|].
    exists [idx]. simpl. split; [reflexivity|].
    split; [repeat constructor; auto | discriminate].
Qed.

(** The names that [createIndex] hands back are the names of the
    indexes. *)
Lemma createIndex_name coll index (w : World DB) name w1 :
  createIndex coll index w = (name, None, w1) -> name = indexName index.
Proof.
  unfold createIndex, bind, ret.
  destruct (checkIndex index); [intros Heq; inversion Heq|].
  destruct (toBSONIndex index); [|intros Heq; inversion Heq].
  destruct (indexesCreateOne coll _ w) as [[e|] w']; intros Heq;
    now inversion Heq.
Qed.

Lemma allCreated_names coll pre :
  forall acc (w : World DB) acc' w',
    allCreated coll pre acc w acc' w' ->
    forall name, name ∈ acc' -> name ∈ acc \/ In name (map indexName pre).
Proof.
  induction pre as [|index pre IH]; intros acc w acc' w' Hall name Hin;
    inversion Hall; subst.
  - now left.
  - match goal with
    | Hc : createIndex _ _ _ = _, Hr : allCreated _ _ _ _ _ _ |- _ =>
        apply createIndex_name in Hc; subst;
        destruct (IH _ _ _ _ Hr name Hin) as [Hacc|Hpre]
    end.
    + apply elem_of_union in Hacc as [Hthis|Hacc]; [|now left].
      apply elem_of_singleton in Hthis. right. left. now symmetry.
    + right. now right.
Qed.

Lemma createLoop_allCreated coll pre :
  forall acc w acc' w' rest,
    allCreated coll pre acc w acc' w' ->
    createLoop coll (pre ++ rest) acc w = createLoop coll rest acc' w'.
Proof.
  induction pre as [|index pre IH]; intros acc w acc' w' rest Hall;
    inversion Hall; subst.
  - reflexivity.
  - simpl. unfold bind.
    match goal with Hc : createIndex _ _ _ = _ |- _ => rewrite Hc end.
    now apply IH.
Qed.

(** C3, as amended.  When the creation of a declared index fails with the
    error of an index build in progress, after the indexes declared before
    it were created, [updateMongoIndexes] aborts the creation for this run:
    the creation loop ends without an error and no further index is
    created.  The run still goes on to the drop phase: the only driver
    calls after the failed creation are one listing of the existing indexes
    and drops, of indexes that were not created in this run and whose names
    do not begin with an underscore; and a run that lists the indexes and
    returns no error has dropped every listed index that is not declared
    and whose name does not begin with an underscore. *)
Theorem updateMongoIndexes_build_in_progress
    (entity : string) (pre : list Index) (index : Index) (post : list Index)
    (w w1 w2 : World DB) (created : gset string) (name : string) (e : error) :
  allCreated entity pre ∅ w created w1 ->
  createIndex entity index w1 = (name, Some e, w2) ->
  Contains (Error (Cause e)) errBuildInProgress = true ->
  createLoop entity (pre ++ index :: post) ∅ w = (inr created, w2)
  /\ exists dropped,
      calls (snd (updateMongoIndexes entity (pre ++ index :: post) w))
      = (calls w2 ++ CallList entity :: map (CallDropOne entity) dropped)%list
      /\ Forall (fun n => (n ∉ created) /\ HasPrefix n "_" = false) dropped
      /\ (forall existing w3,
            existingIndexes entity w2 = (inr existing, w3) ->
            fst (updateMongoIndexes entity (pre ++ index :: post) w) = None ->
            forall n, In n existing ->
                      ~ In n (map indexName (pre ++ index :: post)) ->
                      HasPrefix n "_" = false ->
                      In n dropped).
Proof.
  intros Hall Hfail Hbusy.
  assert (Hloop : createLoop entity (pre ++ index :: post) ∅ w
                  = (inr created, w2)).
  { rewrite (createLoop_allCreated _ _ _ _ _ _ _ Hall).
    simpl. unfold bind at 1. rewrite Hfail, Hbusy. reflexivity. }
  split; [exact Hloop|].
  assert (Hrun : updateMongoIndexes entity (pre ++ index :: post) w
    = (r <- existingIndexes entity ;;
       match r with
       | inl err =>
           ret (Some (Wrap err ("failed to get existing indexes for " ++ entity)))
       | inr existing => dropLoop entity existing created
       end) w2).
  { unfold updateMongoIndexes.
    replace (length (pre ++ index :: post) =? 0)%nat with false
      by (rewrite length_app; simpl; symmetry; apply Nat.eqb_neq; lia).
    unfold bind at 1. rewrite Hloop. reflexivity. }
  rewrite Hrun. unfold bind.
  pose proof (existingIndexes_calls entity w2) as Hlist.
  destruct (existingIndexes entity w2) as [[err|existing] w3]; simpl in Hlist.
  - exists []. simpl. split; [exact Hlist|]. split; [constructor|].
    intros existing w3' Heq. discriminate.
  - destruct (dropLoop_calls entity existing created w3)
      as (dr & Hc & Hf & Hcomplete).
    exists dr. split; [rewrite Hc, Hlist; now rewrite <- app_assoc|].
    split.
    + eapply Forall_impl; [exact Hf|]. simpl. intros a (_ & ? & ?). auto.
    + intros existing' w3' Heq Hnone n Hin Hdecl Hpre.
      inversion Heq; subst existing' w3'.
      apply Hcomplete; auto.
      intros Hcr. apply Hdecl.
      destruct (allCreated_names _ _ _ _ _ _ Hall n Hcr) as [Hempty|Hp].
      * now apply elem_of_empty in Hempty.
      * rewrite map_app. apply in_or_app. now left.
Qed.

Lemma existingIndexes_extends coll w :
  extendsOn coll w (snd (existingIndexes coll w)).
Proof.
  exists [CallList coll]. split; [apply existingIndexes_calls|].
  now repeat constructor.
Qed.

Lemma dropLoop_extends coll existing created w :
  extendsOn coll w (snd (dropLoop coll existing created w)).
Proof.
  destruct (dropLoop_calls coll existing created w) as (dr & Hc & _ & _).
  exists (map (CallDropOne coll) dr). split; [exact Hc|].
  apply Forall_forall. intros c Hin. apply list_elem_of_In in Hin.
  apply in_map_iff in Hin as (n & <- & _). reflexivity.
Qed.

Lemma updateMongoIndexes_extends entity indexes w :
  extendsOn entity w (snd (updateMongoIndexes entity indexes w)).
Proof.
  unfold updateMongoIndexes.
  destruct (length indexes =? 0)%nat; [apply extendsOn_refl|].
  unfold bind at 1.
  pose proof (createLoop_extends entity indexes ∅ w) as H1.
  destruct (createLoop entity indexes ∅ w) as [[e|created] w1];
    simpl in H1; [exact H1|].
  unfold bind.
  pose proof (existingIndexes_extends entity w1) as H2.
  destruct (existingIndexes entity w1) as [[e|existing] w2]; simpl in H2.
  - eapply extendsOn_trans; eauto.
  - eapply extendsOn_trans; [exact H1|].
    eapply extendsOn_trans; [exact H2|]. apply dropLoop_extends.
Qed.

Lemma updateMongoJSONValidation_extends entity schema global w :
  extendsOn entity w (snd (updateMongoJSONValidation entity schema global w)).
Proof.
  unfold updateMongoJSONValidation.
  destruct (length (Fields schema) =? 0)%nat; [apply disable_extends|].
  destruct (BSONSchemaValidator schema _) as [e|v]; [apply extendsOn_refl|].
  assert (Hup : forall level,
    extendsOn entity w
      (snd ((err <- runCommand {| collMod := entity; validator := Some v;
                                  validationLevel := level |} ;;
             ret (WrapNilable err
                    ("failed to update validator for entity " ++ entity))) w))).
  { intros level. unfold bind, ret.
    pose proof (runCommand_extends
                  {| collMod := entity; validator := Some v;
                     validationLevel := level |} w) as Hx.
    destruct (runCommand _ w) as [err w']. exact Hx. }
  destruct (ValidationLevel schema =? ""); [apply Hup|].
  destruct ((ValidationLevel schema =? "moderate")
            || (ValidationLevel schema =? "strict")); [apply Hup|].
  apply extendsOn_refl.
Qed.

(** One turn of the loop of [CreateOrUpdateMongoSchema]: its calls are
    about the entity of the turn; the loop then stops with an error or goes
    on with the other entries; for a nil schema the turn makes one call,
    the command that turns validation off. *)
Lemma walkEntities_step entity validations rest global w :
  exists w1,
    extendsOn entity w w1
    /\ ((exists err,
           walkEntities ((entity, validations) :: rest) global w = (Some err, w1))
        \/ walkEntities ((entity, validations) :: rest) global w
           = walkEntities rest global w1)
    /\ (SchemaOf validations = None ->
        calls w1 = (calls w ++ [CallRunCommand (validationOff entity)])%list).
Proof.
  cbn [walkEntities]. destruct (SchemaOf validations) as [schema|].
  - unfold bind, ret.
    pose proof (updateMongoIndexes_extends entity (Indexes schema) w) as H1.
    destruct (updateMongoIndexes entity (Indexes schema) w) as [[e|] w1];
      simpl in H1.
    + exists w1. split; [exact H1|]. split; [left; eexists; reflexivity|].
      discriminate.
    + pose proof (updateMongoJSONValidation_extends entity schema global w1)
        as H2.
      destruct (updateMongoJSONValidation entity schema global w1)
        as [[e|] w2]; simpl in H2;
        exists w2; (split; [eapply extendsOn_trans; eauto|]);
        (split; [|discriminate]).
      * left. eexists. reflexivity.
      * right. reflexivity.
  - unfold disableMongoJSONValidation, bind, ret, runCommand.
    fold (validationOff entity).
    destruct (RunCommand (db w) (validationOff entity)) as [d [e|]]; simpl;
      exists {| db := d;
                calls := calls w ++ [CallRunCommand (validationOff entity)] |};
      (split; [|split; [|intros _; reflexivity]]);
      try (eexists; split; [reflexivity | now repeat constructor]).
    + left. eexists. reflexivity.
    + now right.
Qed.

Lemma filter_other_collection (entity coll : string) (new : list Call) :
  coll <> entity ->
  Forall (fun c => callColl c = coll) new ->
  filter (fun c => callColl c = entity) new = [].
Proof.
  intros Hne Hall. induction Hall as [|c new Hc _ IH]; [reflexivity|].
  rewrite filter_cons_False by congruence. exact IH.
Qed.

Lemma filter_absent_collection (entity : string) (names : list string)
    (new : list Call) :
  entity ∉ names ->
  Forall (fun c => callColl c ∈ names) new ->
  filter (fun c => callColl c = entity) new = [].
Proof.
  intros Hne Hall. induction Hall as [|c new Hc _ IH]; [reflexivity|].
  rewrite filter_cons_False by (intros Heq; now rewrite Heq in Hc). exact IH.
Qed.

Lemma walkEntities_calls (entries : list (string * EntitySchema))
    (global : Global) (entity : string) :
  NoDup (entries.*1) ->
  forall w, exists new,
    calls (snd (walkEntities entries global w)) = (calls w ++ new)%list
    /\ Forall (fun c => callColl c ∈ entries.*1) new
    /\ ((entity, {| SchemaOf := None |}) ∈ entries ->
        (filter (fun c => callColl c = entity) new = []
         \/ filter (fun c => callColl c = entity) new
            = [CallRunCommand (validationOff entity)])
        /\ (fst (walkEntities entries global w) = None ->
            filter (fun c => callColl c = entity) new
            = [CallRunCommand (validationOff entity)])).
Proof.
  induction entries as [|[e0 s0] rest IH]; intros Hnd w.
  - exists []. simpl. split; [now rewrite app_nil_r|]. split; [constructor|].
    intros Hin. now apply elem_of_nil in Hin.
  - rewrite fmap_cons in Hnd. simpl in Hnd.
    apply NoDup_cons in Hnd as [Hfresh Hnd].
    destruct (walkEntities_step e0 s0 rest global w)
      as (w1 & (l1 & Hc1 & Hf1) & Hnext & Hnil).
    assert (Hf1' : Forall (fun c => callColl c ∈ ((e0, s0) :: rest).*1) l1).
    { eapply Forall_impl; [exact Hf1|]. simpl. intros c ->. now left. }
    destruct Hnext as [[err Hstop] | Hgo].
    + rewrite Hstop. exists l1. split; [exact Hc1|]. split; [exact Hf1'|].
      intros Hin. split; [|discriminate].
      apply elem_of_cons in Hin as [Heq|Hin].
      * inversion Heq; subst e0 s0.
        rewrite (Hnil eq_refl) in Hc1. apply app_inv_head in Hc1. subst l1.
        right. now rewrite filter_cons_True by reflexivity.
      * left. apply (filter_other_collection entity e0); [|exact Hf1].
        intros ->. apply Hfresh.
        apply (list_elem_of_fmap_2 fst) in Hin. exact Hin.
    + rewrite Hgo. destruct (IH Hnd w1) as (l2 & Hc2 & Hf2 & Hmine).
      exists (l1 ++ l2)%list. split; [now rewrite Hc2, Hc1, app_assoc|].
      split.
      { apply Forall_app. split; [exact Hf1'|].
        eapply Forall_impl; [exact Hf2|]. simpl. intros c Hc. now right. }
      intros Hin. rewrite filter_app.
      apply elem_of_cons in Hin as [Heq|Hin].
      * inversion Heq; subst e0 s0.
        rewrite (Hnil eq_refl) in Hc1. apply app_inv_head in Hc1. subst l1.
        rewrite (filter_absent_collection entity (rest.*1) l2 Hfresh Hf2).
        rewrite filter_cons_True by reflexivity. simpl. auto.
      * rewrite (filter_other_collection entity e0 l1); [|
          intros ->; apply Hfresh;
          apply (list_elem_of_fmap_2 fst) in Hin; exact Hin | exact Hf1].
        simpl. now apply Hmine.
Qed.

(** C9.  For an entity type whose configured schema is nil, a run of
    [CreateOrUpdateMongoSchema], in whatever order it walks the entities,
    makes no driver call about the collection of that entity other than
    the one command that turns its validation off: no index is created,
    listed or dropped on it.  The run makes that one call, or none when it
    has stopped earlier on the error of another entity; a run that returns
    no error has made it.  The turn of that entity does not reject the
    configuration for its lack of indexes: it fails only with the error of
    that command. *)
Theorem nil_schema_only_disables_validation
    (order : list (string * EntitySchema)) (config : Config)
    (entity : string) (w : World DB) :
  order ≡ₚ map_to_list (Entities config) ->
  Entities config !! entity = Some {| SchemaOf := None |} ->
  (exists new,
     calls (snd (CreateOrUpdateMongoSchema order config w))
     = (calls w ++ new)%list
     /\ (filter (fun c => callColl c = entity) new = []
         \/ filter (fun c => callColl c = entity) new
            = [CallRunCommand (validationOff entity)])
     /\ (fst (CreateOrUpdateMongoSchema order config w) = None ->
         filter (fun c => callColl c = entity) new
         = [CallRunCommand (validationOff entity)]))
  /\ (forall rest global w0,
        walkEntities ((entity, {| SchemaOf := None |}) :: rest) global w0
        = (let (err, w1) := runCommand (validationOff entity) w0 in
           match err with
           | Some e =>
               (Some (Wrap e ("failed to remove JSON schema validation for entity "
                                ++ entity)), w1)
           | None => walkEntities rest global w1
           end)).
Proof.
  intros Hperm Hnil. split.
  - assert (Hnd : NoDup (order.*1)).
    { rewrite Hperm. apply NoDup_fst_map_to_list. }
    assert (Hin : (entity, {| SchemaOf := None |}) ∈ order).
    { rewrite Hperm. now apply elem_of_map_to_list. }
    unfold CreateOrUpdateMongoSchema.
    destruct (walkEntities_calls order (GlobalCfg config) entity Hnd w)
      as (new & Hc & _ & Hmine).
    exists new. split; [exact Hc|]. exact (Hmine Hin).
  - intros rest global w0. simpl.
    unfold bind at 1, disableMongoJSONValidation, bind, ret.
    fold (validationOff entity).
    destruct (runCommand (validationOff entity) w0) as [[e|] w1]; reflexivity.
Qed.

End ReconcileProperties.

(** C3, counterexample.  On the collection [nodes], where an index build
    is running, the creation of the declared index fails with the error of
    a build in progress; the run then lists the indexes and drops the
    existing index [SL_old]: after the failure an index of that collection
    was dropped. *)
Lemma updateMongoIndexes_drops_after_build_in_progress :
  (exists e,
     fst (Schema.createIndex "nodes" Fixtures.uniqueX
            (MemMongo.start Fixtures.busyNodes)) = ("", Some e)
     /\ Contains (Error (Cause e)) Schema.errBuildInProgress = true)
  /\ Schema.calls
       (snd (Schema.updateMongoIndexes "nodes" [Fixtures.uniqueX]
               (MemMongo.start Fixtures.busyNodes)))
     = [Schema.CallCreateOne "nodes"
          {| Schema.ModelKeys := [("x", 1)]; Schema.OptUnique := true;
             Schema.OptSparse := false; Schema.OptName := "IL_x" |};
        Schema.CallList "nodes";
        Schema.CallDropOne "nodes" "SL_old"]
  /\ MemMongo.indexNames
       <$> Schema.db
             (snd (Schema.updateMongoIndexes "nodes" [Fixtures.uniqueX]
                     (MemMongo.start Fixtures.busyNodes))) !! "nodes"
     = Some ["_id_"]
  /\ fst (Schema.updateMongoIndexes "nodes" [Fixtures.uniqueX]
            (MemMongo.start Fixtures.busyNodes)) = None.
Proof.
  split; [eexists; split; vm_compute; reflexivity|].
  repeat split; vm_compute; reflexivity.
Qed.

Lemma updateMongoIndexes_build_in_progress_witness :
  exists w2,
    Schema.createLoop "nodes" ([] ++ Fixtures.uniqueX :: []) ∅
      (MemMongo.start Fixtures.busyNodes) = (inr ∅, w2).
Proof.
  edestruct (updateMongoIndexes_build_in_progress "nodes" [] Fixtures.uniqueX []
               (MemMongo.start Fixtures.busyNodes)) as [Hloop _];
    [ apply Specified.allCreated_nil
    | vm_compute; reflexivity
    | vm_compute; reflexivity
    | ].
  eexists. exact Hloop.
Defined.

(** A configuration with a nil schema for [hosts] and a schema for
    [nodes]. *)
Lemma nil_schema_only_disables_validation_witness :
  exists new,
    Schema.calls
      (snd (Schema.CreateOrUpdateMongoSchema
              [("nodes", {| Schema.SchemaOf := Some Fixtures.nodesSchema |});
               ("hosts", {| Schema.SchemaOf := None |})]
              Fixtures.twoEntities (MemMongo.start Fixtures.quietNodes)))
    = new
    /\ filter (fun c => Specified.callColl c = "hosts") new
       = [Schema.CallRunCommand (Specified.validationOff "hosts")].
Proof.
  destruct (nil_schema_only_disables_validation
              [("nodes", {| Schema.SchemaOf := Some Fixtures.nodesSchema |});
               ("hosts", {| Schema.SchemaOf := None |})]
              Fixtures.twoEntities "hosts" (MemMongo.start Fixtures.quietNodes))
    as [(new & Hc & _ & Hmine) _].
  - let l := eval vm_compute in (map_to_list (Schema.Entities Fixtures.twoEntities)) in
    change (map_to_list (Schema.Entities Fixtures.twoEntities)) with l.
    first [ reflexivity | apply perm_swap ].
  - reflexivity.
  - exists new. split; [exact Hc|]. apply Hmine. vm_compute. reflexivity.
Defined.

(** ** The entity store *)

Section StoreProperties.
Import Entity.
Context {B : Type} `{Backend B}.

Lemma cdcWrite_cdc wo op id rev old new (s : Store B) :
  exists ev,
    cdc (cdcWrite wo op id rev old new s) = (cdc s ++ [ev])%list
    /\ Op ev = op /\ EntityId ev = id /\ EntityRev ev = rev
    /\ Old ev = old /\ New ev = new
    /\ EntityType ev = WoEntityType wo /\ Caller ev = WoCaller wo.
Proof. eexists. unfold cdcWrite. simpl. repeat split. Qed.

(** The insert loop, when it ends on a duplicate key: it stopped at an
    entity [e] of the batch that the database refused as a duplicate;
    the ids returned beyond those it started with are those of the events
    it wrote, one insert event for each entity before [e]; and the entities
    after [e] play no part in the outcome. *)
Lemma insertLoop_duplicate wo (entities : list EntityT) :
  forall ids0 (s : Store B) ids s',
    insertLoop wo entities ids0 s = (ids, Some errDuplicateEntity, s') ->
    exists pre e post new,
      entities = (pre ++ e :: post)%list
      /\ ids = (ids0 ++ map EntityId new)%list
      /\ length new = length pre
      /\ cdc s' = (cdc s ++ new)%list
      /\ Forall (fun ev => Op ev = "i" /\ Old ev = None /\ EntityRev ev = 0) new
      /\ insertLoop wo (pre ++ [e]) ids0 s = (ids, Some errDuplicateEntity, s')
      /\ nextObjectId s' = (nextObjectId s + length pre + 1)%nat.
Proof.
  induction entities as [|e rest IH]; intros ids0 s ids s' Hrun.
  - simpl in Hrun. inversion Hrun.
  - simpl in Hrun.
    destruct (InsertOne (backend s) (WoEntityType wo) _) as [b' r] eqn:Eins.
    destruct r.
    + apply IH in Hrun
        as (pre & e' & post & new & Hent & Hids & Hlen & Hcdc & Hall & Hcut & Hnext).
      destruct (cdcWrite_cdc wo "i" (objectIdHex (nextObjectId s)) 0 None
                  (Some (newEntity (WoEntityType wo)
                           (objectIdHex (nextObjectId s)) e))
                  (mkStore b' (cdc s) (S (nextObjectId s)) (nextEventId s) (now s)))
        as (ev & Hev & Hop & Hid & Hrev & Hold & _).
      exists (e :: pre), e', post, (ev :: new).
      rewrite Hev in Hcdc. simpl in Hcdc.
      repeat split.
      * simpl. now rewrite Hent.
      * rewrite Hids. simpl. rewrite Hid. now rewrite <- app_assoc.
      * simpl. now rewrite Hlen.
      * rewrite Hcdc. now rewrite <- app_assoc.
      * constructor; [now repeat split | exact Hall].
      * simpl. rewrite Eins. exact Hcut.
      * rewrite Hnext. simpl. lia.
    + inversion Hrun; subst. exists [], e, rest, [].
      simpl. rewrite Eins. rewrite !app_nil_r.
      repeat split; try constructor. lia.
    + inversion Hrun.
Qed.

(** While the database accepts the entities, the loop of Insert goes on:
    after the entities of [pre] it is where [allInserted] leaves it. *)
Lemma insertLoop_allInserted wo (pre rest : list EntityT) ids0 (s : Store B)
    ids1 s1 :
  allInserted wo pre ids0 s ids1 s1 ->
  insertLoop wo (pre ++ rest) ids0 s = insertLoop wo rest ids1 s1.
Proof.
  induction 1 as [|e pre ids s b' ids' s' Hins _ IH]; [reflexivity|].
  simpl. rewrite Hins. exact IH.
Qed.

(** Every accepted entity leaves one insert event, whose entity id is the
    id added to the list, and takes one object id; nothing else is
    written. *)
Lemma allInserted_events wo (pre : list EntityT) ids0 (s : Store B) ids1 s1 :
  allInserted wo pre ids0 s ids1 s1 ->
  exists new,
    cdc s1 = (cdc s ++ new)%list
    /\ ids1 = (ids0 ++ map EntityId new)%list
    /\ length new = length pre
    /\ Forall (fun ev => Op ev = "i" /\ Old ev = None /\ EntityRev ev = 0) new
    /\ nextObjectId s1 = (nextObjectId s + length pre)%nat.
Proof.
  induction 1 as [ids s|e pre ids s b' ids' s' Hins _ IH].
  - exists []. rewrite !app_nil_r. repeat split; auto.
  - destruct IH as (new & Hcdc & Hids & Hlen & Hall & Hnext).
    destruct (cdcWrite_cdc wo "i" (objectIdHex (nextObjectId s)) 0 None
                (Some (newEntity (WoEntityType wo)
                         (objectIdHex (nextObjectId s)) e))
                (mkStore b' (cdc s) (S (nextObjectId s)) (nextEventId s) (now s)))
      as (ev & Hev & Hop & Hid & Hrev & Hold & _).
    rewrite Hev in Hcdc. simpl in Hcdc, Hnext.
    exists (ev :: new). repeat split.
    + rewrite Hcdc. now rewrite <- app_assoc.
    + rewrite Hids. simpl. rewrite Hid. now rewrite <- app_assoc.
    + simpl. now rewrite Hlen.
    + constructor; [now repeat split | exact Hall].
    + rewrite Hnext. simpl. lia.
Qed.

Lemma countOp_all (op : string) (events : list CDCEvent) :
  Forall (fun ev => Op ev = op) events -> countOp op events = length events.
Proof.
  unfold countOp. induction 1 as [|ev l Hop _ IH]; [reflexivity|].
  rewrite filter_cons_True by exact Hop. simpl. now rewrite IH.
Qed.

(** Insert returns duplicate-entity only when the database refused an
    entity of the batch as a duplicate, after it accepted those before
    it. *)
Lemma Insert_duplicate_only_on_duplicate_key
    (wo : WriteOp) (entities : list EntityT) (s : Store B)
    (ids : list string) (s' : Store B) :
  Insert wo entities s = (ids, Some errDuplicateEntity, s') ->
  exists pre e post s1 b',
    entities = (pre ++ e :: post)%list
    /\ allInserted wo pre [] s ids s1
    /\ InsertOne (backend s1) (WoEntityType wo)
         (newEntity (WoEntityType wo) (objectIdHex (nextObjectId s1)) e)
       = (b', DupKey)
    /\ s' = mkStore b' (cdc s1) (S (nextObjectId s1)) (nextEventId s1) (now s1).
Proof.
  unfold Insert. intros Hrun.
  destruct (length entities =? 0)%nat; [inversion Hrun|].
  destruct (forallb (metaLabelsOk wo) entities); simpl in Hrun;
    [|inversion Hrun].
  revert Hrun. generalize (@nil string) as ids0. revert s.
  induction entities as [|e rest IH]; intros s ids0 Hrun.
  - inversion Hrun.
  - simpl in Hrun.
    destruct (InsertOne (backend s) (WoEntityType wo) _) as [b' r] eqn:Eins.
    destruct r.
    + apply IH in Hrun as (pre & e' & post & s1 & b1 & Hent & Hpre & Hdup & Hs').
      exists (e :: pre), e', post, s1, b1. repeat split; auto.
      * simpl. now rewrite Hent.
      * econstructor; eassumption.
    + inversion Hrun; subst. exists [], e, rest, s, b'.
      repeat split; auto. constructor.
    + inversion Hrun.
Qed.

(** C1.  Take a batch that Insert does not refuse at once, and an entity
    [e] of it: the database accepted the entities [pre] before [e], one
    after the other, which left the ids [ids] and the store [s1], and then
    refused [e] with a duplicate-key error.  Then Insert stops at [e]: it
    returns the error duplicate-entity with [ids]; the database is left as
    the refused insert left it and nothing is written after it, whatever
    the entities [post] after [e] are, none of which is presented to the
    database.  The ids are those of the events the call wrote, which are
    insert events, one for each entity of [pre]: the number of ids is the
    number of events with [Op = "i"] of the call and is less than the
    number of entities of the batch. *)
Theorem Insert_duplicate_partial_success
    (wo : WriteOp) (pre : list EntityT) (e : EntityT) (post : list EntityT)
    (s : Store B) (ids : list string) (s1 : Store B) (b' : B) :
  forallb (metaLabelsOk wo) (pre ++ e :: post) = true ->
  allInserted wo pre [] s ids s1 ->
  InsertOne (backend s1) (WoEntityType wo)
    (newEntity (WoEntityType wo) (objectIdHex (nextObjectId s1)) e)
  = (b', DupKey) ->
  exists new,
    Insert wo (pre ++ e :: post) s
    = (ids, Some errDuplicateEntity,
       mkStore b' (cdc s ++ new) (S (nextObjectId s1)) (nextEventId s1) (now s1))
    /\ cdc s1 = (cdc s ++ new)%list
    /\ ids = map EntityId new
    /\ Forall (fun ev => Op ev = "i" /\ Old ev = None /\ EntityRev ev = 0) new
    /\ length ids = length pre
    /\ length ids = countOp "i" new
    /\ (length ids < length (pre ++ e :: post))%nat.
Proof.
  intros Hmeta Hpre Hdup.
  destruct (allInserted_events _ _ _ _ _ _ Hpre)
    as (new & Hcdc & Hids & Hlen & Hall & _).
  simpl in Hids.
  exists new. split; [|split; [exact Hcdc|split; [exact Hids|split; [exact Hall|]]]].
  - unfold Insert. rewrite Hmeta. simpl.
    replace (length (pre ++ e :: post) =? 0)%nat with false
      by (symmetry; apply Nat.eqb_neq; rewrite length_app; simpl; lia).
    rewrite (insertLoop_allInserted _ _ _ _ _ _ _ Hpre).
    simpl. rewrite Hdup. now rewrite Hcdc.
  - rewrite Hids, length_map. repeat split.
    + exact Hlen.
    + symmetry. apply countOp_all.
      eapply Forall_impl; [exact Hall|]. now intros ev [Hop _].
    + rewrite Hlen, length_app. simpl. lia.
Qed.

(** What the projection keeps: the meta-labels and the label. *)
Lemma project_lookup (label : string) (d : EntityT) (key : string) :
  project label d !! key
  = if isMetaLabel key || (key =? label) then d !! key else None.
Proof.
  unfold project.
  destruct (isMetaLabel key || (key =? label)) eqn:Ekeep.
  - destruct (d !! key) as [x|] eqn:Ed.
    + apply map_lookup_filter_Some. split; [exact Ed|]. simpl.
      apply orb_true_iff in Ekeep as [Hm|Hl]; [now left|right].
      now apply String.eqb_eq.
    + apply map_lookup_filter_None. now left.
  - apply map_lookup_filter_None. right. intros x _ [Hm|Hl]; simpl in *.
    + rewrite Hm in Ekeep. discriminate.
    + subst. rewrite String.eqb_refl, orb_true_r in Ekeep. discriminate.
Qed.

(** DeleteLabel on an entity the database finds, whose prior document has a
    revision: the call succeeds, returns the projection of the prior
    document and writes one update event with it. *)
Lemma DeleteLabel_found (wo : WriteOp) (label : string) (s : Store B)
    (b' : B) (prior : EntityT) (rev : Z) :
  isMetaLabel label = false ->
  FindOneAndUnset (backend s) (WoEntityType wo) (WoEntityId wo) label
  = (b', Found prior) ->
  prior !! "_rev" = Some (VInt rev) ->
  DeleteLabel wo label s
  = (Some (project label prior), None,
     cdcWrite wo "u" (WoEntityId wo) (rev + 1) (Some (project label prior))
       (Some (<["_rev" := VInt (rev + 1)]> (delete label (project label prior))))
       (mkStore b' (cdc s) (nextObjectId s) (nextEventId s) (now s))).
Proof.
  intros Hmeta Hfind Hrev. unfold DeleteLabel. rewrite Hmeta, Hfind.
  unfold revOf. rewrite project_lookup. simpl. rewrite Hrev. reflexivity.
Qed.

End StoreProperties.

Section MemStoreProperties.
Import Entity.

(** The in-memory database updates the first document with the id and
    hands it back as it was. *)
Lemma unsetFirst_first (id label : string) (before after : list EntityT)
    (d : EntityT) :
  Forall (fun d' => hasId id d' = false) before ->
  hasId id d = true ->
  unsetFirst id label (before ++ d :: after)
  = Some (d, (before ++ unsetLabel label d :: after)%list).
Proof.
  intros Hbefore Hd. induction Hbefore as [|d' l Hd' _ IH]; simpl.
  - now rewrite Hd.
  - now rewrite Hd', IH.
Qed.

(** C2, as amended.  In a store over the in-memory database, take an
    entity [d] of the collection of the write operation, the first with the
    id of the write operation, that has a revision [rev] and carries the
    label with the value [v]; the label is no meta-label.  Then DeleteLabel
    succeeds and writes exactly one CDC event.  Its operation is "u", its
    entity the one of the write operation, its revision [rev + 1].  [Old] is
    the prior entity as DeleteLabel returns it: it holds the label with
    [v], the meta-labels as [d] has them, and no other key.  [New] has no
    label, has [_rev = rev + 1], and agrees with [Old] on every other key:
    it holds the meta-labels and nothing else.  In the database [d] is
    replaced by [d] without the label and with the revision [rev + 1]. *)
Theorem DeleteLabel_event
    (wo : WriteOp) (label : string) (s : Store (gmap string MemColl))
    (c : MemColl) (before after : list EntityT) (d : EntityT)
    (v : Value) (rev : Z) :
  isMetaLabel label = false ->
  backend s !! WoEntityType wo = Some c ->
  docs c = (before ++ d :: after)%list ->
  Forall (fun d' => hasId (WoEntityId wo) d' = false) before ->
  hasId (WoEntityId wo) d = true ->
  d !! "_rev" = Some (VInt rev) ->
  d !! label = Some v ->
  exists old new ev s',
    DeleteLabel wo label s = (Some old, None, s')
    /\ cdc s' = (cdc s ++ [ev])%list
    /\ Op ev = "u"
    /\ EntityId ev = WoEntityId wo
    /\ EntityType ev = WoEntityType wo
    /\ EntityRev ev = rev + 1
    /\ Old ev = Some old
    /\ New ev = Some new
    /\ old !! label = Some v
    /\ (forall key, isMetaLabel key = true -> old !! key = d !! key)
    /\ (forall key, isMetaLabel key = false -> key <> label ->
        old !! key = None)
    /\ new !! label = None
    /\ new !! "_rev" = Some (VInt (rev + 1))
    /\ (forall key, key <> label -> key <> "_rev" -> new !! key = old !! key)
    /\ backend s' !! WoEntityType wo
       = Some {| docs := before ++ unsetLabel label d :: after;
                 uniqueLabels := uniqueLabels c |}
    /\ unsetLabel label d !! label = None
    /\ unsetLabel label d !! "_rev" = Some (VInt (rev + 1)).
Proof.
  intros Hmeta Hcoll Hdocs Hbefore Hd Hrev Hlabel.
  assert (Hne : label <> "_rev") by (intros ->; discriminate).
  assert (Hfind : FindOneAndUnset (backend s) (WoEntityType wo) (WoEntityId wo)
                    label
                  = (<[WoEntityType wo :=
                         {| docs := before ++ unsetLabel label d :: after;
                            uniqueLabels := uniqueLabels c |}]> (backend s),
                     Found d)).
  { simpl. unfold memFindOneAndUnset. rewrite Hcoll, Hdocs.
    now rewrite (unsetFirst_first _ _ _ _ _ Hbefore Hd). }
  rewrite (DeleteLabel_found wo label s _ d rev Hmeta Hfind Hrev).
  destruct (cdcWrite_cdc wo "u" (WoEntityId wo) (rev + 1)
              (Some (project label d))
              (Some (<["_rev" := VInt (rev + 1)]> (delete label (project label d))))
              (mkStore (<[WoEntityType wo :=
                            {| docs := before ++ unsetLabel label d :: after;
                               uniqueLabels := uniqueLabels c |}]> (backend s))
                 (cdc s) (nextObjectId s) (nextEventId s) (now s)))
    as (ev & Hcdc & Hop & Hid & Herev & Hold & Hnew & Htype & _).
  exists (project label d),
    (<["_rev" := VInt (rev + 1)]> (delete label (project label d))), ev.
  eexists. split; [reflexivity|].
  split; [exact Hcdc|]. split; [exact Hop|]. split; [exact Hid|].
  split; [exact Htype|]. split; [exact Herev|]. split; [exact Hold|].
  split; [exact Hnew|].
  split.
  { rewrite project_lookup, String.eqb_refl, orb_true_r. exact Hlabel. }
  split.
  { intros key Hkey. now rewrite project_lookup, Hkey. }
  split.
  { intros key Hkey Hk. rewrite project_lookup, Hkey.
    now apply String.eqb_neq in Hk as ->. }
  split.
  { rewrite lookup_insert_ne by congruence. apply lookup_delete_eq. }
  split.
  { apply lookup_insert_eq. }
  split.
  { intros key Hk Hr. rewrite lookup_insert_ne by congruence.
    now rewrite lookup_delete_ne by congruence. }
  split.
  { simpl. apply lookup_insert_eq. }
  unfold unsetLabel, revOf. rewrite Hrev. split.
  - rewrite lookup_insert_ne by congruence. apply lookup_delete_eq.
  - apply lookup_insert_eq.
Qed.

End MemStoreProperties.

(** The partial success of the store tests: of the batch [x=5], [x=6],
    [x=7] the database accepts the first entity and refuses the second,
    since a node with [x=6] exists: Insert returns the id of the first with
    the error duplicate-entity, one insert event is written, and of the
    batch the collection holds the first entity only. *)
Lemma Insert_duplicate_partial_success_witness :
  exists ids s',
    Entity.Insert (Entity.testWriteOp "")
      [ {[ "x" := Entity.VInt 5 ]}; {[ "x" := Entity.VInt 6 ]};
        {[ "x" := Entity.VInt 7 ]} ] Entity.testStore
    = (ids, Some Entity.errDuplicateEntity, s')
    /\ ids = ["oid0"]
    /\ Entity.countOp "i" (Entity.cdc s') = 1%nat
    /\ Entity.docs <$> Entity.backend s' !! "nodes"
       = Some (Entity.testNodes
                 ++ [Entity.newEntity "nodes" "oid0" {[ "x" := Entity.VInt 5 ]}])%list.
Proof.
  set (wo := Entity.testWriteOp "").
  set (d5 := Entity.newEntity "nodes" (Entity.objectIdHex 0)
               {[ "x" := Entity.VInt 5 ]}).
  set (b1 := fst (Entity.InsertOne (Entity.backend Entity.testStore) "nodes" d5)).
  assert (E1 : Entity.InsertOne (Entity.backend Entity.testStore) "nodes" d5
               = (b1, Entity.Inserted)) by (vm_compute; reflexivity).
  set (s1 := Entity.cdcWrite wo "i" (Entity.objectIdHex 0) 0 None (Some d5)
               (Entity.mkStore b1 [] 1 0 1000)).
  assert (Hpre : Entity.allInserted wo [ {[ "x" := Entity.VInt 5 ]} ] []
                   Entity.testStore ([] ++ [Entity.objectIdHex 0]) s1).
  { eapply Entity.allInserted_cons; [exact E1 | apply Entity.allInserted_nil]. }
  set (d6 := Entity.newEntity "nodes" (Entity.objectIdHex 1)
               {[ "x" := Entity.VInt 6 ]}).
  set (b2 := fst (Entity.InsertOne (Entity.backend s1) "nodes" d6)).
  assert (E2 : Entity.InsertOne (Entity.backend s1) "nodes" d6
               = (b2, Entity.DupKey)) by (vm_compute; reflexivity).
  destruct (Insert_duplicate_partial_success wo
              [ {[ "x" := Entity.VInt 5 ]} ] {[ "x" := Entity.VInt 6 ]}
              [ {[ "x" := Entity.VInt 7 ]} ] Entity.testStore
              ([] ++ [Entity.objectIdHex 0]) s1 b2)
    as (new & Hrun & _ & _ & _ & _ & Hcount & _);
    [vm_compute; reflexivity | exact Hpre | exact E2 |].
  eexists _, _. split; [exact Hrun|].
  split; [vm_compute; reflexivity|].
  split; [symmetry; exact Hcount|].
  vm_compute. reflexivity.
Defined.

(** C2, counterexample.  The label test of the store: deleting [foo]
    from the first test node writes one event whose [Old] holds the
    meta-labels besides [foo], and whose [New] holds the meta-labels with
    the new revision: [Old] is not the one-entry map of the label and [New]
    is not empty. *)
Lemma DeleteLabel_event_has_meta_labels :
  exists old ev s',
    Entity.DeleteLabel (Entity.testWriteOp "a0") "foo" Entity.testStore
    = (Some old, None, s')
    /\ Entity.cdc s' = [ev]
    /\ Entity.Op ev = "u"
    /\ Entity.Old ev
       = Some {[ "_id" := Entity.VObjectID "a0";
                 "_type" := Entity.VString "nodes";
                 "_rev" := Entity.VInt 0;
                 "foo" := Entity.VString "" ]}
    /\ Entity.New ev
       = Some {[ "_id" := Entity.VObjectID "a0";
                 "_type" := Entity.VString "nodes";
                 "_rev" := Entity.VInt 1 ]}
    /\ Entity.Old ev <> Some {[ "foo" := Entity.VString "" ]}
    /\ Entity.New ev <> Some ∅.
Proof.
  eexists _, _, _. split; [vm_compute; reflexivity|].
  split; [vm_compute; reflexivity|].
  split; [reflexivity|].
  split; [vm_compute; reflexivity|].
  split; [vm_compute; reflexivity|].
  split; intros Heq;
    apply (f_equal (fun o : option (gmap string Entity.Value) =>
                      o ≫= (fun m => m !! "_rev"))) in Heq;
    vm_compute in Heq; discriminate.
Qed.

(** The label test of the store, by the theorem: the first test node is
    the entity [a0] of the collection [nodes], at revision 0, with
    [foo = ""]. *)
Lemma DeleteLabel_event_witness :
  exists old new ev s',
    Entity.DeleteLabel (Entity.testWriteOp "a0") "foo" Entity.testStore
    = (Some old, None, s')
    /\ Entity.cdc s' = [ev]
    /\ Entity.Op ev = "u"
    /\ Entity.EntityRev ev = 1
    /\ Entity.Old ev = Some old
    /\ Entity.New ev = Some new
    /\ old !! "foo" = Some (Entity.VString "")
    /\ old !! "_id" = Some (Entity.VObjectID "a0")
    /\ new !! "foo" = None
    /\ new !! "_rev" = Some (Entity.VInt 1).
Proof.
  destruct (DeleteLabel_event (Entity.testWriteOp "a0") "foo" Entity.testStore
              {| Entity.docs := Entity.testNodes; Entity.uniqueLabels := ["x"] |}
              []
              [ Entity.testNode "a1" [("x", Entity.VInt 4); ("y", Entity.VString "b");
                                      ("bar", Entity.VString "")];
                Entity.testNode "a2" [("x", Entity.VInt 6); ("y", Entity.VString "b");
                                      ("bar", Entity.VString "")] ]
              (Entity.testNode "a0" [("x", Entity.VInt 2); ("y", Entity.VString "a");
                                     ("z", Entity.VInt 9); ("foo", Entity.VString "")])
              (Entity.VString "") 0)
    as (old & new & ev & s' & Hrun & Hcdc & Hop & _ & _ & Hrev & Hold & Hnew
        & Hfoo & Hmeta & _ & Hnofoo & Hnewrev & _).
  - reflexivity.
  - apply lookup_singleton_eq.
  - reflexivity.
  - constructor.
  - unfold Entity.hasId, Entity.testNode. rewrite lookup_insert_eq.
    apply bool_decide_eq_true_2. reflexivity.
  - unfold Entity.testNode. rewrite !lookup_insert_ne by discriminate.
    apply lookup_insert_eq.
  - vm_compute. reflexivity.
  - exists old, new, ev, s'.
    split; [exact Hrun|]. split; [exact Hcdc|]. split; [exact Hop|].
    split; [exact Hrev|]. split; [exact Hold|]. split; [exact Hnew|].
    split; [exact Hfoo|].
    split; [rewrite (Hmeta "_id" eq_refl); apply lookup_insert_eq|].
    split; [exact Hnofoo | exact Hnewrev].
Defined.

(** ** The trace header *)

Section TraceProperties.
Import Auth.

Lemma splitOn_no_separator (sep : ascii) (s : string) :
  hasChar sep s = false -> splitOn sep s = [s].
Proof.
  induction s as [|c s IH]; [reflexivity|]. simpl. intros Hno.
  apply orb_false_iff in Hno as [Hc Hs]. rewrite Hc, (IH Hs). reflexivity.
Qed.

Lemma splitOn_app (sep : ascii) (s rest : string) :
  hasChar sep s = false ->
  splitOn sep (s ++ String sep rest) = s :: splitOn sep rest.
Proof.
  induction s as [|c s IH]; intros Hno.
  - change (splitOn sep (String sep rest) = "" :: splitOn sep rest).
    simpl. now rewrite Ascii.eqb_refl.
  - change (splitOn sep (String c (s ++ String sep rest))
            = String c s :: splitOn sep rest).
    simpl in Hno. apply orb_false_iff in Hno as [Hc Hs].
    simpl. rewrite Hc, (IH Hs). reflexivity.
Qed.

(** Splitting at the commas gives back the pairs that were joined. *)
Lemma splitOn_Join (pairs : list string) :
  pairs <> [] ->
  Forall (fun p => hasChar "," p = false) pairs ->
  splitOn "," (Join pairs ",") = pairs.
Proof.
  intros Hne Hall. induction Hall as [|p rest Hp Hrest IH]; [congruence|].
  destruct rest as [|q rest].
  - apply splitOn_no_separator. exact Hp.
  - change (Join (p :: q :: rest) ",")
      with (p ++ String "," (Join (q :: rest) ",")).
    rewrite splitOn_app by exact Hp. f_equal. apply IH. discriminate.
Qed.

(** A pair is malformed exactly when it holds no "=". *)
Lemma cutPair_None (p : string) : cutPair p = None <-> hasChar "=" p = false.
Proof.
  induction p as [|c p IH]; simpl; [split; reflexivity|].
  destruct (Ascii.eqb c "=") eqn:Ec; simpl; [split; discriminate|].
  destruct (cutPair p) as [[k v]|]; rewrite <- IH; split; congruence.
Qed.

Lemma default_lookup (t : option (gmap string string)) (k : string) :
  default ∅ t !! k = match t with Some m => m !! k | None => None end.
Proof. destruct t; [reflexivity | apply lookup_empty]. Qed.

Lemma addTracePairs_lookup (pairs : list string) :
  forall (t : option (gmap string string)) (k : string),
    match addTracePairs pairs t with Some m => m !! k | None => None end
    = match (match t with Some m => m !! k | None => None end) with
      | Some v => Some v
      | None => firstValue k pairs
      end.
Proof.
  induction pairs as [|p rest IH]; intros t k; simpl.
  - now destruct (match t with Some m => m !! k | None => None end).
  - destruct (cutPair p) as [[k' v]|]; [|apply IH].
    pose proof (default_lookup t k') as Hd.
    destruct (default ∅ t !! k') as [x|] eqn:Ek'.
    + rewrite IH. destruct (String.eqb_spec k' k) as [->|Hne]; [|reflexivity].
      now rewrite <- Hd.
    + rewrite IH. simpl.
      destruct (String.eqb_spec k' k) as [->|Hne].
      * rewrite lookup_insert_eq. now rewrite <- Hd.
      * rewrite lookup_insert_ne by exact Hne. now rewrite default_lookup.
Qed.

Lemma addTracePairs_None (pairs : list string) :
  forall t : option (gmap string string),
    addTracePairs pairs t = None
    <-> t = None /\ Forall (fun p => cutPair p = None) pairs.
Proof.
  induction pairs as [|p rest IH]; intros t; simpl.
  - split; [intros ->; split; [reflexivity | constructor] | now intros [-> _]].
  - destruct (cutPair p) as [[k' v]|] eqn:Ep.
    + pose proof (default_lookup t k') as Hd.
      destruct (default ∅ t !! k') as [x|]; rewrite IH; split.
      * intros [-> _]. discriminate.
      * intros [_ Hall]. inversion Hall; congruence.
      * intros [Hn _]. discriminate.
      * intros [_ Hall]. inversion Hall; congruence.
    + rewrite IH. split; intros [Ht Hall]; (split; [exact Ht|]).
      * now constructor.
      * now inversion Hall.
Qed.

(** C8.  When the plugin authenticates the request, [Authenticate]
    returns its caller with the pairs of the [X-Etre-Trace] header, read as
    [key=value] pairs separated by commas, added to the trace: the value of
    a key is the one the plugin set, if it set one, and else the value of
    the first pair of the header with that key; a pair without "=" counts
    for nothing, whatever stands beside it; the trace stays nil exactly when
    the plugin left it nil and no pair of the header has a "="; and with an
    empty header the caller is returned as the plugin made it. *)
Theorem Authenticate_trace_header
    (plugin : Request -> Caller * option string) (req : Request)
    (caller : Caller) (pairs : list string) :
  plugin req = (caller, None) ->
  pairs <> [] ->
  Forall (fun p => hasChar "," p = false) pairs ->
  HeaderGet req TRACE_HEADER = Join pairs "," ->
  snd (Authenticate plugin req) = None
  /\ Name (fst (Authenticate plugin req)) = Name caller
  /\ Roles (fst (Authenticate plugin req)) = Roles caller
  /\ MetricGroups (fst (Authenticate plugin req)) = MetricGroups caller
  /\ (forall k,
        lookupTrace (fst (Authenticate plugin req)) k
        = match lookupTrace caller k with
          | Some v => Some v
          | None => firstValue k pairs
          end)
  /\ (forall before bad after k,
        pairs = (before ++ bad :: after)%list ->
        hasChar "=" bad = false ->
        firstValue k pairs = firstValue k (before ++ after))
  /\ (Trace (fst (Authenticate plugin req)) = None
      <-> Trace caller = None /\ Forall (fun p => hasChar "=" p = false) pairs)
  /\ (HeaderGet req TRACE_HEADER = "" ->
      fst (Authenticate plugin req) = caller).
Proof.
  intros Hplugin Hne Hcommas Hheader.
  assert (Hsplit : splitOn "," (HeaderGet req TRACE_HEADER) = pairs).
  { rewrite Hheader. now apply splitOn_Join. }
  assert (Hmalformed : Forall (fun p => cutPair p = None) pairs
                       <-> Forall (fun p => hasChar "=" p = false) pairs).
  { split; intros Hall; (eapply Forall_impl; [exact Hall|]); simpl;
      intros p; apply cutPair_None. }
  assert (Hdrop : forall before bad after k,
            pairs = (before ++ bad :: after)%list ->
            hasChar "=" bad = false ->
            firstValue k pairs = firstValue k (before ++ after)).
  { intros before bad after k -> Hbad. apply cutPair_None in Hbad.
    clear -Hbad. induction before as [|p before IH]; simpl.
    - now rewrite Hbad.
    - destruct (cutPair p) as [[k' v]|]; [|exact IH].
      destruct (k' =? k); [reflexivity | exact IH]. }
  unfold Authenticate. rewrite Hplugin.
  destruct (String.eqb_spec (HeaderGet req TRACE_HEADER) "") as [Hempty|Hfull].
  - simpl.
    split; [reflexivity|]. split; [reflexivity|]. split; [reflexivity|].
    split; [reflexivity|]. split; [|split; [exact Hdrop|split]].
    + intros k. unfold lookupTrace.
      assert (Hnone : firstValue k pairs = None).
      { rewrite <- Hsplit, Hempty. reflexivity. }
      rewrite Hnone. now destruct (match Trace caller with
                                   | Some m => m !! k | None => None end).
    + split.
      * intros Hnil. split; [exact Hnil|]. apply Hmalformed.
        rewrite <- Hsplit, Hempty. simpl. repeat constructor.
      * now intros [Hnil _].
    + reflexivity.
  - simpl. rewrite Hsplit.
    split; [reflexivity|]. split; [reflexivity|]. split; [reflexivity|].
    split; [reflexivity|]. split; [|split; [exact Hdrop|split]].
    + intros k. unfold lookupTrace. simpl. apply addTracePairs_lookup.
    + split.
      * intros Hnil. apply addTracePairs_None in Hnil as [Ht Hall].
        split; [exact Ht | now apply Hmalformed].
      * intros [Ht Hall]. apply addTracePairs_None.
        split; [exact Ht | now apply Hmalformed].
    + intros Hempty. contradiction.
Qed.

End TraceProperties.

(** The second case of the trace test: of "app=foo,host" the pair "host"
    is dropped and "app=foo" is kept. *)
Lemma Authenticate_trace_header_witness :
  Auth.Trace (fst (Auth.Authenticate Auth.AllowAll
                     (Auth.traceRequest "app=foo,host")))
  = Some {[ "app" := "foo" ]}
  /\ Auth.lookupTrace (fst (Auth.Authenticate Auth.AllowAll
                              (Auth.traceRequest "app=foo,host"))) "app"
     = Some "foo".
Proof.
  split; [vm_compute; reflexivity|].
  destruct (Authenticate_trace_header Auth.AllowAll
              (Auth.traceRequest "app=foo,host")
              (fst (Auth.AllowAll (Auth.traceRequest "app=foo,host")))
              ["app=foo"; "host"])
    as (_ & _ & _ & _ & Hlookup & _).
  - reflexivity.
  - discriminate.
  - repeat constructor.
  - vm_compute. reflexivity.
  - rewrite Hlookup. vm_compute. reflexivity.
Defined.

(** ** Patterns *)

Section RegexProperties.
Import Regex.

Lemma Matches_nil_nullable (r : re) (s : list ascii) :
  Matches r s -> s = [] -> nullable r = true.
Proof.
  induction 1 as [ | | r1 r2 s1 s2 _ IH1 _ IH2 | r1 r2 s _ IH | r1 r2 s _ IH
                 | | ]; intros Hs; simpl; try reflexivity; try discriminate.
  - apply app_eq_nil in Hs as [-> ->]. now rewrite IH1, IH2.
  - now rewrite IH.
  - rewrite IH by exact Hs. apply orb_true_r.
Qed.

Lemma nullable_Matches (r : re) : nullable r = true <-> Matches r [].
Proof.
  split; [| intros Hm; now apply (Matches_nil_nullable r [])].
  induction r as [ | | items | r1 IH1 r2 IH2 | r1 IH1 r2 IH2 | r IH ];
    simpl; intros Hn; try discriminate.
  - constructor.
  - apply andb_true_iff in Hn as [H1 H2].
    change (@nil ascii) with (@nil ascii ++ [])%list. constructor; auto.
  - apply orb_true_iff in Hn as [H1|H2]; [apply MAltL | apply MAltR]; auto.
  - constructor.
Qed.

Lemma Matches_Star_cons (r : re) (c : ascii) (s : list ascii) :
  Matches (Star r) (c :: s) ->
  exists s1 s2, s = (s1 ++ s2)%list /\ Matches r (c :: s1) /\ Matches (Star r) s2.
Proof.
  intros Hm. remember (Star r) as r' eqn:Er. remember (c :: s) as s' eqn:Es.
  revert Er Es.
  induction Hm as [ | | | | | | r0 s1 s2 H1 _ H2 IH2 ]; intros Er Es;
    try discriminate.
  inversion Er; subst r0. destruct s1 as [|c1 s1].
  - simpl in Es. now apply IH2.
  - simpl in Es. inversion Es; subst. now exists s1, s2.
Qed.

Lemma deriv_Matches (r : re) :
  forall (c : ascii) (s : list ascii),
    Matches (deriv c r) s <-> Matches r (c :: s).
Proof.
  induction r as [ | | items | r1 IH1 r2 IH2 | r1 IH1 r2 IH2 | r IH ];
    intros c s; simpl.
  - split; intros Hm; inversion Hm.
  - split; intros Hm; inversion Hm.
  - destruct (existsb (matchItem c) items) eqn:Ec; split; intros Hm;
      inversion Hm; subst; try congruence; now constructor.
  - destruct (nullable r1) eqn:En.
    + split; intros Hm.
      * inversion Hm as [ | | | ? ? ? Hl | ? ? ? Hr | | ]; subst.
        -- inversion Hl as [ | | ? ? s1 s2 H1 H2 | | | | ]; subst.
           apply IH1 in H1.
           change (c :: s1 ++ s2)%list with ((c :: s1) ++ s2)%list.
           now constructor.
        -- apply IH2 in Hr. apply nullable_Matches in En.
           change (c :: s) with ([] ++ c :: s)%list. now constructor.
      * inversion Hm as [ | | ? ? s1 s2 H1 H2 Hr Hs | | | | ]; subst.
        destruct s1 as [|c1 s1]; simpl in Hs.
        -- subst s2. apply MAltR. now apply IH2.
        -- inversion Hs; subst. apply MAltL. constructor; [|exact H2].
           now apply IH1.
    + split; intros Hm.
      * inversion Hm as [ | | ? ? s1 s2 H1 H2 | | | | ]; subst.
        apply IH1 in H1.
        change (c :: s1 ++ s2)%list with ((c :: s1) ++ s2)%list.
        now constructor.
      * inversion Hm as [ | | ? ? s1 s2 H1 H2 Hr Hs | | | | ]; subst.
        destruct s1 as [|c1 s1]; simpl in Hs.
        -- apply (Matches_nil_nullable r1 []) in H1; [congruence | reflexivity].
        -- inversion Hs; subst. constructor; [|exact H2]. now apply IH1.
  - split; intros Hm; inversion Hm; subst;
      [ apply MAltL | apply MAltR | apply MAltL | apply MAltR ];
      first [ now apply IH1 | now apply IH2 ].
  - split; intros Hm.
    + inversion Hm as [ | | ? ? s1 s2 H1 H2 | | | | ]; subst.
      apply IH in H1.
      change (c :: s1 ++ s2)%list with ((c :: s1) ++ s2)%list.
      now constructor.
    + apply Matches_Star_cons in Hm as (s1 & s2 & -> & H1 & H2).
      constructor; [|exact H2]. now apply IH.
Qed.

(** The matcher decides the denotation. *)
Lemma matchList_Matches (s : list ascii) :
  forall r : re, matchList r s = true <-> Matches r s.
Proof.
  induction s as [|c s IH]; intros r; simpl.
  - apply nullable_Matches.
  - rewrite IH. apply deriv_Matches.
Qed.

End RegexProperties.

(** ** The pattern of an int-str field *)

Section Int64PatternProperties.
Import Regex Schema Specified.

Lemma parse_regexInt64 : parsePattern regexInt64 = Some int64Pattern.
Proof. vm_compute. reflexivity. Qed.

Lemma between_bounds (lo hi c : ascii) :
  between lo hi c = true
  <-> (nat_of_ascii lo <= nat_of_ascii c <= nat_of_ascii hi)%nat.
Proof.
  unfold between. rewrite andb_true_iff, !Nat.leb_le. reflexivity.
Qed.

Lemma between_same (c x : ascii) : between c c x = true <-> x = c.
Proof.
  rewrite between_bounds. split; [|intros ->; lia].
  intros Hb. assert (Heq : nat_of_ascii x = nat_of_ascii c) by lia.
  apply (f_equal ascii_of_nat) in Heq. now rewrite !ascii_nat_embedding in Heq.
Qed.

Lemma Matches_class (items : list classItem) (s : list ascii) :
  Matches (Chars items) s
  <-> exists c, s = [c] /\ existsb (matchItem c) items = true.
Proof.
  split.
  - intros Hm. inversion Hm; subst. eauto.
  - intros (c & -> & Hc). now constructor.
Qed.

Lemma Matches_lit (c : ascii) (s : list ascii) : Matches (lit c) s <-> s = [c].
Proof.
  unfold lit. rewrite Matches_class. split.
  - intros (x & -> & Hx). simpl in Hx. rewrite orb_false_r in Hx.
    apply between_same in Hx. now subst.
  - intros ->. exists c. split; [reflexivity|]. simpl. rewrite orb_false_r.
    now apply between_same.
Qed.

Lemma Matches_Seq (r1 r2 : re) (s : list ascii) :
  Matches (Seq r1 r2) s
  <-> exists s1 s2, s = (s1 ++ s2)%list /\ Matches r1 s1 /\ Matches r2 s2.
Proof.
  split.
  - intros Hm. inversion Hm; subst. eauto.
  - intros (s1 & s2 & -> & H1 & H2). now constructor.
Qed.

Lemma Matches_Alt (r1 r2 : re) (s : list ascii) :
  Matches (Alt r1 r2) s <-> Matches r1 s \/ Matches r2 s.
Proof.
  split.
  - intros Hm. inversion Hm; subst; auto.
  - intros [Hm|Hm]; [apply MAltL | apply MAltR]; exact Hm.
Qed.

Lemma Matches_Eps (s : list ascii) : Matches Eps s <-> s = [].
Proof. split; [intros Hm; now inversion Hm | intros ->; constructor]. Qed.

Lemma Matches_chainTo (cs : string) (last : re) (s : list ascii) :
  Matches (chainTo cs last) s
  <-> exists t, s = (list_ascii_of_string cs ++ t)%list /\ Matches last t.
Proof.
  unfold chainTo. revert s.
  induction (list_ascii_of_string cs) as [|c l IH]; intros s; simpl.
  - split; [intros Hm; eauto | intros (t & -> & Hm); exact Hm].
  - rewrite Matches_Seq. split.
    + intros (s1 & s2 & -> & H1 & H2). apply Matches_lit in H1. subst s1.
      apply IH in H2 as (t & -> & Ht). exists t. now split.
    + intros (t & -> & Ht). exists [c], (l ++ t)%list.
      split; [reflexivity|]. split; [now apply Matches_lit|].
      apply IH. eauto.
Qed.

(** Up to [n] digits. *)
Lemma Matches_upTo_digits (n : nat) :
  forall s : list ascii,
    Matches (upTo n (Chars [CDigit])) s
    <-> (length s <= n)%nat /\ forallb isDigit s = true.
Proof.
  induction n as [|n IH]; intros s; simpl.
  - rewrite Matches_Eps. split.
    + intros ->. simpl. split; [lia | reflexivity].
    + intros [Hl _]. destruct s; [reflexivity | simpl in Hl; lia].
  - unfold Opt. rewrite Matches_Alt, Matches_Seq, Matches_Eps. split.
    + intros [(s1 & s2 & -> & H1 & H2) | ->]; [|simpl; split; [lia|reflexivity]].
      apply Matches_class in H1 as (c & -> & Hc). simpl in Hc.
      rewrite orb_false_r in Hc. apply IH in H2 as [Hl Hd].
      simpl. rewrite Hc, Hd. split; [lia | reflexivity].
    + intros [Hl Hd]. destruct s as [|c s]; [now right|]. left.
      simpl in Hl, Hd. apply andb_true_iff in Hd as [Hc Hd].
      exists [c], s. split; [reflexivity|]. split.
      * apply Matches_class. exists c. split; [reflexivity|]. simpl.
        now rewrite Hc.
      * apply IH. split; [lia | exact Hd].
Qed.

Lemma splitSign_other (c : ascii) (ds : list ascii) :
  c <> "-"%char -> splitSign (c :: ds) = (false, c :: ds).
Proof.
  intros Hc. destruct c as [[] [] [] [] [] [] [] []]; try reflexivity.
  now contradiction Hc.
Qed.

Lemma first_digit (d : ascii) :
  between "1" "9" d = true
  <-> isDigit d = true /\ Ascii.eqb d "0" = false.
Proof.
  unfold isDigit. rewrite !between_bounds.
  change (nat_of_ascii "0") with 48%nat. change (nat_of_ascii "1") with 49%nat.
  change (nat_of_ascii "9") with 57%nat. split.
  - intros Hb. split; [lia|]. apply Ascii.eqb_neq. intros ->.
    change (nat_of_ascii "0") with 48%nat in Hb. lia.
  - intros [Hb Hz]. apply Ascii.eqb_neq in Hz.
    assert (nat_of_ascii d <> 48%nat); [|lia].
    intros Heq. apply Hz. apply (f_equal ascii_of_nat) in Heq.
    now rewrite ascii_nat_embedding in Heq.
Qed.

(** The digits after the sign, in the first alternative of the pattern. *)
Lemma Matches_digits (ds : list ascii) :
  Matches (Alt (lit "0")
             (Seq (Chars [CRange "1" "9"]) (Repeat (Chars [CDigit]) 0 18))) ds
  <-> (1 <= length ds <= 19)%nat /\ forallb isDigit ds = true
      /\ match ds with
         | c :: _ :: _ => negb (Ascii.eqb c "0")
         | _ => true
         end = true.
Proof.
  rewrite Matches_Alt, Matches_lit, Matches_Seq. unfold Repeat. split.
  - intros [-> | (s1 & s2 & -> & H1 & H2)].
    + simpl. repeat split; lia.
    + apply Matches_class in H1 as (d & -> & Hd). simpl in Hd.
      rewrite orb_false_r in Hd. apply first_digit in Hd as [Hd Hz].
      apply Matches_Seq in H2 as (e & rest & -> & He & Hrest).
      simpl in He. apply Matches_Eps in He. subst e. simpl.
      apply Matches_upTo_digits in Hrest as [Hl Hr].
      rewrite Hd, Hr, Hz. simpl. repeat split; try lia.
      now destruct rest.
  - intros ([Hl1 Hl19] & Hd & Hz). destruct ds as [|d rest]; [simpl in Hl1; lia|].
    simpl in Hd, Hl19. apply andb_true_iff in Hd as [Hd Hr].
    destruct (Ascii.eqb d "0") eqn:Ed.
    + destruct rest; [|discriminate]. apply Ascii.eqb_eq in Ed. subst. now left.
    + right. exists [d], rest. split; [reflexivity|]. split.
      * apply Matches_class. exists d. split; [reflexivity|]. simpl.
        rewrite orb_false_r. now apply first_digit.
      * apply Matches_Seq. exists [], rest. split; [reflexivity|].
        split; [simpl; constructor|]. apply Matches_upTo_digits.
        split; [lia | exact Hr].
Qed.

Lemma digits_in_bounds (ds : list ascii) :
  (1 <= length ds)%nat -> (length ds <= 19)%nat ->
  forallb isDigit ds = true ->
  ((1 <=? length ds)%nat && (length ds <=? 19)%nat && forallb isDigit ds) = true.
Proof.
  intros H1 H19 Hd. apply Nat.leb_le in H1, H19. now rewrite H1, H19, Hd.
Qed.

(** What the pattern accepts has the form of a decimal number without a
    superfluous zero. *)
Lemma int64Pattern_sound (s : list ascii) :
  Matches int64Pattern s -> isDecimal s = true /\ noLeadingZero s = true.
Proof.
  unfold int64Pattern. rewrite !Matches_Alt, Matches_Seq, !Matches_chainTo.
  intros [(s1 & s2 & -> & Hsign & Hds) | [(t & -> & Ht) | (t & -> & Ht)]].
  - apply Matches_digits in Hds as ([Hl1 Hl19] & Hd & Hz).
    assert (Hbody : splitSign s2 = (false, s2)).
    { destruct s2 as [|c ds]; [reflexivity|]. apply splitSign_other.
      intros ->. simpl in Hd. discriminate. }
    unfold Opt in Hsign. apply Matches_Alt in Hsign as [Hsign|Hsign];
      [apply Matches_lit in Hsign | apply Matches_Eps in Hsign]; subst s1.
    + unfold isDecimal, noLeadingZero.
      change (splitSign (["-"%char] ++ s2)) with (true, s2). cbn [snd].
      split; [now apply digits_in_bounds | exact Hz].
    + change ([] ++ s2)%list with s2. unfold isDecimal, noLeadingZero.
      rewrite Hbody. cbn [snd].
      split; [now apply digits_in_bounds | exact Hz].
  - apply Matches_class in Ht as (c & -> & Hc). simpl in Hc.
    rewrite orb_false_r in Hc.
    assert (Hd : isDigit c = true).
    { unfold isDigit. apply between_bounds. apply between_bounds in Hc.
      change (nat_of_ascii "7") with 55%nat in Hc.
      change (nat_of_ascii "9") with 57%nat. lia. }
    unfold isDecimal, noLeadingZero. simpl. rewrite Hd. split; reflexivity.
  - apply Matches_lit in Ht. subst t. split; reflexivity.
Qed.

(** A decimal number of 1 to 19 digits without a superfluous zero is
    accepted. *)
Lemma int64Pattern_complete (s : list ascii) :
  isDecimal s = true -> noLeadingZero s = true -> Matches int64Pattern s.
Proof.
  unfold isDecimal, noLeadingZero, int64Pattern. intros Hdec Hz.
  apply MAltL.
  assert (Hbody : forall ds,
            ((1 <=? length ds)%nat && (length ds <=? 19)%nat
             && forallb isDigit ds) = true ->
            match ds with
            | c :: _ :: _ => negb (Ascii.eqb c "0")
            | _ => true
            end = true ->
            Matches (Alt (lit "0")
                       (Seq (Chars [CRange "1" "9"])
                          (Repeat (Chars [CDigit]) 0 18))) ds).
  { intros ds Hd Hzero. apply Matches_digits.
    apply andb_true_iff in Hd as [Hl Hd]. apply andb_true_iff in Hl as [Hl1 Hl19].
    apply Nat.leb_le in Hl1, Hl19. auto. }
  destruct s as [|c ds]; [discriminate|].
  destruct (Ascii.eqb_spec c "-") as [->|Hc].
  - simpl in Hdec, Hz. change ("-"%char :: ds) with (["-"%char] ++ ds)%list.
    constructor; [apply MAltL; now apply Matches_lit | now apply Hbody].
  - rewrite (splitSign_other c ds Hc) in Hdec, Hz. simpl snd in Hz.
    change (c :: ds) with ([] ++ c :: ds)%list.
    constructor; [apply MAltR; constructor | now apply Hbody].
Qed.

(** C4, as amended.  For a field of type int-str without an explicit
    pattern, the validator constrains the field to BSON strings that match
    [regexInt64].  The pattern can be read, and: every string it accepts is
    an optionally negated string of 1 to 19 decimal digits with no zero
    before other digits; and every such string that denotes a signed 64-bit
    integer is accepted. *)
Theorem regexInt64_language :
  (forall schema globalCase v pre f post,
      BSONSchemaValidator schema globalCase = inr v ->
      Fields schema = (pre ++ f :: post)%list ->
      ~ In (Name f) (map Name post) ->
      FieldType f = "int-str" -> Pattern f = "" ->
      exists jsonSchema properties,
        v !! "$jsonSchema" = Some jsonSchema
        /\ jsonSchema !! "properties" = Some (JProperties properties)
        /\ properties !! Name f
           = Some (<["pattern" := FString regexInt64]>
                     {[ "bsonType" := FString "string" ]}))
  /\ (forall s, exists b, matchPattern regexInt64 s = Some b)
  /\ (forall s,
        matchPattern regexInt64 s = Some true ->
        isDecimal (list_ascii_of_string s) = true
        /\ noLeadingZero (list_ascii_of_string s) = true)
  /\ (forall s,
        specInt64String s = true ->
        noLeadingZero (list_ascii_of_string s) = true ->
        matchPattern regexInt64 s = Some true).
Proof.
  split; [|split; [|split]].
  - intros schema globalCase v pre f post Hv Hf Hlast Htype Hpat.
    unfold BSONSchemaValidator in Hv.
    destruct (fieldsLoop (Fields schema) globalCase [] ∅ ∅)
      as [e | [[r d] p]] eqn:Eloop; [discriminate|].
    inversion Hv; subst v; clear Hv.
    destruct (fieldsLoop_properties _ _ _ _ _ _ _ _ _ _ _ Eloop Hf Hlast)
      as (bt & Hbt & Henum & Hp).
    eexists _, p. split; [apply lookup_singleton_eq|]. split.
    + destruct (0 <? size d)%nat; now simplify_map_eq.
    + rewrite Hp. rewrite Htype in Hbt. inversion Hbt; subst bt.
      destruct Henum as [Hs|He]; [congruence|].
      unfold specFieldSchema, specConstraint. rewrite Hpat, He, Htype.
      reflexivity.
  - intros s. unfold matchPattern. rewrite parse_regexInt64. eauto.
  - intros s. unfold matchPattern. rewrite parse_regexInt64. intros Hm.
    assert (Hb : matchList int64Pattern (list_ascii_of_string s) = true)
      by congruence.
    apply matchList_Matches in Hb. now apply int64Pattern_sound.
  - intros s Hspec Hz. unfold matchPattern. rewrite parse_regexInt64.
    f_equal. apply matchList_Matches. apply int64Pattern_complete; [|exact Hz].
    unfold specInt64String in Hspec. now apply andb_true_iff in Hspec as [Hd _].
Qed.

End Int64PatternProperties.

(** C4, counterexample.  "007" is a string of at most 19 digits whose
    value, 7, is a signed 64-bit integer, and the pattern does not accept
    it. *)
Lemma regexInt64_rejects_leading_zeros :
  Specified.specInt64String "007" = true
  /\ Specified.decimalValue (list_ascii_of_string "007") = 7
  /\ Regex.matchPattern Schema.regexInt64 "007" = Some false.
Proof. repeat split; vm_compute; reflexivity. Qed.

(** Beyond the range: the pattern accepts the 19 digits of
    9999999999999999999, which is no signed 64-bit integer. *)
Lemma regexInt64_accepts_beyond_int64 :
  Regex.matchPattern Schema.regexInt64 "9999999999999999999" = Some true
  /\ Specified.inInt64
       (Specified.decimalValue (list_ascii_of_string "9999999999999999999"))
     = false.
Proof. split; vm_compute; reflexivity. Qed.

(** The bounds of the range are accepted. *)
Example regexInt64_accepts_bounds :
  Regex.matchPattern Schema.regexInt64 "9223372036854775807" = Some true
  /\ Regex.matchPattern Schema.regexInt64 "-9223372036854775808" = Some true.
Proof. split; vm_compute; reflexivity. Qed.

(** * Further properties of the schema manager *)

(** ** Index documents and index names *)

Section IndexCoverage.
Import Schema Specified.

Lemma zipDirections_combine (keys : list string) :
  forall dirs : list Z,
    (length keys <= length dirs)%nat ->
    zipDirections keys dirs = Some (combine keys dirs).
Proof.
  induction keys as [|k keys IH]; intros [|d dirs] Hlen; simpl in *;
    try reflexivity; try lia.
  now rewrite IH by lia.
Qed.

Lemma zipDirections_short (keys : list string) :
  forall dirs : list Z,
    (length dirs < length keys)%nat -> zipDirections keys dirs = None.
Proof.
  induction keys as [|k keys IH]; intros [|d dirs] Hlen; simpl in *;
    try reflexivity; try lia.
  now rewrite IH by lia.
Qed.

Lemma zipDirections_keys (keys : list string) :
  forall (dirs : list Z) doc,
    zipDirections keys dirs = Some doc -> map fst doc = keys.
Proof.
  induction keys as [|k keys IH]; intros [|d dirs] doc Hz; simpl in *;
    try (inversion Hz; reflexivity); try discriminate.
  destruct (zipDirections keys dirs) as [rest|] eqn:Er; [|discriminate].
  inversion Hz; subst. simpl. f_equal. eapply IH. exact Er.
Qed.

(** X1.  [toBSONIndex] keeps the keys in their declared order.  Without
    directions every key gets the direction 1; with directions the i-th
    key gets the i-th direction, surplus directions are ignored, and with
    fewer directions than keys the function panics. *)
Theorem toBSONIndex_shape (index : Index) :
  (Direction index = [] ->
   toBSONIndex index = Some (map (fun key => (key, 1)) (Keys index)))
  /\ (Direction index <> [] ->
      (length (Keys index) <= length (Direction index))%nat ->
      toBSONIndex index = Some (combine (Keys index) (Direction index)))
  /\ (Direction index <> [] ->
      (length (Direction index) < length (Keys index))%nat ->
      toBSONIndex index = None)
  /\ (forall doc, toBSONIndex index = Some doc -> map fst doc = Keys index).
Proof.
  unfold toBSONIndex, defaultIndexDirection.
  destruct (Direction index) as [|d dirs] eqn:Ed; cbn [length Nat.eqb].
  - split; [reflexivity|]. split; [congruence|]. split; [congruence|].
    intros doc Hdoc. inversion Hdoc. rewrite map_map. simpl. apply map_id.
  - split; [discriminate|]. split; [|split].
    + intros _ Hlen. now apply zipDirections_combine.
    + intros _ Hlen. now apply zipDirections_short.
    + intros doc Hdoc. eapply zipDirections_keys. exact Hdoc.
Qed.

(** X2.  The name of an index is empty exactly when the index has no
    key, and it never begins with an underscore: the drop loop cannot take
    an index the schema manager named for a system index. *)
Theorem indexName_not_system (index : Index) :
  (indexName index = "" <-> Keys index = [])
  /\ HasPrefix (indexName index) "_" = false.
Proof.
  unfold indexName, indexNamePrefix, HasPrefix.
  destruct (Keys index) as [|k ks]; cbn [length Nat.eqb].
  - split; [split; reflexivity | reflexivity].
  - split.
    + split; [|discriminate].
      destruct (length (Direction index) =? 0)%nat, (Unique index),
        (Sparse index); discriminate.
    + destruct (length (Direction index) =? 0)%nat, (Unique index),
        (Sparse index); reflexivity.
Qed.

End IndexCoverage.

(** ** The calls of a reconciliation of the indexes *)

Section ReconcileCoverage.
Import Schema Specified.
Context {DB : Type} `{Driver DB}.

(** [createIndex] makes no driver call and fails, or makes the one call
    that creates the index under its name. *)
Lemma createIndex_calls coll index (w : World DB) :
  (calls (snd (createIndex coll index w)) = calls w
   /\ exists e, fst (createIndex coll index w) = ("", Some e))
  \/ exists model,
      calls (snd (createIndex coll index w))
      = (calls w ++ [CallCreateOne coll model])%list
      /\ OptName model = indexName index
      /\ toBSONIndex index = Some (ModelKeys model).
Proof.
  unfold createIndex, bind, ret.
  destruct (checkIndex index); [left; split; [reflexivity | eauto]|].
  destruct (toBSONIndex index) as [keys|]; [|left; split; [reflexivity | eauto]].
  right.
  exists {| ModelKeys := keys; OptUnique := Unique index;
            OptSparse := Sparse index; OptName := indexName index |}.
  unfold indexesCreateOne.
  destruct (CreateOne (db w) coll _) as [d [e|]]; simpl; auto.
Qed.

(** The creation loop makes creation calls only, for the declared indexes
    in their order, up to the index at which it stops. *)
Lemma createLoop_calls coll indexes :
  forall created (w : World DB), exists models n,
    calls (snd (createLoop coll indexes created w))
    = (calls w ++ map (CallCreateOne coll) models)%list
    /\ map OptName models = map indexName (firstn n indexes).
Proof.
  induction indexes as [|index rest IH]; intros created w.
  - exists [], 0%nat. simpl. split; [now rewrite app_nil_r | reflexivity].
  - cbn [createLoop]. unfold bind.
    destruct (createIndex_calls coll index w) as [[Hc [e He]] | (m & Hc & Hn & _)].
    + destruct (createIndex coll index w) as [[name err] w1]. simpl in *.
      inversion He; subst. exists [], 0%nat.
      destruct (Contains _ _); simpl; rewrite Hc, app_nil_r; auto.
    + destruct (createIndex coll index w) as [[name [e|]] w1]; simpl in Hc.
      * exists [m], 1%nat. simpl. rewrite Hn.
        destruct (Contains _ _); simpl; rewrite Hc; auto.
      * destruct (IH ({[ name ]} ∪ created) w1) as (ms & n & Hcs & Hns).
        exists (m :: ms), (S n). simpl. rewrite Hcs, Hc, Hn, Hns.
        now rewrite <- app_assoc.
Qed.

(** X3.  A run of [updateMongoIndexes] talks to the driver in three
    phases: creations, for the declared indexes in their order up to the
    one at which creation stops; then at most one listing; then, only
    after a listing, drops.  No index whose name begins with an underscore
    and no index created in this run is dropped, and no command is run on
    the database. *)
Theorem updateMongoIndexes_call_protocol
    (entity : string) (indexes : list Index) (w : World DB) :
  exists models n listed dropped,
    calls (snd (updateMongoIndexes entity indexes w))
    = (calls w ++ map (CallCreateOne entity) models ++ listed
         ++ map (CallDropOne entity) dropped)%list
    /\ map OptName models = map indexName (firstn n indexes)
    /\ ((listed = [] /\ dropped = []) \/ listed = [CallList entity])
    /\ Forall (fun name => HasPrefix name "_" = false) dropped
    /\ (forall created w1,
          createLoop entity indexes ∅ w = (inr created, w1) ->
          Forall (fun name => name ∉ created) dropped).
Proof.
  unfold updateMongoIndexes.
  destruct (length indexes =? 0)%nat.
  { exists [], 0%nat, [], []. simpl. rewrite app_nil_r.
    repeat split; auto. }
  unfold bind at 1.
  destruct (createLoop_calls entity indexes ∅ w) as (models & n & Hc & Hn).
  destruct (createLoop entity indexes ∅ w) as [[e|created] w1] eqn:Eloop;
    simpl in Hc.
  { exists models, n, [], []. simpl. rewrite app_nil_r.
    repeat split; auto; try (intros ? ? Heq; discriminate). }
  unfold bind.
  pose proof (existingIndexes_calls entity w1) as Hl.
  destruct (existingIndexes entity w1) as [[e|existing] w2]; simpl in Hl.
  { exists models, n, [CallList entity], []. simpl.
    rewrite Hl, Hc, <- app_assoc. repeat split; auto. }
  destruct (dropLoop_calls entity existing created w2) as (dr & Hd & Hf & _).
  exists models, n, [CallList entity], dr.
  rewrite Hd, Hl, Hc, <- !app_assoc. simpl.
  split; [reflexivity|]. split; [exact Hn|]. split; [now right|]. split.
  - eapply Forall_impl; [exact Hf|]. simpl. tauto.
  - intros created' w1' Heq. inversion Heq; subst.
    eapply Forall_impl; [exact Hf|]. simpl. tauto.
Qed.

(** X4.  When the creation of a declared index fails with an error other
    than that of an index build in progress, a configuration error of the
    index included, [updateMongoIndexes] returns that error as it is and
    stops there: the indexes declared before it stay created, the later
    ones are not created, and nothing is listed or dropped. *)
Theorem updateMongoIndexes_creation_error
    (entity : string) (pre : list Index) (index : Index) (post : list Index)
    (w w1 w2 : World DB) (created : gset string) (name : string) (e : error) :
  allCreated entity pre ∅ w created w1 ->
  createIndex entity index w1 = (name, Some e, w2) ->
  Contains (Error (Cause e)) errBuildInProgress = false ->
  updateMongoIndexes entity (pre ++ index :: post) w = (Some e, w2).
Proof.
  intros Hall Hfail Hother. unfold updateMongoIndexes.
  replace (length (pre ++ index :: post) =? 0)%nat with false
    by (rewrite length_app; simpl; symmetry; apply Nat.eqb_neq; lia).
  unfold bind at 1. rewrite (createLoop_allCreated _ _ _ _ _ _ _ Hall).
  simpl. unfold bind at 1. rewrite Hfail, Hother. reflexivity.
Qed.

(** The names collected by successful creations are those of the
    indexes. *)
Lemma allCreated_all_names coll pre :
  forall acc (w : World DB) acc' w',
    allCreated coll pre acc w acc' w' ->
    forall name, In name (map indexName pre) -> name ∈ acc'.
Proof.
  assert (Hmono : forall pre acc (w : World DB) acc' w',
            allCreated coll pre acc w acc' w' ->
            forall name, name ∈ acc -> name ∈ acc').
  { induction pre0 as [|index pre0 IH]; intros acc w acc' w' Hall name Hin;
      inversion Hall; subst; [exact Hin|].
    eapply IH; [eassumption|]. apply elem_of_union. now right. }
  induction pre as [|index pre IH]; intros acc w acc' w' Hall name Hin;
    inversion Hall; subst; [destruct Hin|].
  destruct Hin as [<-|Hin].
  - match goal with
    | Hc : createIndex _ _ _ = _, Hr : allCreated _ _ _ _ _ _ |- _ =>
        apply createIndex_name in Hc; subst;
        eapply Hmono; [exact Hr|]
    end.
    apply elem_of_union. left. now apply elem_of_singleton.
  - eapply IH; eassumption.
Qed.

(** X5.  When every declared index is created, the indexes are listed
    and the run returns no error, the indexes dropped are exactly the
    listed ones that are not declared and whose names do not begin with an
    underscore. *)
Theorem updateMongoIndexes_drops_obsolete
    (entity : string) (indexes : list Index) (w w1 w2 : World DB)
    (created : gset string) (existing : list string) :
  indexes <> [] ->
  allCreated entity indexes ∅ w created w1 ->
  existingIndexes entity w1 = (inr existing, w2) ->
  fst (updateMongoIndexes entity indexes w) = None ->
  exists dropped,
    calls (snd (updateMongoIndexes entity indexes w))
    = (calls w2 ++ map (CallDropOne entity) dropped)%list
    /\ forall name,
        In name dropped
        <-> In name existing /\ ~ In name (map indexName indexes)
            /\ HasPrefix name "_" = false.
Proof.
  intros Hne Hall Hlist. unfold updateMongoIndexes.
  destruct indexes as [|i0 rest] eqn:Ei; [congruence|]. rewrite <- Ei in *.
  replace (length indexes =? 0)%nat with false by (rewrite Ei; reflexivity).
  unfold bind at 1 3.
  pose proof (createLoop_allCreated _ _ _ _ _ _ [] Hall) as Hloop.
  rewrite app_nil_r in Hloop. simpl in Hloop. unfold ret in Hloop.
  rewrite Hloop. unfold bind. rewrite Hlist.
  destruct (dropLoop_calls entity existing created w2)
    as (dr & Hd & Hf & Hcomplete).
  intros Hnone. exists dr. split; [exact Hd|]. intros name. split.
  - intros Hin. rewrite Forall_forall in Hf.
    apply list_elem_of_In in Hin. destruct (Hf name Hin) as (He & Hc & Hp).
    split; [exact He|]. split; [|exact Hp].
    intros Hdecl. apply Hc. eapply allCreated_all_names; eassumption.
  - intros (He & Hdecl & Hp). apply Hcomplete; auto.
    intros Hc. apply Hdecl.
    destruct (allCreated_names _ _ _ _ _ _ Hall name Hc) as [Hempty|Hin];
      [now apply elem_of_empty in Hempty | exact Hin].
Qed.

Lemma decodeNames_inr coll docs :
  forall acc names,
    decodeNames coll docs acc = inr names
    <-> exists ns, map docName docs = map Some ns
                   /\ names = (acc ++ ns)%list.
Proof.
  induction docs as [|doc docs IH]; intros acc names; simpl.
  - split.
    + intros Heq. inversion Heq. exists []. now rewrite app_nil_r.
    + intros (ns & Hd & ->). destruct ns; [|discriminate].
      now rewrite app_nil_r.
  - destruct doc as [[n|] shown|e]; simpl.
    + rewrite IH. split.
      * intros (ns & Hd & ->). exists (n :: ns). simpl. rewrite Hd.
        split; [reflexivity | now rewrite <- app_assoc].
      * intros (ns & Hd & ->). destruct ns as [|n' ns]; [discriminate|].
        inversion Hd; subst. exists ns.
        split; [assumption | now rewrite <- app_assoc].
    + split; [discriminate|]. intros ([|n ns] & Hd & _); discriminate.
    + split; [discriminate|]. intros ([|n ns] & Hd & _); discriminate.
Qed.

(** X6.  [existingIndexes] returns names exactly when the listing
    succeeds, every document of the cursor decodes and has a string under
    "name", and the cursor ends without an error; the names are then those
    of the documents, in the order of the cursor.  In every case it makes
    one call, the listing. *)
Theorem existingIndexes_names (coll : string) (w : World DB)
    (names : list string) (w' : World DB) :
  (existingIndexes coll w = (inr names, w')
   <-> exists d docs,
        ListIndexes (db w) coll = (d, Cursor docs None)
        /\ map docName docs = map Some names
        /\ w' = mkWorld d (calls w ++ [CallList coll]))
  /\ calls (snd (existingIndexes coll w)) = (calls w ++ [CallList coll])%list.
Proof.
  split; [|apply existingIndexes_calls].
  unfold existingIndexes, bind, ret, indexesList.
  destruct (ListIndexes (db w) coll) as [d [e | docs cursorErr]].
  - split; [discriminate | intros (d' & docs' & Heq & _); discriminate].
  - destruct (decodeNames coll docs []) as [e|ns] eqn:Edec.
    + split; [discriminate|]. intros (d' & docs' & Heq & Hn & _).
      inversion Heq; subst.
      assert (Hok : decodeNames coll docs' [] = inr names).
      { apply decodeNames_inr. now exists names. }
      congruence.
    + apply decodeNames_inr in Edec as (ns' & Hdocs & Hns). simpl in Hns.
      subst ns'. destruct cursorErr as [e|].
      * split; [discriminate | intros (d' & docs' & Heq & _); discriminate].
      * split.
        -- intros Heq. inversion Heq; subst. now exists d, docs.
        -- intros (d' & docs' & Heq & Hn & ->). inversion Heq; subst.
           rewrite Hdocs in Hn.
           assert (Hinj : forall l1 l2 : list string,
                     map Some l1 = map Some l2 -> l1 = l2).
           { induction l1 as [|a l1 IHl]; intros [|b l2] Hl; try discriminate;
               [reflexivity|]. inversion Hl; subst. f_equal. now apply IHl. }
           apply Hinj in Hn. now subst.
Qed.

End ReconcileCoverage.

Lemma updateMongoIndexes_creation_error_witness :
  exists e,
    fst (Schema.updateMongoIndexes "nodes"
           ([Fixtures.uniqueX] ++ Fixtures.invalidDirection :: [])
           (MemMongo.start Fixtures.quietNodes)) = Some e
    /\ Cause e = Schema.errInvalidIndexDirection.
Proof.
  eexists. split.
  - erewrite (updateMongoIndexes_creation_error "nodes" [Fixtures.uniqueX]
                Fixtures.invalidDirection []
                (MemMongo.start Fixtures.quietNodes)).
    + reflexivity.
    + eapply Specified.allCreated_cons;
        [vm_compute; reflexivity | apply Specified.allCreated_nil].
    + vm_compute. reflexivity.
    + vm_compute. reflexivity.
  - reflexivity.
Defined.

Lemma updateMongoIndexes_drops_obsolete_witness :
  exists dropped,
    (forall name, In name dropped
                  <-> In name ["_id_"; "SL_old"; "IL_x"]
                      /\ ~ In name (map Schema.indexName [Fixtures.uniqueX])
                      /\ HasPrefix name "_" = false)
    /\ In "SL_old" dropped.
Proof.
  edestruct (updateMongoIndexes_drops_obsolete "nodes" [Fixtures.uniqueX]
               (MemMongo.start Fixtures.quietNodes))
    as (dropped & _ & Hiff).
  - discriminate.
  - eapply Specified.allCreated_cons;
      [vm_compute; reflexivity | apply Specified.allCreated_nil].
  - vm_compute. reflexivity.
  - vm_compute. reflexivity.
  - exists dropped. split; [exact Hiff|]. apply Hiff.
    split; [simpl; auto|]. split; [|reflexivity].
    simpl. intros [Heq|[]]. discriminate.
Defined.

(** ** The document of the validator *)

Section ValidatorCoverage.
Import Schema Specified.

Lemma fieldsLoop_required (fields : list Field) (gc : Case) :
  forall r d p r' d' p',
    fieldsLoop fields gc r d p = inr (r', d', p') ->
    r' = (r ++ map Name (List.filter Required fields))%list.
Proof.
  induction fields as [|f rest IH]; intros r d p r' d' p' Hrun.
  - simpl in Hrun. inversion Hrun. now rewrite app_nil_r.
  - destruct (field_checks f) as [[_ Hbad] | (_ & _ & _ & bt & _ & Hstep)].
    + destruct (Hbad rest gc r d p) as (e & He & _). congruence.
    + rewrite Hstep in Hrun. apply IH in Hrun. rewrite Hrun. simpl.
      destruct (Required f); simpl; [now rewrite <- app_assoc | reflexivity].
Qed.

Lemma last_of_name (fields : list Field) (n : string) :
  In n (map Name fields) ->
  exists pre f post,
    fields = (pre ++ f :: post)%list /\ Name f = n
    /\ ~ In n (map Name post).
Proof.
  induction fields as [|g rest IH]; intros Hin; [destruct Hin|].
  destruct (in_dec string_dec n (map Name rest)) as [Hrest|Hrest].
  - destruct (IH Hrest) as (pre & f & post & -> & Hn & Hlast).
    exists (g :: pre), f, post. auto.
  - destruct Hin as [Hg|Hin]; [|contradiction].
    exists [], g, rest. auto.
Qed.

Lemma fieldsLoop_dependents (fields : list Field) (gc : Case) :
  forall r d p r' d' p',
    fieldsLoop fields gc r d p = inr (r', d', p') ->
    (forall f, In f fields -> Dependents f <> [] -> is_Some (d' !! Name f))
    /\ (forall n ds, d' !! n = Some ds ->
          d !! n = Some ds
          \/ exists f, In f fields /\ Name f = n /\ Dependents f = ds
                       /\ ds <> [])
    /\ (forall n, is_Some (d !! n) -> is_Some (d' !! n)).
Proof.
  induction fields as [|f rest IH]; intros r d p r' d' p' Hrun.
  - simpl in Hrun. inversion Hrun; subst. split; [intros f []|]. split; auto.
  - destruct (field_checks f) as [[_ Hbad] | (_ & _ & _ & bt & _ & Hstep)].
    { destruct (Hbad rest gc r d p) as (e & He & _). congruence. }
    rewrite Hstep in Hrun.
    remember (if (0 <? length (Dependents f))%nat
              then <[Name f := Dependents f]> d else d) as d1 eqn:Ed1.
    assert (Hd1 : (forall n ds, d1 !! n = Some ds ->
                     d !! n = Some ds
                     \/ (Name f = n /\ Dependents f = ds /\ ds <> []))
                  /\ (forall n, is_Some (d !! n) -> is_Some (d1 !! n))
                  /\ (Dependents f <> [] -> is_Some (d1 !! Name f))).
    { subst d1. destruct (Dependents f) as [|x xs] eqn:Edep; simpl.
      - split; [auto|]. split; [auto|]. congruence.
      - split; [|split].
        + intros n ds Hl. destruct (decide (Name f = n)) as [Heq|Hneq].
          * subst n. rewrite lookup_insert_eq in Hl. inversion Hl; subst.
            right. repeat split. discriminate.
          * rewrite lookup_insert_ne in Hl by exact Hneq. now left.
        + intros n Hn. destruct (decide (Name f = n)) as [->|Hneq];
            [rewrite lookup_insert_eq; eauto
            | now rewrite lookup_insert_ne by exact Hneq].
        + intros _. rewrite lookup_insert_eq. eauto. }
    clear Ed1. destruct Hd1 as (Hd1from & Hd1keep & Hd1own).
    apply IH in Hrun as (Hsome & Hfrom & Hkeep).
    split; [|split].
    + intros g [<-|Hin] Hne; [|now apply Hsome]. apply Hkeep. now apply Hd1own.
    + intros n ds Hl.
      destruct (Hfrom n ds Hl) as [Hd | (g & Hin & Hn & Hds & Hne)].
      * destruct (Hd1from n ds Hd) as [Hold | (Hn & Hds & Hne)]; [now left|].
        right. exists f. repeat split; auto. now left.
      * right. exists g. repeat split; auto. now right.
    + intros n Hn. apply Hkeep. now apply Hd1keep.
Qed.

(** X7.  The validator that [BSONSchemaValidator] returns is a document
    with the single key [$jsonSchema], whose document is of BSON type
    object, copies [additionalProperties] from the schema, always has a
    [required] list, the names of the required fields in their declared
    order, empty if there is none, and has under [properties] an entry for
    the name of every field and for nothing else. *)
Theorem BSONSchemaValidator_document
    (schema : SchemaT) (globalCase : Case)
    (v : gmap string (gmap string jsonValue)) :
  BSONSchemaValidator schema globalCase = inr v ->
  exists jsonSchema properties,
    v = {[ "$jsonSchema" := jsonSchema ]}
    /\ jsonSchema !! "bsonType" = Some (JString "object")
    /\ jsonSchema !! "additionalProperties"
       = Some (JBool (AdditionalProperties schema))
    /\ jsonSchema !! "required"
       = Some (JStrings (map Name (List.filter Required (Fields schema))))
    /\ jsonSchema !! "properties" = Some (JProperties properties)
    /\ (forall n, is_Some (properties !! n) <-> In n (map Name (Fields schema))).
Proof.
  unfold BSONSchemaValidator.
  destruct (fieldsLoop (Fields schema) globalCase [] ∅ ∅)
    as [e | [[r d] p]] eqn:Eloop; [discriminate|].
  intros Hv. inversion Hv; subst v; clear Hv.
  pose proof (fieldsLoop_required _ _ _ _ _ _ _ _ Eloop) as Hr.
  simpl in Hr. subst r.
  eexists _, p. split; [reflexivity|].
  split; [destruct (0 <? size d)%nat; now simplify_map_eq|].
  split; [destruct (0 <? size d)%nat; now simplify_map_eq|].
  split; [destruct (0 <? size d)%nat; now simplify_map_eq|].
  split; [destruct (0 <? size d)%nat; now simplify_map_eq|].
  intros n. split.
  - intros Hsome.
    destruct (in_dec string_dec n (map Name (Fields schema))) as [Hin|Hout];
      [exact Hin|].
    rewrite (fieldsLoop_frame _ _ _ _ _ _ _ _ _ Eloop Hout) in Hsome.
    rewrite lookup_empty in Hsome. now destruct Hsome.
  - intros Hin. destruct (last_of_name _ _ Hin) as (pre & f & post & Hf & <- & Hlast).
    destruct (fieldsLoop_properties _ _ _ _ _ _ _ _ _ _ _ Eloop Hf Hlast)
      as (bt & _ & _ & Hp).
    rewrite Hp. eauto.
Qed.

(** X8.  The validator has [dependencies] exactly when some field has
    dependents, and then they map field names to lists of dependents that
    some field of that name declares; when no two fields share a name,
    every field with dependents is mapped to its own. *)
Theorem BSONSchemaValidator_dependencies
    (schema : SchemaT) (globalCase : Case)
    (v : gmap string (gmap string jsonValue)) :
  BSONSchemaValidator schema globalCase = inr v ->
  exists jsonSchema,
    v !! "$jsonSchema" = Some jsonSchema
    /\ ((forall f, In f (Fields schema) -> Dependents f = []) ->
        jsonSchema !! "dependencies" = None)
    /\ ((exists f, In f (Fields schema) /\ Dependents f <> []) ->
        exists dependents,
          jsonSchema !! "dependencies" = Some (JDependents dependents)
          /\ (forall n ds, dependents !! n = Some ds ->
                exists f, In f (Fields schema) /\ Name f = n
                          /\ Dependents f = ds /\ ds <> [])
          /\ (NoDup (map Name (Fields schema)) ->
              forall f, In f (Fields schema) -> Dependents f <> [] ->
                        dependents !! Name f = Some (Dependents f))).
Proof.
  unfold BSONSchemaValidator.
  destruct (fieldsLoop (Fields schema) globalCase [] ∅ ∅)
    as [e | [[r d] p]] eqn:Eloop; [discriminate|].
  intros Hv. inversion Hv; subst v; clear Hv.
  destruct (fieldsLoop_dependents _ _ _ _ _ _ _ _ Eloop)
    as (Hsome & Hfrom & _).
  assert (Hfrom' : forall n ds, d !! n = Some ds ->
            exists f, In f (Fields schema) /\ Name f = n
                      /\ Dependents f = ds /\ ds <> []).
  { intros n ds Hl. destruct (Hfrom n ds Hl) as [Hempty|Hf]; [|exact Hf].
    rewrite lookup_empty in Hempty. discriminate. }
  eexists. split; [apply lookup_singleton_eq|]. split.
  - intros Hnone.
    assert (Hd : d = ∅).
    { apply map_eq. intros n. rewrite lookup_empty.
      destruct (d !! n) as [ds|] eqn:El; [|reflexivity].
      destruct (Hfrom' n ds El) as (f & Hin & _ & Hds & Hne).
      rewrite (Hnone f Hin) in Hds. congruence. }
    subst d. rewrite map_size_empty. simpl. now simplify_map_eq.
  - intros (f & Hin & Hne).
    assert (Hsize : (0 <? size d)%nat = true).
    { apply Nat.ltb_lt. destruct (Hsome f Hin Hne) as [ds Hds].
      destruct (size d) eqn:Es; [|lia].
      apply map_size_empty_iff in Es. subst d.
      rewrite lookup_empty in Hds. discriminate. }
    rewrite Hsize. exists d. split; [apply lookup_insert_eq|].
    split; [exact Hfrom'|].
    intros Hnd g Hg Hgne. destruct (Hsome g Hg Hgne) as [ds Hds].
    rewrite Hds. destruct (Hfrom' _ _ Hds) as (g' & Hg' & Hname & <- & _).
    f_equal. f_equal.
    clear -Hnd Hg Hg' Hname. induction (Fields schema) as [|a l IH];
      [destruct Hg|].
    simpl in Hnd. apply NoDup_cons in Hnd as [Ha Hnd].
    destruct Hg as [->|Hg], Hg' as [->|Hg']; auto.
    + exfalso. apply Ha. rewrite <- Hname. apply list_elem_of_In.
      now apply in_map.
    + exfalso. apply Ha. rewrite Hname. apply list_elem_of_In.
      now apply in_map.
Qed.

End ValidatorCoverage.

Lemma BSONSchemaValidator_document_witness :
  exists v jsonSchema,
    Schema.BSONSchemaValidator Fixtures.withDependents Fixtures.lower = inr v
    /\ v = {[ "$jsonSchema" := jsonSchema ]}
    /\ jsonSchema !! "required" = Some (Schema.JStrings ["app"; "region"]).
Proof.
  set (v := match Schema.BSONSchemaValidator Fixtures.withDependents
                    Fixtures.lower with
            | inr v => v
            | inl _ => ∅
            end).
  assert (Ev : Schema.BSONSchemaValidator Fixtures.withDependents Fixtures.lower
               = inr v) by (vm_compute; reflexivity).
  destruct (BSONSchemaValidator_document _ _ v Ev)
    as (js & props & Hv & _ & _ & Hreq & _).
  exists v, js. split; [exact Ev|]. split; [exact Hv | exact Hreq].
Defined.

Lemma BSONSchemaValidator_dependencies_witness :
  exists v jsonSchema dependents,
    Schema.BSONSchemaValidator Fixtures.withDependents Fixtures.lower = inr v
    /\ v !! "$jsonSchema" = Some jsonSchema
    /\ jsonSchema !! "dependencies" = Some (Schema.JDependents dependents)
    /\ dependents !! "app" = Some ["env"; "region"].
Proof.
  set (v := match Schema.BSONSchemaValidator Fixtures.withDependents
                    Fixtures.lower with
            | inr v => v
            | inl _ => ∅
            end).
  assert (Ev : Schema.BSONSchemaValidator Fixtures.withDependents Fixtures.lower
               = inr v) by (vm_compute; reflexivity).
  destruct (BSONSchemaValidator_dependencies _ _ v Ev) as (js & Hjs & _ & Hdeps).
  destruct Hdeps as (deps & Hd & _ & Hown).
  { eexists. split; [left; reflexivity | discriminate]. }
  exists v, js, deps. split; [exact Ev|].
  split; [exact Hjs|]. split; [exact Hd|].
  assert (Hnd : NoDup (map Schema.Name (Schema.Fields Fixtures.withDependents))).
  { simpl.
    repeat (apply NoDup_cons_2;
            [ intros Hin;
              repeat (apply elem_of_cons in Hin as [Hin|Hin]; [discriminate|]);
              now apply elem_of_nil in Hin | ]).
    apply NoDup_nil_2. }
  apply (Hown Hnd (hd (Fixtures.field "" "")
                     (Schema.Fields Fixtures.withDependents))).
  - left. reflexivity.
  - discriminate.
Defined.

(** ** The validator command and the walk over the entities *)

Section WalkCoverage.
Import Schema Specified.
Context {DB : Type} `{Driver DB}.

(** X9.  [updateMongoJSONValidation] runs at most one command.  Without
    fields it turns the validation of the collection off, whatever the
    validation level of the schema says, an invalid one included.  With
    fields: when the validator cannot be built it returns the error of the
    builder, wrapped, and runs nothing; when the level is not the empty
    string, "moderate" or "strict" it returns an error and runs nothing;
    otherwise it runs exactly the command that sets the validator built by
    [BSONSchemaValidator] with the declared level, "moderate" for the empty
    string, and returns the error of the driver, wrapped, if there is
    one. *)
Theorem updateMongoJSONValidation_command
    (entity : string) (schema : SchemaT) (global : Global) (w : World DB) :
  (Fields schema = [] ->
   updateMongoJSONValidation entity schema global w
   = disableMongoJSONValidation entity w
   /\ calls (snd (updateMongoJSONValidation entity schema global w))
      = (calls w ++ [CallRunCommand (validationOff entity)])%list)
  /\ (Fields schema <> [] ->
      forall e,
        BSONSchemaValidator schema (SchemaValidationConfigCase global) = inl e ->
        updateMongoJSONValidation entity schema global w
        = (Some (Wrap e ("failed to create schema validator for " ++ entity)), w))
  /\ (Fields schema <> [] ->
      forall v,
        BSONSchemaValidator schema (SchemaValidationConfigCase global) = inr v ->
        (~ In (ValidationLevel schema) validationLevels ->
         exists e,
           updateMongoJSONValidation entity schema global w = (Some e, w))
        /\ (In (ValidationLevel schema) validationLevels ->
            let command :=
              {| collMod := entity;
                 validator := Some v;
                 validationLevel :=
                   if ValidationLevel schema =? "" then "moderate"
                   else ValidationLevel schema |} in
            updateMongoJSONValidation entity schema global w
            = (WrapNilable (snd (RunCommand (db w) command))
                 ("failed to update validator for entity " ++ entity),
               mkWorld (fst (RunCommand (db w) command))
                 (calls w ++ [CallRunCommand command])))).
Proof.
  unfold updateMongoJSONValidation.
  split; [|split].
  - intros ->. simpl. split; [reflexivity|].
    unfold disableMongoJSONValidation, bind, ret, runCommand, validationOff.
    destruct (RunCommand (db w) _) as [d [e|]]; reflexivity.
  - intros Hf e He.
    destruct (Fields schema) as [|f fs] eqn:Ef; [congruence|]. simpl.
    rewrite He. reflexivity.
  - intros Hf v Hv.
    destruct (Fields schema) as [|f fs] eqn:Ef; [congruence|]. simpl.
    rewrite Hv. unfold validationLevels. split.
    + intros Hnot.
      destruct (ValidationLevel schema =? "") eqn:E0.
      { apply String.eqb_eq in E0. exfalso. apply Hnot. rewrite E0. now left. }
      destruct (ValidationLevel schema =? "moderate") eqn:E1.
      { apply String.eqb_eq in E1. exfalso. apply Hnot. rewrite E1.
        right. now left. }
      destruct (ValidationLevel schema =? "strict") eqn:E2.
      { apply String.eqb_eq in E2. exfalso. apply Hnot. rewrite E2.
        right. right. now left. }
      simpl. eexists. reflexivity.
    + intros Hin. cbv zeta.
      assert (Hlevel : (ValidationLevel schema =? "") = true
                       \/ ((ValidationLevel schema =? "") = false
                           /\ (ValidationLevel schema =? "moderate")
                              || (ValidationLevel schema =? "strict") = true)).
      { destruct Hin as [<-|[<-|[<-|[]]]]; [left|right|right]; now vm_compute. }
      unfold defaultJSONSchemaValidationLevel, bind, ret, runCommand.
      destruct Hlevel as [->|[-> ->]];
        destruct (RunCommand (db w) _) as [d oe]; reflexivity.
Qed.

(** One turn of the loop is what [walkEntities] does with the first
    entry: an error ends the walk, and otherwise the walk goes on with the
    rest. *)
Lemma walkEntities_turn entity validations rest global (w : World DB) :
  walkEntities ((entity, validations) :: rest) global w
  = match turn entity validations global w with
    | (Some e, w1) => (Some e, w1)
    | (None, w1) => walkEntities rest global w1
    end.
Proof.
  cbn [walkEntities]. unfold turn, bind, ret.
  destruct (SchemaOf validations) as [schema|].
  - destruct (updateMongoIndexes entity (Indexes schema) w) as [[e|] w1];
      [reflexivity|].
    destruct (updateMongoJSONValidation entity schema global w1) as [[e|] w2];
      reflexivity.
  - destruct (disableMongoJSONValidation entity w) as [[e|] w1]; reflexivity.
Qed.

(** The walk over two lists of entries, one after the other. *)
Lemma walkEntities_app pre post global (w : World DB) :
  walkEntities (pre ++ post) global w
  = match walkEntities pre global w with
    | (Some e, w1) => (Some e, w1)
    | (None, w1) => walkEntities post global w1
    end.
Proof.
  revert w. induction pre as [|[entity validations] pre IH]; intros w.
  - reflexivity.
  - simpl app. rewrite !walkEntities_turn.
    destruct (turn entity validations global w) as [[e|] w1]; [reflexivity|].
    apply IH.
Qed.

(** The calls of a turn are about its entity. *)
Lemma turn_extends entity validations global (w : World DB) :
  extendsOn entity w (snd (turn entity validations global w)).
Proof.
  destruct (walkEntities_step entity validations [] global w)
    as (w1 & Hext & Hnext & _).
  rewrite walkEntities_turn in Hnext.
  destruct (turn entity validations global w) as [[e|] w2]; simpl.
  - destruct Hnext as [[err Heq]|Heq]; inversion Heq; now subst.
  - destruct Hnext as [[err Heq]|Heq]; [discriminate|].
    simpl in Heq. unfold ret in Heq. inversion Heq; now subst.
Qed.

(** X10.  [CreateOrUpdateMongoSchema] returns an error exactly when the
    turn of some entity fails after the turns of all the entities before
    it, in the order of the run, succeeded; the error is that of the turn,
    the run ends there, and every call it made is about one of the entities
    up to the failing one: the entities after it are not touched. *)
Theorem CreateOrUpdateMongoSchema_first_failure
    (order : list (string * EntitySchema)) (config : Config)
    (w : World DB) (e : error) (w2 : World DB) :
  CreateOrUpdateMongoSchema order config w = (Some e, w2)
  <-> exists pre entity validations post w1,
       order = (pre ++ (entity, validations) :: post)%list
       /\ CreateOrUpdateMongoSchema pre config w = (None, w1)
       /\ turn entity validations (GlobalCfg config) w1 = (Some e, w2)
       /\ exists new,
           calls w2 = (calls w ++ new)%list
           /\ Forall (fun c => callColl c ∈ (pre.*1 ++ [entity])%list) new.
Proof.
  unfold CreateOrUpdateMongoSchema. split.
  - revert w. induction order as [|[entity validations] rest IH]; intros w Hrun.
    + discriminate.
    + rewrite walkEntities_turn in Hrun.
      pose proof (turn_extends entity validations (GlobalCfg config) w) as Hext.
      destruct (turn entity validations (GlobalCfg config) w) as [[e1|] w1] eqn:Et;
        simpl in Hext.
      * inversion Hrun; subst. exists [], entity, validations, rest, w.
        split; [reflexivity|]. split; [reflexivity|]. split; [exact Et|].
        destruct Hext as (new & Hc & Hf). exists new. split; [exact Hc|].
        eapply Forall_impl; [exact Hf|]. simpl. intros c ->. now left.
      * apply IH in Hrun
          as (pre & en & va & post & w1' & -> & Hpre & Hturn & new & Hc & Hf).
        exists ((entity, validations) :: pre), en, va, post, w1'.
        split; [reflexivity|]. split.
        { simpl app. rewrite walkEntities_turn, Et. exact Hpre. }
        split; [exact Hturn|].
        destruct Hext as (new1 & Hc1 & Hf1). exists (new1 ++ new)%list. split.
        { rewrite Hc, Hc1. now rewrite <- app_assoc. }
        apply Forall_app. split.
        -- eapply Forall_impl; [exact Hf1|]. simpl. intros c ->. now left.
        -- eapply Forall_impl; [exact Hf|]. simpl. intros c Hin. now right.
  - intros (pre & entity & validations & post & w1 & -> & Hpre & Hturn & _).
    rewrite walkEntities_app, Hpre, walkEntities_turn, Hturn. reflexivity.
Qed.

End WalkCoverage.

(** ** The retries of the server *)

Section RetryCoverage.
Import Schema Specified Server.
Context {DB : Type} `{Driver DB}.
Variable orders : nat -> list (string * EntitySchema).
Variable config : Config.
Variable w0 : World DB.

Lemma retryLoop_success (remaining : nat) :
  forall try err k,
    (try <= k < try + remaining)%nat ->
    answerOf orders config k w0 = None ->
    (forall j, (try <= j < k)%nat -> answerOf orders config j w0 <> None) ->
    retryLoop remaining try orders config err (worldAfter orders config try w0)
    = (None, worldAfter orders config (S k) w0).
Proof.
  induction remaining as [|remaining IH]; intros try err k Hk Hok Hfail; [lia|].
  cbn [retryLoop]. unfold bind, ret.
  destruct (CreateOrUpdateMongoSchema (orders try) config
              (worldAfter orders config try w0)) as [[e|] w1] eqn:Erun.
  - assert (Htry : answerOf orders config try w0 = Some e).
    { unfold answerOf. now rewrite Erun. }
    assert (Hlt : (try < k)%nat).
    { destruct (Nat.eq_dec try k) as [->|]; [congruence | lia]. }
    replace w1 with (worldAfter orders config (S try) w0)
      by (cbn [worldAfter]; now rewrite Erun).
    apply IH; [lia | exact Hok |]. intros j Hj. apply Hfail. lia.
  - assert (Htry : answerOf orders config try w0 = None).
    { unfold answerOf. now rewrite Erun. }
    assert (Heq : k = try).
    { destruct (Nat.eq_dec try k) as [->|Hne]; [reflexivity|].
      exfalso. apply (Hfail try); [lia | exact Htry]. }
    subst k. cbn [worldAfter]. now rewrite Erun.
Qed.

Lemma retryLoop_failure (remaining : nat) :
  forall try err,
    (forall j, (try <= j < try + remaining)%nat ->
               answerOf orders config j w0 <> None) ->
    retryLoop remaining try orders config err (worldAfter orders config try w0)
    = (WrapNilable
         (match remaining with
          | O => err
          | S r => answerOf orders config (try + r) w0
          end)
         ("failed to run DDL after " ++ Itoa (Z.of_nat (try + remaining))
            ++ " tries"),
       worldAfter orders config (try + remaining) w0).
Proof.
  induction remaining as [|remaining IH]; intros try err Hfail.
  - cbn [retryLoop]. unfold ret. now rewrite Nat.add_0_r.
  - cbn [retryLoop]. unfold bind, ret.
    destruct (CreateOrUpdateMongoSchema (orders try) config
                (worldAfter orders config try w0)) as [[e|] w1] eqn:Erun.
    + assert (Htry : answerOf orders config try w0 = Some e).
      { unfold answerOf. now rewrite Erun. }
      replace w1 with (worldAfter orders config (S try) w0)
        by (cbn [worldAfter]; now rewrite Erun).
      rewrite IH by (intros j Hj; apply Hfail; lia).
      replace (S try + remaining)%nat with (try + S remaining)%nat by lia.
      f_equal. f_equal. destruct remaining as [|r].
      * now rewrite Nat.add_0_r.
      * f_equal. lia.
    + exfalso. apply (Hfail try); [lia|]. unfold answerOf. now rewrite Erun.
Qed.

(** X11.  [runSchemaDDL] tries [CreateOrUpdateMongoSchema] up to five
    times, each try on the database as the one before left it.  It stops at
    the first try that returns no error, and then returns none; when all
    five tries fail it returns the error of the fifth, wrapped with the
    count of the tries.  It never makes a sixth try. *)
Theorem runSchemaDDL_retries :
  (forall k,
      (k < 5)%nat ->
      answerOf orders config k w0 = None ->
      (forall j, (j < k)%nat -> answerOf orders config j w0 <> None) ->
      runSchemaDDL orders config w0 = (None, worldAfter orders config (S k) w0))
  /\ ((forall j, (j < 5)%nat -> answerOf orders config j w0 <> None) ->
      exists e,
        answerOf orders config 4 w0 = Some e
        /\ runSchemaDDL orders config w0
           = (Some (Wrap e "failed to run DDL after 5 tries"),
              worldAfter orders config 5 w0)).
Proof.
  unfold runSchemaDDL. split.
  - intros k Hk Hok Hfail.
    apply (retryLoop_success 5 0 None k); [lia | exact Hok |].
    intros j Hj. apply Hfail. lia.
  - intros Hfail.
    destruct (answerOf orders config 4 w0) as [e|] eqn:E4;
      [|exfalso; apply (Hfail 4%nat); [lia | exact E4]].
    exists e. split; [reflexivity|].
    change w0 with (worldAfter orders config 0 w0) at 1.
    rewrite (retryLoop_failure 5 0 None) by (intros j Hj; apply Hfail; lia).
    cbn [Nat.add]. rewrite E4. reflexivity.
Qed.

End RetryCoverage.

(** A run that gives up: the only entity has a nil schema and its
    collection does not exist, so the command that turns the validation off
    fails at each of the five tries. *)
Lemma runSchemaDDL_gives_up :
  option_map Error
    (fst (Server.runSchemaDDL
            (fun _ => [("hosts", {| Schema.SchemaOf := None |})])
            Fixtures.onlyHosts (MemMongo.start ∅)))
  = Some "failed to run DDL after 5 tries: failed to remove JSON schema validation for entity hosts: (NamespaceNotFound) ns does not exist"
  /\ Schema.calls
       (snd (Server.runSchemaDDL
               (fun _ => [("hosts", {| Schema.SchemaOf := None |})])
               Fixtures.onlyHosts (MemMongo.start ∅)))
     = repeat (Schema.CallRunCommand (Specified.validationOff "hosts")) 5.
Proof. split; vm_compute; reflexivity. Qed.

(** ** The pattern of the lower case rule *)

Section LowerCaseCoverage.
Import Schema Regex Specified.

Lemma parse_regexLowerCase :
  parsePattern regexLowerCase
  = Some (Plus (Chars [CRange "a" "z"; CRange "0" "9"; CNotWord;
                       CRange "_" "_"])).
Proof. vm_compute. reflexivity. Qed.

Lemma lowerCaseClass_char (c : ascii) :
  existsb (matchItem c)
    [CRange "a" "z"; CRange "0" "9"; CNotWord; CRange "_" "_"]
  = negb (between "A" "Z" c).
Proof.
  destruct c as [[] [] [] [] [] [] [] []]; vm_compute; reflexivity.
Qed.

Lemma Matches_Star_class (items : list classItem) (s : list ascii) :
  Matches (Star (Chars items)) s
  <-> Forall (fun c => existsb (matchItem c) items = true) s.
Proof.
  split.
  - remember (length s) as n eqn:Hn. revert s Hn.
    induction n as [n IH] using lt_wf_ind. intros s Hn Hm.
    destruct s as [|c s]; [constructor|].
    apply Matches_Star_cons in Hm as (s1 & s2 & -> & H1 & H2).
    apply Matches_class in H1 as (c' & Heq & Hc). inversion Heq; subst.
    constructor; [exact Hc|]. simpl.
    eapply IH; [|reflexivity|exact H2]. simpl. lia.
  - induction 1 as [|c s Hc _ IH]; [constructor|].
    change (c :: s) with ([c] ++ s)%list. constructor; [|exact IH].
    now constructor.
Qed.

(** X12.  The pattern of the lower case rule can be read, and the strings
    it accepts are the non-empty strings without an upper case letter A to
    Z: digits, punctuation, spaces and bytes beyond ASCII all pass. *)
Theorem regexLowerCase_language (s : string) :
  matchPattern regexLowerCase s = Some (noUpperCase s).
Proof.
  unfold matchPattern. rewrite parse_regexLowerCase. f_equal.
  unfold noUpperCase. cbv zeta.
  apply eq_true_iff_eq. rewrite matchList_Matches. unfold Plus.
  rewrite Matches_Seq, andb_true_iff, Nat.ltb_lt, forallb_forall.
  split.
  - intros (s1 & s2 & Hs & H1 & H2).
    apply Matches_class in H1 as (c & -> & Hc).
    apply Matches_Star_class in H2. rewrite Hs. split; [simpl; lia|].
    intros x [<-|Hin].
    + now rewrite <- lowerCaseClass_char.
    + rewrite <- lowerCaseClass_char. rewrite Forall_forall in H2.
      apply H2. now apply list_elem_of_In.
  - intros [Hne Hall].
    destruct (list_ascii_of_string s) as [|c l]; [simpl in Hne; lia|].
    exists [c], l. split; [reflexivity|]. split.
    + apply Matches_class. exists c. split; [reflexivity|].
      rewrite lowerCaseClass_char. apply Hall. now left.
    + apply Matches_Star_class. apply Forall_forall. intros x Hin.
      rewrite lowerCaseClass_char. apply Hall. right.
      now apply list_elem_of_In.
Qed.

End LowerCaseCoverage.

(** ** The entity client *)

Section EscapeCoverage.
Import Client Specified.

Lemma escapeByte_cases (c : ascii) :
  (unreserved c = true /\ escapeByte c = [c])
  \/ (c = " "%char /\ escapeByte c = ["+"%char])
  \/ (unreserved c = false /\ c <> " "%char
      /\ exists h l, escapeByte c = ["%"%char; h; l]
                     /\ unreserved h = true /\ unreserved l = true
                     /\ hexValue h = Some (Nat.div (nat_of_ascii c) 16)
                     /\ hexValue l = Some (Nat.modulo (nat_of_ascii c) 16)).
Proof.
  destruct c as [[] [] [] [] [] [] [] []];
    first [ left; split; vm_compute; reflexivity
          | right; left; split; vm_compute; reflexivity
          | right; right; split; [vm_compute; reflexivity|];
            split; [discriminate|];
            eexists _, _; repeat split; vm_compute; reflexivity ].
Qed.

Lemma unreserved_plain (c : ascii) :
  unreserved c = true -> c <> "%"%char /\ c <> "+"%char.
Proof.
  destruct c as [[] [] [] [] [] [] [] []]; intros Hc;
    try discriminate; split; discriminate.
Qed.

Lemma unescapeList_plain (c : ascii) (rest : list ascii) :
  c <> "%"%char -> c <> "+"%char ->
  unescapeList (c :: rest) = option_map (cons c) (unescapeList rest).
Proof.
  intros Hp Hq.
  destruct c as [[] [] [] [] [] [] [] []]; try reflexivity; congruence.
Qed.

Lemma unescapeList_escape (l : list ascii) :
  unescapeList (flat_map escapeByte l) = Some l.
Proof.
  induction l as [|c l IH]; [reflexivity|].
  cbn [flat_map].
  destruct (escapeByte_cases c)
    as [[Hu ->] | [[-> ->] | (Hu & Hs & h & lo & -> & _ & _ & Hh & Hl)]].
  - destruct (unreserved_plain c Hu) as [Hp Hq].
    cbn [app]. rewrite unescapeList_plain by assumption. now rewrite IH.
  - cbn [app unescapeList]. now rewrite IH.
  - cbn [app unescapeList]. rewrite Hh, Hl, IH. f_equal. f_equal.
    rewrite <- (ascii_nat_embedding c) at 3. f_equal.
    symmetry. apply Nat.div_mod_eq.
Qed.

Lemma list_ascii_of_string_length (s : string) :
  length (list_ascii_of_string s) = String.length s.
Proof. induction s as [|c s IH]; simpl; [reflexivity | now rewrite IH]. Qed.

Lemma list_ascii_of_string_app (s1 s2 : string) :
  list_ascii_of_string (s1 ++ s2)
  = (list_ascii_of_string s1 ++ list_ascii_of_string s2)%list.
Proof.
  induction s1 as [|c s1 IH]; [reflexivity|].
  change (String c s1 ++ s2) with (String c (s1 ++ s2)).
  simpl. now rewrite IH.
Qed.

Lemma string_of_list_ascii_app (l1 l2 : list ascii) :
  string_of_list_ascii (l1 ++ l2)
  = string_of_list_ascii l1 ++ string_of_list_ascii l2.
Proof.
  induction l1 as [|c l1 IH]; [reflexivity|].
  simpl string_of_list_ascii. rewrite IH. reflexivity.
Qed.

Lemma escapeByte_length (c : ascii) :
  (1 <= length (escapeByte c) <= 3)%nat.
Proof.
  destruct (escapeByte_cases c)
    as [[_ ->] | [[_ ->] | (_ & _ & h & l & -> & _)]]; simpl; lia.
Qed.

Lemma escapeByte_chars (c : ascii) :
  Forall (fun x => unreserved x = true \/ x = "+"%char \/ x = "%"%char)
    (escapeByte c).
Proof.
  destruct (escapeByte_cases c)
    as [[Hu ->] | [[_ ->] | (_ & _ & h & l & -> & Hh & Hl & _)]].
  - constructor; [now left | constructor].
  - constructor; [right; now left | constructor].
  - constructor; [right; now right|].
    constructor; [now left|]. constructor; [now left | constructor].
Qed.

(** X13.  What [url.QueryEscape] writes holds letters, digits, the marks
    [-], [_], [.], [~], the plus sign and the percent sign only; it is at
    least as long as the text and at most three times as long; a text of
    letters, digits and marks is left as it is; and the escape of a text in
    two parts is that of the parts, one after the other. *)
Theorem QueryEscape_shape (s : string) :
  Forall (fun c => unreserved c = true \/ c = "+"%char \/ c = "%"%char)
    (list_ascii_of_string (QueryEscape s))
  /\ (String.length s <= String.length (QueryEscape s) <= 3 * String.length s)%nat
  /\ (forallb unreserved (list_ascii_of_string s) = true -> QueryEscape s = s)
  /\ (forall s2, QueryEscape (s ++ s2) = QueryEscape s ++ QueryEscape s2).
Proof.
  unfold QueryEscape. split; [|split; [|split]].
  - rewrite list_ascii_of_string_of_list_ascii.
    induction (list_ascii_of_string s) as [|c l IH]; [constructor|].
    cbn [flat_map]. apply Forall_app. split; [apply escapeByte_chars | exact IH].
  - rewrite <- !list_ascii_of_string_length.
    rewrite list_ascii_of_string_of_list_ascii.
    induction (list_ascii_of_string s) as [|c l IH]; [simpl; lia|].
    cbn [flat_map]. rewrite length_app. pose proof (escapeByte_length c).
    simpl length. lia.
  - intros Hall. rewrite <- (string_of_list_ascii_of_string s) at 2. f_equal.
    induction (list_ascii_of_string s) as [|c l IH]; [reflexivity|].
    simpl in Hall. apply andb_true_iff in Hall as [Hc Hl].
    cbn [flat_map]. unfold escapeByte at 1. rewrite Hc. simpl.
    now rewrite IH.
  - intros s2. rewrite list_ascii_of_string_app, flat_map_app.
    apply string_of_list_ascii_app.
Qed.

Lemma append_cancel_l (p a b : string) : p ++ a = p ++ b -> a = b.
Proof.
  induction p as [|c p IH]; [trivial|].
  change (String c p ++ a) with (String c (p ++ a)).
  change (String c p ++ b) with (String c (p ++ b)).
  intros Heq. inversion Heq. now apply IH.
Qed.

(** X14.  Nothing of the text is lost in the escape: reading the plus
    sign as a space and a percent sign with two hexadecimal digits as the
    byte they write gives the text back, so two texts with the same escape
    are the same; and so the request of a query that goes by GET tells the
    query: two queries with the same request are the same. *)
Theorem QueryEscape_round_trip (s : string) :
  unescapeQuery (QueryEscape s) = Some s
  /\ (forall s2, QueryEscape s = QueryEscape s2 -> s = s2)
  /\ (forall c s2,
        requestOf c "GET" ("/entities/" ++ entityType c ++ "?" ++ QueryEscape s)
          None
        = requestOf c "GET"
            ("/entities/" ++ entityType c ++ "?" ++ QueryEscape s2) None ->
        s = s2).
Proof.
  assert (Hback : forall t, unescapeQuery (QueryEscape t) = Some t).
  { intros t. unfold unescapeQuery, QueryEscape.
    rewrite list_ascii_of_string_of_list_ascii, unescapeList_escape.
    simpl. now rewrite string_of_list_ascii_of_string. }
  assert (Hinj : forall s2, QueryEscape s = QueryEscape s2 -> s = s2).
  { intros s2 Heq. pose proof (Hback s) as H1. rewrite Heq, Hback in H1.
    congruence. }
  split; [apply Hback|]. split; [exact Hinj|].
  intros c s2 Heq. apply Hinj.
  unfold requestOf, url in Heq. inversion Heq as [Hurl].
  repeat apply append_cancel_l in Hurl. exact Hurl.
Qed.

End EscapeCoverage.

Section ClientCoverage.
Import Client Specified.
Context {T WriteResult : Type} `{Transport T} `{Codec WriteResult}.

(** What [do] does: when the request cannot be made it sends nothing and
    returns the error of [http.NewRequest]; otherwise it sends the request,
    once, and returns the status code and the body of the answer, or the
    error of the sending or of the reading. *)
Lemma do_cases (c : entityClient) (method endpoint : string)
    (payload : option string) (n : Net T) :
  (exists e, NewRequestError method (url c endpoint) = Some e
             /\ do c method endpoint payload n = (inl (Foreign e), n))
  \/ (NewRequestError method (url c endpoint) = None
      /\ exists t answer,
          Do (net n) (requestOf c method endpoint payload) = (t, answer)
          /\ snd (do c method endpoint payload n)
             = mkNet t (sent n ++ [requestOf c method endpoint payload])
          /\ fst (do c method endpoint payload n)
             = match answer with
               | inl err => inl (Errorf ("http.Client.Do: " ++ Error err))
               | inr resp =>
                   match Body resp with
                   | inl err => inl (Errorf ("ioutil.ReadAll: " ++ Error err))
                   | inr body => inr (StatusCode resp, body)
                   end
               end).
Proof.
  unfold do.
  destruct (NewRequestError method (url c endpoint)) as [e|].
  - left. now exists e.
  - right. split; [reflexivity|].
    destruct (Do (net n) (requestOf c method endpoint payload)) as [t answer].
    exists t, answer. split; [reflexivity|].
    destruct answer as [err|resp]; [now split|].
    destruct (Body resp); now split.
Qed.

Lemma do_no_sentinel (c : entityClient) (method endpoint : string)
    (payload : option string) (n : Net T) (err : ClientError) :
  fst (do c method endpoint payload n) = inl err -> isSentinel err = false.
Proof.
  destruct (do_cases c method endpoint payload n)
    as [(e & _ & ->) | (_ & t & answer & _ & _ & ->)].
  - simpl. intros Heq. inversion Heq. reflexivity.
  - destruct answer as [e|resp].
    + intros Heq. inversion Heq. reflexivity.
    + destruct (Body resp); intros Heq; inversion Heq. reflexivity.
Qed.

Lemma do_sent (c : entityClient) (method endpoint : string)
    (payload : option string) (n : Net T) :
  sent (snd (do c method endpoint payload n)) = sent n
  \/ sent (snd (do c method endpoint payload n))
     = (sent n ++ [requestOf c method endpoint payload])%list.
Proof.
  destruct (do_cases c method endpoint payload n)
    as [(e & _ & ->) | (_ & t & answer & _ & -> & _)]; [now left | now right].
Qed.

Lemma okStatus_cases (status : Z) :
  (negb (status =? 200)%Z && negb (status =? 201)%Z = false
   /\ (status = 200 \/ status = 201))
  \/ (negb (status =? 200)%Z && negb (status =? 201)%Z = true
      /\ status <> 200 /\ status <> 201).
Proof.
  destruct (status =? 200)%Z eqn:E1; [left; split; [reflexivity|left; lia]|].
  destruct (status =? 201)%Z eqn:E2; [left; split; [reflexivity|right; lia]|].
  right. split; [reflexivity|]. lia.
Qed.

(** X15.  A write sends at most one request, and none when the entities
    cannot be put in JSON: the request has the method and the endpoint it
    was given, under the address of the client and the root of the API, and
    carries the entities in JSON, or no body when there is no entity.  It
    succeeds exactly when the request can be made and sent, the answer has
    status 200 or 201, and the body of the answer is a list of write
    results, which it returns.  With any other status the error is the API
    error of the answer.  An error is never one of the error values of the
    package, and comes without results. *)
Theorem write_outcome (c : entityClient) (entities : list Entity.EntityT)
    (method endpoint : string) (n : Net T) :
  (forall err,
      snd (fst (write c entities method endpoint n)) = Some err ->
      isSentinel err = false /\ fst (fst (write c entities method endpoint n)) = [])
  /\ (sent (snd (write c entities method endpoint n)) = sent n
      \/ exists payload,
          marshalled entities = inr payload
          /\ sent (snd (write c entities method endpoint n))
             = (sent n ++ [requestOf c method endpoint payload])%list)
  /\ (forall wr n',
        write c entities method endpoint n = ((wr, None), n')
        <-> exists payload t status body,
             marshalled entities = inr payload
             /\ NewRequestError method (url c endpoint) = None
             /\ Do (net n) (requestOf c method endpoint payload)
                = (t, inr {| StatusCode := status; Body := inr body |})
             /\ (status = 200 \/ status = 201)
             /\ UnmarshalWriteResults body = inr wr
             /\ n' = mkNet t (sent n ++ [requestOf c method endpoint payload]))
  /\ (forall payload t status body,
        marshalled entities = inr payload ->
        NewRequestError method (url c endpoint) = None ->
        Do (net n) (requestOf c method endpoint payload)
        = (t, inr {| StatusCode := status; Body := inr body |}) ->
        status <> 200 -> status <> 201 ->
        write c entities method endpoint n
        = (([], Some (apiError status body)),
           mkNet t (sent n ++ [requestOf c method endpoint payload]))).
Proof.
  unfold write.
  destruct (marshalled entities) as [merr|payload] eqn:Em.
  { unfold retN. simpl. split; [|split; [|split]].
    - intros err Heq. inversion Heq. now split.
    - now left.
    - intros wr n'. split; [discriminate|].
      intros (p & _ & _ & _ & Hp & _). discriminate.
    - intros p t status body Hp. discriminate. }
  unfold bindN, retN.
  destruct (do_cases c method endpoint payload n)
    as [(e & Hnew & Hdo) | (Hnew & t & answer & HDo & Hsnd & Hfst)].
  { rewrite Hdo. simpl. split; [|split; [|split]].
    - intros err Heq. inversion Heq. now split.
    - now left.
    - intros wr n'. split; [discriminate|].
      intros (p & _ & _ & _ & _ & Hn & _). congruence.
    - intros p t status body Hp Hn. congruence. }
  destruct (do c method endpoint payload n) as [r n1]. simpl in Hsnd, Hfst.
  subst n1 r.
  split; [|split; [|split]].
  - intros err. destruct answer as [e|resp].
    + simpl. intros Heq. inversion Heq. now split.
    + destruct (Body resp) as [e|body].
      * simpl. intros Heq. inversion Heq. now split.
      * destruct (okStatus_cases (StatusCode resp)) as [[-> _]|[-> _]].
        -- destruct (UnmarshalWriteResults body); simpl; intros Heq;
             inversion Heq. now split.
        -- simpl. intros Heq. inversion Heq. unfold apiError.
           destruct (ErrType _ =? ""); now split.
  - right. exists payload. split; [reflexivity|].
    destruct answer as [e|resp]; [reflexivity|].
    destruct (Body resp) as [e|body]; [reflexivity|].
    destruct (negb _ && negb _); [reflexivity|].
    destruct (UnmarshalWriteResults body); reflexivity.
  - intros wr n'. split.
    + destruct answer as [e|[status [e|body]]]; simpl; try discriminate.
      destruct (okStatus_cases status) as [[-> Hs]|[-> _]]; [|discriminate].
      destruct (UnmarshalWriteResults body) as [e|wr'] eqn:Eu; [discriminate|].
      intros Heq. inversion Heq; subst.
      exists payload, t, status, body. now repeat split.
    + intros (p & t' & status & body & Hp & _ & HDo' & Hs & Hu & ->).
      inversion Hp; subst p. rewrite HDo in HDo'. inversion HDo'; subst.
      simpl. destruct (okStatus_cases status) as [[-> _]|[_ [H1 H2]]];
        [|lia].
      now rewrite Hu.
  - intros p t' status body Hp _ HDo' H1 H2.
    inversion Hp; subst p. rewrite HDo in HDo'. inversion HDo'; subst.
    simpl. destruct (okStatus_cases status) as [[_ Hs]|[-> _]]; [lia|].
    reflexivity.
Qed.

Lemma write_no_sentinel (c : entityClient) (entities : list Entity.EntityT)
    (method endpoint : string) (n : Net T) (wr : list WriteResult)
    (err : ClientError) (n' : Net T) :
  write c entities method endpoint n = ((wr, Some err), n') ->
  isSentinel err = false.
Proof.
  intros Hrun.
  destruct (write_outcome c entities method endpoint n) as (Herr & _).
  apply (Herr err). now rewrite Hrun.
Qed.

Lemma typeMismatch_false (c : entityClient) (e : Entity.EntityT) :
  typeMismatch c e = false
  <-> (e !! META_LABEL_TYPE = None
       \/ e !! META_LABEL_TYPE = Some (Entity.VString (entityType c))).
Proof.
  unfold typeMismatch. destruct (e !! META_LABEL_TYPE) as [v|].
  - rewrite negb_false_iff, bool_decide_eq_true. split.
    + intros ->. now right.
    + intros [Hn|Hs]; [discriminate | congruence].
  - split; [now left | reflexivity].
Qed.

Lemma is_Some_bool_false {A : Type} (o : option A) :
  is_Some_bool o = false <-> o = None.
Proof. destruct o; simpl; split; congruence. Qed.

Lemma checkInsert_None (c : entityClient) (entities : list Entity.EntityT) :
  checkInsert c entities = None <-> Forall (insertable c) entities.
Proof.
  induction entities as [|e rest IH]; simpl.
  - split; [constructor | reflexivity].
  - destruct (is_Some_bool (e !! META_LABEL_ID)) eqn:Eid.
    + split; [discriminate|]. intros Hall. inversion Hall as [|? ? [Hno _] _].
      rewrite Hno in Eid. discriminate.
    + apply is_Some_bool_false in Eid.
      destruct (typeMismatch c e) eqn:Et.
      * split; [discriminate|]. intros Hall. inversion Hall as [|? ? [_ Hty] _].
        apply typeMismatch_false in Hty. congruence.
      * apply typeMismatch_false in Et. rewrite IH. split.
        -- intros Hall. constructor; [now split | exact Hall].
        -- intros Hall. now inversion Hall.
Qed.

Lemma checkInsert_first (c : entityClient) (pre : list Entity.EntityT)
    (e : Entity.EntityT) (post : list Entity.EntityT) :
  Forall (insertable c) pre ->
  checkInsert c (pre ++ e :: post)
  = if is_Some_bool (e !! META_LABEL_ID) then Some ErrIdSet
    else if typeMismatch c e then Some ErrTypeMismatch
    else checkInsert c post.
Proof.
  induction 1 as [|e' pre [Hid Hty] _ IH]; [reflexivity|].
  simpl. rewrite Hid. simpl.
  apply typeMismatch_false in Hty. now rewrite Hty.
Qed.

(** X16.  Insert checks the batch before it sends anything.  An empty
    batch is refused with [ErrNoEntity].  Otherwise the first entity that
    is not acceptable decides: with an id it is [ErrIdSet], and without an
    id but with a type label that is not the type of the client, as a
    string, it is [ErrTypeMismatch].  In these cases nothing is sent.  A
    non-empty batch of acceptable entities is written with POST to the
    entities of the type.  Whenever Insert returns one of the error values
    of the package, nothing was sent. *)
Theorem Insert_checks (c : entityClient) (entities : list Entity.EntityT)
    (n : Net T) :
  (entities = [] -> Insert c entities n = (([], Some ErrNoEntity), n))
  /\ (forall pre e post,
        entities = (pre ++ e :: post)%list ->
        Forall (insertable c) pre ->
        (is_Some (e !! META_LABEL_ID) ->
         Insert c entities n = (([], Some ErrIdSet), n))
        /\ (e !! META_LABEL_ID = None ->
            e !! META_LABEL_TYPE <> None ->
            e !! META_LABEL_TYPE <> Some (Entity.VString (entityType c)) ->
            Insert c entities n = (([], Some ErrTypeMismatch), n)))
  /\ (entities <> [] ->
      Forall (insertable c) entities ->
      Insert c entities n
      = write c entities "POST" ("/entities/" ++ entityType c) n)
  /\ (forall err,
        snd (fst (Insert c entities n)) = Some err ->
        isSentinel err = true ->
        snd (Insert c entities n) = n).
Proof.
  unfold Insert. split; [|split; [|split]].
  - intros ->. reflexivity.
  - intros pre e post -> Hpre.
    replace (length (pre ++ e :: post) =? 0)%nat with false
      by (symmetry; apply Nat.eqb_neq; rewrite length_app; simpl; lia).
    rewrite (checkInsert_first c pre e post Hpre). split.
    + intros [v Hv]. rewrite Hv. reflexivity.
    + intros Hid Hn Hs. rewrite Hid. simpl.
      destruct (typeMismatch c e) eqn:Et; [reflexivity|].
      apply typeMismatch_false in Et as [Ht|Ht]; congruence.
  - intros Hne Hall.
    destruct entities as [|e rest]; [congruence|]. cbn [length Nat.eqb].
    apply checkInsert_None in Hall. now rewrite Hall.
  - intros err.
    destruct (length entities =? 0)%nat; [reflexivity|].
    destruct (checkInsert c entities); [reflexivity|].
    destruct (write c entities "POST" ("/entities/" ++ entityType c) n)
      as [[wr oe] n'] eqn:Ew.
    simpl. intros -> Hs. apply write_no_sentinel in Ew. congruence.
Qed.

Lemma checkUpdate_None (c : entityClient) (patch : list Entity.EntityT) :
  checkUpdate c patch = None <-> Forall (patchable c) patch.
Proof.
  induction patch as [|e rest IH]; simpl.
  - split; [constructor | reflexivity].
  - destruct (e !! META_LABEL_ID) as [v|] eqn:Eid; simpl.
    + destruct (typeMismatch c e) eqn:Et.
      * split; [discriminate|]. intros Hall. inversion Hall as [|? ? [_ Hty] _].
        apply typeMismatch_false in Hty. congruence.
      * apply typeMismatch_false in Et. rewrite IH. split.
        -- intros Hall. constructor; [|exact Hall].
           split; [rewrite Eid; now eexists | exact Et].
        -- intros Hall. now inversion Hall.
    + split; [discriminate|]. intros Hall.
      inversion Hall as [|? ? [[v Hv] _] _]. congruence.
Qed.

Lemma checkUpdate_first (c : entityClient) (pre : list Entity.EntityT)
    (e : Entity.EntityT) (post : list Entity.EntityT) :
  Forall (patchable c) pre ->
  checkUpdate c (pre ++ e :: post)
  = if negb (is_Some_bool (e !! META_LABEL_ID)) then Some ErrIdNotSet
    else if typeMismatch c e then Some ErrTypeMismatch
    else checkUpdate c post.
Proof.
  induction 1 as [|e' pre [[v Hid] Hty] _ IH]; [reflexivity|].
  simpl. rewrite Hid. simpl.
  apply typeMismatch_false in Hty. now rewrite Hty.
Qed.

Lemma eqb_empty_false (s : string) : s <> "" -> (s =? "") = false.
Proof. intros Hs. now apply String.eqb_neq. Qed.

(** X17.  Update checks its arguments, in this order, before it sends
    anything: an empty query is [ErrNoQuery], whatever the patch; an empty
    patch is [ErrNoEntity]; and the first entity of the patch that is not
    acceptable decides: without an id it is [ErrIdNotSet], and with an id
    but with a type label that is not the type of the client it is
    [ErrTypeMismatch].  A non-empty patch of acceptable entities is written
    with PUT to the entities of the type, the escaped query after the
    question mark.  Whenever Update returns one of the error values of the
    package, nothing was sent. *)
Theorem Update_checks (c : entityClient) (query : string)
    (patch : list Entity.EntityT) (n : Net T) :
  (query = "" -> Update c query patch n = (([], Some ErrNoQuery), n))
  /\ (query <> "" -> patch = [] ->
      Update c query patch n = (([], Some ErrNoEntity), n))
  /\ (query <> "" ->
      forall pre e post,
        patch = (pre ++ e :: post)%list ->
        Forall (patchable c) pre ->
        (e !! META_LABEL_ID = None ->
         Update c query patch n = (([], Some ErrIdNotSet), n))
        /\ (is_Some (e !! META_LABEL_ID) ->
            e !! META_LABEL_TYPE <> None ->
            e !! META_LABEL_TYPE <> Some (Entity.VString (entityType c)) ->
            Update c query patch n = (([], Some ErrTypeMismatch), n)))
  /\ (query <> "" -> patch <> [] ->
      Forall (patchable c) patch ->
      Update c query patch n
      = write c patch "PUT"
          ("/entities/" ++ entityType c ++ "?" ++ QueryEscape query) n)
  /\ (forall err,
        snd (fst (Update c query patch n)) = Some err ->
        isSentinel err = true ->
        snd (Update c query patch n) = n).
Proof.
  unfold Update. split; [|split; [|split; [|split]]].
  - intros ->. reflexivity.
  - intros Hq ->. now rewrite (eqb_empty_false _ Hq).
  - intros Hq pre e post -> Hpre. rewrite (eqb_empty_false _ Hq).
    replace (length (pre ++ e :: post) =? 0)%nat with false
      by (symmetry; apply Nat.eqb_neq; rewrite length_app; simpl; lia).
    rewrite (checkUpdate_first c pre e post Hpre). split.
    + intros ->. reflexivity.
    + intros [v Hv] Hn Hs. rewrite Hv. simpl.
      destruct (typeMismatch c e) eqn:Et; [reflexivity|].
      apply typeMismatch_false in Et as [Ht|Ht]; congruence.
  - intros Hq Hne Hall. rewrite (eqb_empty_false _ Hq).
    destruct patch as [|e rest]; [congruence|]. cbn [length Nat.eqb].
    apply checkUpdate_None in Hall. now rewrite Hall.
  - intros err.
    destruct (query =? ""); [reflexivity|].
    destruct (length patch =? 0)%nat; [reflexivity|].
    destruct (checkUpdate c patch); [reflexivity|].
    destruct (write c patch "PUT" _ n) as [[wr oe] n'] eqn:Ew.
    simpl. intros -> Hs. apply write_no_sentinel in Ew. congruence.
Qed.

Lemma QueryEscape_app (s1 s2 : string) :
  QueryEscape (s1 ++ s2) = QueryEscape s1 ++ QueryEscape s2.
Proof. apply QueryEscape_shape. Qed.

Lemma id_query_nonempty (id : string) : ("_id=" ++ id =? "") = false.
Proof. reflexivity. Qed.

Lemma id_query_escaped (id : string) :
  QueryEscape ("_id=" ++ id) = "_id%3D" ++ QueryEscape id.
Proof. rewrite QueryEscape_app. reflexivity. Qed.

(** X18.  UpdateOne needs the id twice: as its argument, and as the id
    label of the patch; without either it returns [ErrIdNotSet] and sends
    nothing.  With both, and a patch whose type label, if any, is the type
    of the client, it writes the patch with PUT, the query being the
    escape of [_id=] and the id, in which the equals sign is escaped too.
    It returns the first write result of the answer, and it panics exactly
    when the write succeeds with an empty list of results. *)
Theorem UpdateOne_outcome (c : entityClient) (id : string)
    (patch : Entity.EntityT) (n : Net T) :
  (id = "" \/ patch !! META_LABEL_ID = None ->
   UpdateOne c id patch n = (Returned zeroWriteResult (Some ErrIdNotSet), n))
  /\ (id <> "" -> patchable c patch ->
      UpdateOne c id patch n
      = (firstResult
           (fst (write c [patch] "PUT"
                   ("/entities/" ++ entityType c ++ "?_id%3D" ++ QueryEscape id)
                   n)),
         snd (write c [patch] "PUT"
                ("/entities/" ++ entityType c ++ "?_id%3D" ++ QueryEscape id) n)))
  /\ (forall n',
        UpdateOne c id patch n = (Panicked, n')
        <-> id <> "" /\ patchable c patch
            /\ write c [patch] "PUT"
                 ("/entities/" ++ entityType c ++ "?_id%3D" ++ QueryEscape id) n
               = (([], None), n'))
  /\ (forall wr rest n',
        id <> "" -> patchable c patch ->
        write c [patch] "PUT"
          ("/entities/" ++ entityType c ++ "?_id%3D" ++ QueryEscape id) n
        = ((wr :: rest, None), n') ->
        UpdateOne c id patch n = (Returned wr None, n')).
Proof.
  assert (Hno : patch !! META_LABEL_ID = None -> id <> "" ->
                UpdateOne c id patch n
                = (Returned zeroWriteResult (Some ErrIdNotSet), n)).
  { intros Hp Hid. unfold UpdateOne, bindN, retN.
    rewrite (eqb_empty_false _ Hid).
    destruct (Update_checks c ("_id=" ++ id) [patch] n) as (_ & _ & Hfirst & _).
    destruct (Hfirst ltac:(discriminate) [] patch [] eq_refl (List.Forall_nil _))
      as [Hnoid _].
    rewrite (Hnoid Hp). reflexivity. }
  assert (Hok : id <> "" -> patchable c patch ->
                UpdateOne c id patch n
                = (firstResult
                     (fst (write c [patch] "PUT"
                             ("/entities/" ++ entityType c ++ "?_id%3D"
                                ++ QueryEscape id) n)),
                   snd (write c [patch] "PUT"
                          ("/entities/" ++ entityType c ++ "?_id%3D"
                             ++ QueryEscape id) n))).
  { intros Hid Hp. unfold UpdateOne, bindN, retN.
    rewrite (eqb_empty_false _ Hid).
    destruct (Update_checks c ("_id=" ++ id) [patch] n) as (_ & _ & _ & Hw & _).
    rewrite Hw; [|discriminate|discriminate|now constructor].
    rewrite id_query_escaped.
    destruct (write c [patch] "PUT" _ n) as [r n']. reflexivity. }
  split; [|split; [exact Hok|split]].
  - intros [-> | Hp]; [reflexivity|].
    destruct (String.eqb_spec id "") as [->|Hid]; [reflexivity|].
    now apply Hno.
  - intros n'. split.
    + intros Hrun.
      destruct (String.eqb_spec id "") as [->|Hid]; [discriminate Hrun|].
      destruct (patch !! META_LABEL_ID) as [v|] eqn:Ep;
        [|rewrite (Hno eq_refl Hid) in Hrun; discriminate Hrun].
      destruct (typeMismatch c patch) eqn:Et.
      * exfalso. unfold UpdateOne, bindN, retN, Update in Hrun.
        rewrite (eqb_empty_false _ Hid), id_query_nonempty in Hrun.
        simpl in Hrun. rewrite Ep, Et in Hrun. simpl in Hrun.
        discriminate Hrun.
      * assert (Hp : patchable c patch).
        { split; [rewrite Ep; now eexists | now apply typeMismatch_false]. }
        split; [exact Hid|]. split; [exact Hp|].
        rewrite (Hok Hid Hp) in Hrun.
        destruct (write c [patch] "PUT" _ n) as [[wr oe] n1].
        simpl in Hrun. destruct oe; [discriminate Hrun|].
        destruct wr; [|discriminate Hrun]. now inversion Hrun.
    + intros (Hid & Hp & Hw). rewrite (Hok Hid Hp), Hw. reflexivity.
  - intros wr rest n' Hid Hp Hw. rewrite (Hok Hid Hp), Hw. reflexivity.
Qed.

(** X19.  Delete refuses an empty query with [ErrNoQuery] and sends
    nothing; otherwise it is a write without entities, with DELETE, whose
    request has no body.  DeleteOne refuses an empty id with [ErrIdNotSet];
    otherwise it deletes by the query [_id=] and the id, escaped as a
    whole, returns the first write result of the answer, and panics exactly
    when the write succeeds with an empty list of results. *)
Theorem Delete_outcome (c : entityClient) (n : Net T) :
  Delete c "" n = (([], Some ErrNoQuery), n)
  /\ (forall query,
        query <> "" ->
        Delete c query n
        = write c [] "DELETE"
            ("/entities/" ++ entityType c ++ "?" ++ QueryEscape query) n
        /\ (sent (snd (Delete c query n)) = sent n
            \/ sent (snd (Delete c query n))
               = (sent n
                    ++ [requestOf c "DELETE"
                          ("/entities/" ++ entityType c ++ "?"
                             ++ QueryEscape query) None])%list))
  /\ DeleteOne c "" n = (Returned zeroWriteResult (Some ErrIdNotSet), n)
  /\ (forall id,
        id <> "" ->
        DeleteOne c id n
        = (firstResult
             (fst (write c [] "DELETE"
                     ("/entities/" ++ entityType c ++ "?_id%3D" ++ QueryEscape id)
                     n)),
           snd (write c [] "DELETE"
                  ("/entities/" ++ entityType c ++ "?_id%3D" ++ QueryEscape id) n))
        /\ forall n',
            DeleteOne c id n = (Panicked, n')
            <-> write c [] "DELETE"
                  ("/entities/" ++ entityType c ++ "?_id%3D" ++ QueryEscape id) n
                = (([], None), n')).
Proof.
  split; [reflexivity|]. split; [|split; [reflexivity|]].
  - intros query Hq. unfold Delete. rewrite (eqb_empty_false _ Hq).
    split; [reflexivity|].
    destruct (write_outcome c [] "DELETE"
                ("/entities/" ++ entityType c ++ "?" ++ QueryEscape query) n)
      as (_ & [Hs | (payload & Hp & Hs)] & _); [now left|].
    right. rewrite Hs. unfold marshalled in Hp. simpl in Hp.
    inversion Hp. reflexivity.
  - intros id Hid.
    assert (Hrun : DeleteOne c id n
                   = (firstResult
                        (fst (write c [] "DELETE"
                                ("/entities/" ++ entityType c ++ "?_id%3D"
                                   ++ QueryEscape id) n)),
                      snd (write c [] "DELETE"
                             ("/entities/" ++ entityType c ++ "?_id%3D"
                                ++ QueryEscape id) n))).
    { unfold DeleteOne, bindN, retN, Delete.
      rewrite (eqb_empty_false _ Hid), id_query_nonempty, id_query_escaped.
      destruct (write c [] "DELETE" _ n) as [r n']. reflexivity. }
    split; [exact Hrun|]. intros n'. rewrite Hrun.
    destruct (write c [] "DELETE" _ n) as [[wr oe] n1]. simpl. split.
    + destruct oe; [discriminate|]. destruct wr; [|discriminate].
      intros Heq. now inversion Heq.
    + intros Heq. now inversion Heq.
Qed.

(** X20.  Query refuses an empty query with [ErrNoQuery] and sends
    nothing.  A query of fewer than 2000 bytes goes by GET, escaped, after
    the question mark of the URL, without a body; a longer one goes by POST
    to the query endpoint of the type, as the body and as it is, and the URL
    does not hold it.  When the request cannot be made nothing is sent;
    otherwise exactly this request is sent.  Query succeeds exactly when
    the answer has status 200 and its body is a list of entities, which it
    returns: status 201 is an error here. *)
Theorem Query_request (c : entityClient) (n : Net T) :
  Query c "" n = (([], Some ErrNoQuery), n)
  /\ forall query,
      query <> "" ->
      let req :=
        if (String.length query <? 2000)%nat
        then requestOf c "GET"
               ("/entities/" ++ entityType c ++ "?" ++ QueryEscape query) None
        else requestOf c "POST" ("/query/" ++ entityType c) (Some query) in
      (forall e,
          NewRequestError (Method req) (URL req) = Some e ->
          Query c query n = (([], Some (Foreign e)), n))
      /\ (NewRequestError (Method req) (URL req) = None ->
          sent (snd (Query c query n)) = (sent n ++ [req])%list)
      /\ (forall entities n',
            Query c query n = ((entities, None), n')
            <-> exists t body,
                 NewRequestError (Method req) (URL req) = None
                 /\ Do (net n) req
                    = (t, inr {| StatusCode := 200; Body := inr body |})
                 /\ UnmarshalEntities body = inr entities
                 /\ n' = mkNet t (sent n ++ [req]))
      /\ (forall err,
            snd (fst (Query c query n)) = Some err -> isSentinel err = false).
Proof.
  split; [reflexivity|]. intros query Hq req.
  assert (Hrun : Query c query n
                 = bindN (do c (Method req)
                            (if (String.length query <? 2000)%nat
                             then "/entities/" ++ entityType c ++ "?"
                                    ++ QueryEscape query
                             else "/query/" ++ entityType c)
                            (Payload req))
                     (fun r =>
                        match r with
                        | inl err => retN ([], Some err)
                        | inr (status, body) =>
                            if negb (status =? 200)%Z
                            then retN ([], Some (apiError status body))
                            else match UnmarshalEntities body with
                                 | inl err => retN ([], Some (Foreign err))
                                 | inr entities => retN (entities, None)
                                 end
                        end) n).
  { unfold Query. rewrite (eqb_empty_false _ Hq). subst req.
    destruct (String.length query <? 2000)%nat; reflexivity. }
  assert (Hreq : req = requestOf c (Method req)
                         (if (String.length query <? 2000)%nat
                          then "/entities/" ++ entityType c ++ "?"
                                 ++ QueryEscape query
                          else "/query/" ++ entityType c)
                         (Payload req)).
  { subst req. destruct (String.length query <? 2000)%nat; reflexivity. }
  assert (Hurl : URL req = url c (if (String.length query <? 2000)%nat
                                  then "/entities/" ++ entityType c ++ "?"
                                         ++ QueryEscape query
                                  else "/query/" ++ entityType c)).
  { subst req. destruct (String.length query <? 2000)%nat; reflexivity. }
  rewrite Hrun. unfold bindN, retN.
  destruct (do_cases c (Method req)
              (if (String.length query <? 2000)%nat
               then "/entities/" ++ entityType c ++ "?" ++ QueryEscape query
               else "/query/" ++ entityType c) (Payload req) n)
    as [(e & Hnew & Hdo) | (Hnew & t & answer & HDo & Hsnd & Hfst)];
    rewrite <- Hurl in Hnew; try rewrite <- Hreq in *.
  - rewrite Hdo. split; [|split; [|split]].
    + intros e' He'. congruence.
    + congruence.
    + intros entities n'. split; [discriminate|].
      intros (t & body & Hn & _). congruence.
    + simpl. intros err Heq. inversion Heq. reflexivity.
  - destruct (do c (Method req) _ (Payload req) n) as [r n1].
    simpl in Hsnd, Hfst. subst r n1.
    split; [congruence|]. split; [|split].
    + intros _. destruct answer as [e|[status [e|body]]]; try reflexivity.
      simpl. destruct (negb (status =? 200)%Z); [reflexivity|].
      destruct (UnmarshalEntities body); reflexivity.
    + intros entities n'. split.
      * destruct answer as [e|[status [e|body]]]; simpl; try discriminate.
        destruct (status =? 200)%Z eqn:Es; simpl; [|discriminate].
        apply Z.eqb_eq in Es. subst status.
        destruct (UnmarshalEntities body) as [e|es] eqn:Eu; [discriminate|].
        intros Heq. inversion Heq; subst. exists t, body. now repeat split.
      * intros (t' & body & _ & HDo' & Hu & ->).
        rewrite HDo in HDo'. inversion HDo'; subst. simpl. now rewrite Hu.
    + intros err. destruct answer as [e|[status [e|body]]]; simpl;
        try (intros Heq; inversion Heq; reflexivity).
      destruct (negb (status =? 200)%Z).
      * simpl. intros Heq. inversion Heq. unfold apiError.
        destruct (ErrType _ =? ""); reflexivity.
      * destruct (UnmarshalEntities body); simpl; intros Heq; inversion Heq.
        reflexivity.
Qed.

(** X21.  The label operations check the id, and DeleteLabel then the
    label, before anything is sent: an empty id is [ErrIdNotSet], an empty
    label [ErrNoLabel].  Labels sends one GET for the labels of the entity
    and succeeds exactly when the answer has status 200 and its body is a
    list of strings.  DeleteLabel is a write without entities, with DELETE,
    to the label of the entity; the id and the label are put in the path
    as they are.  It returns the first write result of the answer, and
    panics exactly when the write succeeds with an empty list of
    results. *)
Theorem label_operations (c : entityClient) (n : Net T) :
  Labels c "" n = (([], Some ErrIdNotSet), n)
  /\ (forall label,
        DeleteLabel c "" label n
        = (Returned zeroWriteResult (Some ErrIdNotSet), n))
  /\ (forall id,
        id <> "" ->
        DeleteLabel c id "" n = (Returned zeroWriteResult (Some ErrNoLabel), n))
  /\ (forall id labels n',
        id <> "" ->
        Labels c id n = ((labels, None), n')
        <-> exists t body,
             NewRequestError "GET"
               (url c ("/entity/" ++ entityType c ++ "/" ++ id ++ "/labels"))
             = None
             /\ Do (net n)
                  (requestOf c "GET"
                     ("/entity/" ++ entityType c ++ "/" ++ id ++ "/labels") None)
                = (t, inr {| StatusCode := 200; Body := inr body |})
             /\ UnmarshalLabels body = inr labels
             /\ n' = mkNet t
                       (sent n
                          ++ [requestOf c "GET"
                                ("/entity/" ++ entityType c ++ "/" ++ id
                                   ++ "/labels") None]))
  /\ (forall id label,
        id <> "" -> label <> "" ->
        DeleteLabel c id label n
        = (firstResult
             (fst (write c [] "DELETE"
                     ("/entity/" ++ entityType c ++ "/" ++ id ++ "/labels/"
                        ++ label) n)),
           snd (write c [] "DELETE"
                  ("/entity/" ++ entityType c ++ "/" ++ id ++ "/labels/"
                     ++ label) n))
        /\ forall n',
            DeleteLabel c id label n = (Panicked, n')
            <-> write c [] "DELETE"
                  ("/entity/" ++ entityType c ++ "/" ++ id ++ "/labels/"
                     ++ label) n
                = (([], None), n')).
Proof.
  split; [reflexivity|]. split; [reflexivity|]. split; [|split].
  - intros id Hid. unfold DeleteLabel. now rewrite (eqb_empty_false _ Hid).
  - intros id labels n' Hid. unfold Labels, bindN, retN.
    rewrite (eqb_empty_false _ Hid).
    destruct (do_cases c "GET"
                ("/entity/" ++ entityType c ++ "/" ++ id ++ "/labels") None n)
      as [(e & Hnew & Hdo) | (Hnew & t & answer & HDo & Hsnd & Hfst)].
    + rewrite Hdo. split; [discriminate|].
      intros (t & body & Hn & _). congruence.
    + destruct (do c "GET" _ None n) as [r n1]. simpl in Hsnd, Hfst.
      subst r n1. split.
      * destruct answer as [e|[status [e|body]]]; simpl; try discriminate.
        destruct (status =? 200)%Z eqn:Es; simpl; [|discriminate].
        apply Z.eqb_eq in Es. subst status.
        destruct (UnmarshalLabels body) as [e|ls] eqn:Eu; [discriminate|].
        intros Heq. inversion Heq; subst. exists t, body. now repeat split.
      * intros (t' & body & _ & HDo' & Hu & ->).
        rewrite HDo in HDo'. inversion HDo'; subst. simpl. now rewrite Hu.
  - intros id label Hid Hl.
    assert (Hrun : DeleteLabel c id label n
                   = (firstResult
                        (fst (write c [] "DELETE"
                                ("/entity/" ++ entityType c ++ "/" ++ id
                                   ++ "/labels/" ++ label) n)),
                      snd (write c [] "DELETE"
                             ("/entity/" ++ entityType c ++ "/" ++ id
                                ++ "/labels/" ++ label) n))).
    { unfold DeleteLabel, bindN, retN.
      rewrite (eqb_empty_false _ Hid), (eqb_empty_false _ Hl).
      destruct (write c [] "DELETE" _ n) as [r n']. reflexivity. }
    split; [exact Hrun|]. intros n'. rewrite Hrun.
    destruct (write c [] "DELETE" _ n) as [[wr oe] n1].
    unfold firstResult. simpl. split.
    + destruct oe; [discriminate|]. destruct wr; [|discriminate].
      intros Heq. now inversion Heq.
    + intros Heq. now inversion Heq.
Qed.

End ClientCoverage.

(** DeleteOne on a server that answers 200 with an empty list: the
    request is sent, with the equals sign of the query escaped, and the
    client panics on the first result that is not there. *)
Lemma DeleteOne_panics_on_empty_list :
  Client.DeleteOne Fixtures.testClient "5f1a" (Client.mkNet [Fixtures.answer 200 "[]"] [])
  = (Client.Panicked,
     Client.mkNet []
       [ {| Client.Method := "DELETE";
            Client.URL := "http://etre.local/api/v1/entities/nodes?_id%3D5f1a";
            Client.Payload := None;
            Client.ContentType := "application/json" |} ]).
Proof. vm_compute. reflexivity. Qed.

(** A query with an equals sign and a space, and a server that answers
    201: the query is escaped in the URL, and the answer is an error, since
    only 200 is a success for a query. *)
Lemma Query_escapes_and_wants_200 :
  Client.Query Fixtures.testClient "y=a b" (Client.mkNet [Fixtures.answer 201 ""] [])
  = (([], Some (Client.Errorf
                  "API error: code 201 (no error response object); check API logs for errors")),
     Client.mkNet []
       [ {| Client.Method := "GET";
            Client.URL := "http://etre.local/api/v1/entities/nodes?y%3Da+b";
            Client.Payload := None;
            Client.ContentType := "application/json" |} ]).
Proof. vm_compute. reflexivity. Qed.

(** UpdateOne with an id and a patch that has no id label: nothing is
    sent. *)
Lemma UpdateOne_wants_id_label :
  Client.UpdateOne Fixtures.testClient "5f1a" {[ "y" := Entity.VString "b" ]}
    (Client.mkNet [Fixtures.answer 200 "ok"] [])
  = (Client.Returned "" (Some Client.ErrIdNotSet),
     Client.mkNet [Fixtures.answer 200 "ok"] []).
Proof. vm_compute. reflexivity. Qed.
